(** * Siembol config editor: the schema-to-form compiler and the config store

    A shallow embedding of
    [config-editor-ui/src/app/ngx-formly] (the [FormlyJsonschema] service:
    [resolveSchema], [resolveDefinition], [resolveAllOf], [resolveMultiSchema],
    [_toFieldConfig]) and of
    [config-editor-ui/src/app/services/config-store.service.ts]. *)

From Stdlib Require Import ZArith List String Ascii Bool Lia Arith.
Set Warnings "-register-all".
Import ListNotations.
Open Scope string_scope.
Open Scope Z_scope.

(* ===================================================================== *)
(** ** Schema documents                                                   *)
(* ===================================================================== *)

(** A parsed JSON document.  An object keeps its members in insertion order,
    the order [Object.keys] and [for..in] enumerate.  The JavaScript value
    [undefined] is never stored: it is the [None] of a property read. *)
Inductive json : Type :=
| JNull
| JBool (b : bool)
| JNum (n : Z)
| JStr (s : string)
| JArr (items : list json)
| JObj (members : list (string * json)).

(** Outcome of running a piece of the compiler: a value, an exception that
    reaches the caller, or a point where this model stops ([OutOfFuel]: the
    recursion budget is used up; [Coercion]: JavaScript would coerce operands
    that are not of the declared schema type). *)
Inductive error : Type :=
| EmptyCompositionError      (* Error(`allOf array can not be empty`)          *)
| UnsupportedReferenceError  (* Error(`Remote schemas for .. not supported`)   *)
| UnresolvedReferenceError   (* Error(`Cannot find a definition for ..`)       *)
| TypeError.                 (* raised by the runtime, not by a [throw]        *)

Inductive limit : Type := OutOfFuel | Coercion.

Inductive result (A : Type) : Type :=
| Ok (a : A)
| Throw (e : error)
| Stuck (why : limit).
Arguments Ok {A} a.
Arguments Throw {A} e.
Arguments Stuck {A} why.

Definition bind {A B} (m : result A) (k : A -> result B) : result B :=
  match m with
  | Ok a => k a
  | Throw e => Throw e
  | Stuck w => Stuck w
  end.

Notation "x <- m ;; k" := (bind m (fun x => k))
  (at level 61, m at next level, right associativity).
Notation "' p <- m ;; k" := (bind m (fun p => k))
  (at level 61, p pattern, m at next level, right associativity).

Definition error_eqb (a b : error) : bool :=
  match a, b with
  | EmptyCompositionError, EmptyCompositionError
  | UnsupportedReferenceError, UnsupportedReferenceError
  | UnresolvedReferenceError, UnresolvedReferenceError
  | TypeError, TypeError => true
  | _, _ => false
  end.

(* --------------------------------------------------------------------- *)
(** *** Objects as ordered member lists                                    *)

Fixpoint assoc {V} (k : string) (l : list (string * V)) : option V :=
  match l with
  | [] => None
  | (k', v) :: l' => if String.eqb k k' then Some v else assoc k l'
  end.

(** [o[k] = v]: an existing member keeps its position, a new one goes last. *)
Fixpoint assign {V} (k : string) (v : V) (l : list (string * V)) : list (string * V) :=
  match l with
  | [] => [(k, v)]
  | (k', v') :: l' =>
      if String.eqb k k' then (k, v) :: l' else (k', v') :: assign k v l'
  end.

Fixpoint remove_key {V} (k : string) (l : list (string * V)) : list (string * V) :=
  match l with
  | [] => []
  | (k', v') :: l' =>
      if String.eqb k k' then remove_key k l' else (k', v') :: remove_key k l'
  end.

(** Decimal rendering of an array index, for the keys of an array. *)
Definition digit (n : nat) : ascii := ascii_of_nat (48 + n).

Fixpoint index_digits (fuel n : nat) (acc : string) : string :=
  match fuel with
  | O => acc
  | S fuel' =>
      let acc' := String (digit (n mod 10)) acc in
      if (n / 10 =? 0)%nat then acc' else index_digits fuel' (n / 10) acc'
  end.

Definition index_key (n : nat) : string := index_digits (S n) n "".

Fixpoint indexed {V} (i : nat) (l : list V) : list (string * V) :=
  match l with
  | [] => []
  | v :: l' => (index_key i, v) :: indexed (S i) l'
  end.

Fixpoint chars (s : string) : list json :=
  match s with
  | EmptyString => []
  | String c s' => JStr (String c EmptyString) :: chars s'
  end.

(** The own enumerable properties of a value: what [{...v}] copies and what
    [for (k in v)] visits. *)
Definition own_members (v : json) : list (string * json) :=
  match v with
  | JObj l => l
  | JArr l => indexed 0 l
  | JStr s => indexed 0 (chars s)
  | _ => []
  end.

Definition length_member (v : json) : option json :=
  match v with
  | JArr l => Some (JNum (Z.of_nat (List.length l)))
  | JStr s => Some (JNum (Z.of_nat (String.length s)))
  | _ => None
  end.

(** [v.hasOwnProperty(k)] and, when it holds, [v[k]].  [null] has no
    properties to ask for; callers guard it with a truthiness test. *)
Definition own (k : string) (v : json) : option json :=
  match v with
  | JObj l => assoc k l
  | JArr _ | JStr _ =>
      if String.eqb k "length" then length_member v
      else assoc k (own_members v)
  | _ => None
  end.

(** [v[k]] for a schema read: own members only matter, since the keywords
    read by the compiler are not names of inherited members. *)
Definition prop (k : string) (v : json) : result (option json) :=
  match v with
  | JNull => Throw TypeError
  | _ => Ok (own k v)
  end.

(** JavaScript truthiness of a property read. *)
Definition truthy (v : option json) : bool :=
  match v with
  | None | Some JNull | Some (JBool false) | Some (JNum 0) | Some (JStr EmptyString) => false
  | _ => true
  end.

(** [isEmpty(v)]: [v === '' || v === undefined || v === null]. *)
Definition isEmpty (v : option json) : bool :=
  match v with
  | None | Some JNull | Some (JStr EmptyString) => true
  | _ => false
  end.

(* --------------------------------------------------------------------- *)
(** *** [String.prototype.split] with a non-empty separator                *)

Fixpoint split_from (sep : string) (skip : nat) (cur : string) (s : string)
  : list string :=
  match s with
  | EmptyString => [cur]
  | String c s' =>
      match skip with
      | S k => split_from sep k cur s'
      | O =>
          if String.prefix sep s
          then cur :: split_from sep (String.length sep - 1) EmptyString s'
          else split_from sep O (cur ++ String c EmptyString) s'
      end
  end.

Definition split (sep s : string) : list string := split_from sep O EmptyString s.

(* ===================================================================== *)
(** ** SchemaResolver: [$ref] and [allOf]                                 *)
(* ===================================================================== *)

(** [a < b] on schema numbers.  Operands of another type would be coerced
    by JavaScript; the model stops there. *)
Definition js_lt (a b : json) : result bool :=
  match a, b with
  | JNum x, JNum y => Ok (x <? y)
  | _, _ => Stuck Coercion
  end.

(** [[...v]]: the elements of an iterable. *)
Definition spread_items (v : json) : result (list json) :=
  match v with
  | JArr l => Ok l
  | JStr s => Ok (chars s)
  | _ => Throw TypeError
  end.

(** One property of the source in [reverseDeepMerge] (imported from
    [@ngx-formly/core]): a destination member that is [undefined], [null]
    or [''] takes a clone of the source member; two plain objects are merged
    recursively ([into_v] merges the source member into its argument); in
    every other case, arrays included, the destination wins. *)
Definition merge_member (k : string) (v : json) (into_v : json -> json)
    (d : list (string * json)) : list (string * json) :=
  match assoc k d with
  | None | Some JNull | Some (JStr EmptyString) => assign k v d
  | Some (JObj dk) =>
      match v with
      | JObj _ => assign k (into_v (JObj dk)) d
      | _ => d
      end
  | Some _ => d
  end.

Fixpoint reverseDeepMerge (src dest : json) {struct src} : json :=
  match dest with
  | JObj d =>
      match src with
      | JObj ms =>
          JObj ((fix visit (ms : list (string * json)) (d : list (string * json)) :=
                   match ms with
                   | [] => d
                   | (k, v) :: ms' =>
                       visit ms' (merge_member k v (reverseDeepMerge v) d)
                   end) ms d)
      | JArr vs =>
          JObj ((fix visit (i : nat) (vs : list json) (d : list (string * json)) :=
                   match vs with
                   | [] => d
                   | v :: vs' =>
                       visit (S i) vs' (merge_member (index_key i) v (reverseDeepMerge v) d)
                   end) O vs d)
      | JStr _ =>
          JObj (fold_left (fun d kv => merge_member (fst kv) (snd kv) (fun x => x) d)
                          (own_members src) d)
      | _ => dest
      end
  | _ => dest
  end.

(** The parts of a [$ref] string: [const [uri, pointer] = ref.split('#/')]. *)
Definition ref_uri (r : string) : option string := nth_error (split "#/" r) 0.
Definition ref_pointer (r : string) : option string := nth_error (split "#/" r) 1.

(** The pointer walk of [resolveDefinition]:
    [(def, path) => def && def.hasOwnProperty(path) ? def[path] : null]. *)
Definition pointer_step (def : option json) (path : string) : option json :=
  match def with
  | Some d => if truthy def then own path d else None
  | None => None
  end.

Definition lookup_pointer (root : json) (pointer : option string) : option json :=
  match pointer with
  | None | Some EmptyString => None
  | Some p => fold_left pointer_step (split "/" p) (Some root)
  end.

Definition annotation_keys : list string := ["title"; "description"; "default"].

(** [{...definition, ...annotations}] where [annotations] collects the
    [title], [description] and [default] that [schema] owns. *)
Definition override_annotations (schema definition : json) : json :=
  JObj (fold_left
          (fun acc p =>
             match own p schema with
             | Some v => assign p v acc
             | None => acc
             end)
          annotation_keys (own_members definition)).

Fixpoint resolveDefinition (fuel : nat) (root schema : json) : result json :=
  match fuel with
  | O => Stuck OutOfFuel
  | S fuel' =>
      ref <- prop "$ref" schema ;;
      match ref with
      | Some (JStr r) =>
          let parts := split "#/" r in
          let uri := nth_error parts 0 in
          let pointer := nth_error parts 1 in
          match uri with
          | Some (String _ _) => Throw UnsupportedReferenceError
          | _ =>
              let definition := lookup_pointer root pointer in
              match definition with
              | Some def =>
                  if truthy definition then
                    if truthy (own "$ref" def)
                    then resolveDefinition fuel' root def
                    else Ok (override_annotations schema def)
                  else Throw UnresolvedReferenceError
              | None => Throw UnresolvedReferenceError
              end
          end
      | _ => Throw TypeError
      end
  end.

Definition max_family : list string :=
  ["maxLength"; "maximum"; "exclusiveMaximum"; "maxItems"; "maxProperties"].
Definition min_family : list string :=
  ["minLength"; "minimum"; "exclusiveMinimum"; "minItems"; "minProperties"].

(** The body of one [forEach] over a family of bounds.  [keep_base a b] is
    the test under which [base[prop]] stays. *)
Definition tighten (keep_base : json -> json -> result bool) (schema : json)
    (base : list (string * json)) (p : string) : result (list (string * json)) :=
  match assoc p base, own p schema with
  | Some b, Some s =>
      if negb (isEmpty (Some b)) && negb (isEmpty (Some s))
      then keep <- keep_base b s ;;
           Ok (assign p (if keep then b else s) base)
      else Ok base
  | _, _ => Ok base
  end.

Fixpoint forEach {A S} (f : S -> A -> result S) (l : list A) (s : S) : result S :=
  match l with
  | [] => Ok s
  | a :: l' => s' <- f s a ;; forEach f l' s'
  end.

(** The reducer of [resolveAllOf]; [resolve] is [this.resolveSchema]. *)
Definition allOf_step (resolve : json -> result json)
    (base : list (string * json)) (member : json) : result (list (string * json)) :=
  schema <- resolve member ;;
  base <- (match assoc "required" base, own "required" schema with
           | Some br, Some sr =>
               if truthy (Some br) && truthy (Some sr)
               then b <- spread_items br ;;
                    s <- spread_items sr ;;
                    Ok (assign "required" (JArr (b ++ s)) base)
               else Ok base
           | _, _ => Ok base
           end) ;;
  let base := if truthy (own "uniqueItems" schema)
              then match own "uniqueItems" schema with
                   | Some u => assign "uniqueItems" u base
                   | None => base
                   end
              else base in
  base <- forEach (tighten js_lt schema) max_family base ;;
  base <- forEach (tighten (fun b s => js_lt s b) schema) min_family base ;;
  match reverseDeepMerge schema (JObj base) with
  | JObj merged => Ok merged
  | _ => Ok base
  end.

Definition resolveAllOf (resolve : json -> result json) (schema : json)
  : result json :=
  match own "allOf" schema with
  | Some allOf =>
      if truthy (own "length" allOf) then
        match allOf with
        | JArr members =>
            merged <- forEach (allOf_step resolve) members
                              (remove_key "allOf" (own_members schema)) ;;
            Ok (JObj merged)
        | _ => Throw TypeError
        end
      else Throw EmptyCompositionError
  | None => Throw TypeError
  end.

Fixpoint resolveSchema (fuel : nat) (root schema : json) : result json :=
  match fuel with
  | O => Stuck OutOfFuel
  | S fuel' =>
      ref <- prop "$ref" schema ;;
      schema <- (if truthy ref then resolveDefinition fuel' root schema
                 else Ok schema) ;;
      allOf <- prop "allOf" schema ;;
      if truthy allOf then resolveAllOf (resolveSchema fuel' root) schema
      else Ok schema
  end.



(* ===================================================================== *)
(** ** FieldCompiler: the descriptor of one schema node                   *)
(* ===================================================================== *)

(** [v.k] where [v] may be [undefined] or [null]: reading a member of
    either is a [TypeError]. *)
Definition member_of (k : string) (v : option json) : result (option json) :=
  match v with
  | None | Some JNull => Throw TypeError
  | Some x => Ok (own k x)
  end.

(* --------------------------------------------------------------------- *)
(** *** Labels                                                             *)

Definition is_upper (c : ascii) : bool :=
  let n := nat_of_ascii c in ((65 <=? n) && (n <=? 90))%nat.
Definition is_lower (c : ascii) : bool :=
  let n := nat_of_ascii c in ((97 <=? n) && (n <=? 122))%nat.
Definition is_letter (c : ascii) : bool := is_upper c || is_lower c.
Definition is_space (c : ascii) : bool :=
  let n := nat_of_ascii c in ((n =? 32) || ((9 <=? n) && (n <=? 13)))%nat.
Definition to_upper (c : ascii) : ascii :=
  if is_lower c then ascii_of_nat (nat_of_ascii c - 32) else c.
Definition to_lower (c : ascii) : ascii :=
  if is_upper c then ascii_of_nat (nat_of_ascii c + 32) else c.

(** Angular's [TitleCasePipe.transform] on an ASCII string: every match of
    [/[A-Za-z]\S*/g] gets its first character in upper case and the rest in
    lower case.  [in_word] tells that the scan is inside a match. *)
Fixpoint titlecase_from (in_word : bool) (s : string) : string :=
  match s with
  | EmptyString => EmptyString
  | String c s' =>
      if in_word then
        if is_space c then String c (titlecase_from false s')
        else String (to_lower c) (titlecase_from true s')
      else
        if is_letter c then String (to_upper c) (titlecase_from true s')
        else String c (titlecase_from false s')
  end.

Definition titleCase (s : string) : string := titlecase_from false s.

(** [s.replace(/_/g, ' ')]. *)
Fixpoint underscores_to_spaces (s : string) : string :=
  match s with
  | EmptyString => EmptyString
  | String c s' =>
      String (if Ascii.eqb c "_" then " "%char else c) (underscores_to_spaces s')
  end.

(** [this.titleCasePipe.transform(x.replace(/_/g, ' '))] for a value [x]
    that has to be a string to have [replace]. *)
Definition label_of (x : option json) : result string :=
  match x with
  | Some (JStr s) => Ok (titleCase (underscores_to_spaces s))
  | _ => Throw TypeError
  end.

(** [propKey[propKey.length - 1]]. *)
Definition last_segment (propKey : list string) : option json :=
  match rev propKey with
  | [] => None
  | k :: _ => Some (JStr k)
  end.

(* --------------------------------------------------------------------- *)
(** *** [guessType], [isConst], [isEnum], [toEnumOptions]                  *)

Definition is_str (k : string) (v : option json) : bool :=
  match v with
  | Some (JStr s) => String.eqb s k
  | _ => false
  end.

Definition guessType (schema : json) : option json :=
  let type := own "type" schema in
  if negb (truthy type) && truthy (own "properties" schema)
  then Some (JStr "object")
  else
    match type with
    | Some (JArr [t]) => Some t
    | Some (JArr [t0; t1]) =>
        if is_str "null" (Some t0) then Some t1
        else if is_str "null" (Some t1) then Some t0
        else type
    | _ => type
    end.

(** [isConst(schema)], as a truth value. *)
Definition isConst (s : json) : result bool :=
  match s with
  | JNull => Throw TypeError
  | _ =>
      match own "const" s with
      | Some _ => Ok true
      | None =>
          let enum := own "enum" s in
          if truthy enum
          then Ok (match member_of "length" enum with
                   | Ok (Some (JNum 1)) => true
                   | _ => false
                   end)
          else Ok false
      end
  end.

Fixpoint every {A} (f : A -> result bool) (l : list A) : result bool :=
  match l with
  | [] => Ok true
  | a :: l' => b <- f a ;; if b then every f l' else Ok false
  end.

(** [x && x.every(isConst)] for a member [x] of the schema. *)
Definition all_const (x : option json) : result bool :=
  if truthy x then
    match x with
    | Some (JArr l) => every isConst l
    | _ => Throw TypeError
    end
  else Ok false.

Definition is_array (v : option json) : bool :=
  match v with
  | Some (JArr _) => true
  | _ => false
  end.

Fixpoint isEnum (fuel : nat) (schema : json) : result bool :=
  match fuel with
  | O => Stuck OutOfFuel
  | S fuel' =>
      if truthy (own "enum" schema) then Ok true else
      a <- all_const (own "anyOf" schema) ;;
      if a then Ok true else
      o <- all_const (own "oneOf" schema) ;;
      if o then Ok true else
      if truthy (own "uniqueItems" schema) && truthy (own "items" schema)
         && negb (is_array (own "items" schema))
      then match own "items" schema with
           | Some items => isEnum fuel' items
           | None => Ok false
           end
      else Ok false
  end.

(** [toEnum(s)] of [toEnumOptions]. *)
Definition toEnum (s : json) : result json :=
  value <- (match s with
            | JNull => Throw TypeError
            | _ => match own "const" s with
                   | Some c => Ok (Some c)
                   | None => member_of "0" (own "enum" s)
                   end
            end) ;;
  let label := if truthy (own "title" s) then own "title" s else value in
  Ok (JObj (match value with Some v => [("value", v)] | None => [] end
            ++ match label with Some l => [("label", l)] | None => [] end)).

Fixpoint mapM {A B} (f : A -> result B) (l : list A) : result (list B) :=
  match l with
  | [] => Ok []
  | a :: l' => b <- f a ;; bs <- mapM f l' ;; Ok (b :: bs)
  end.

Fixpoint toEnumOptions (fuel : nat) (schema : json) : result json :=
  match fuel with
  | O => Stuck OutOfFuel
  | S fuel' =>
      if truthy (own "enum" schema) then
        match own "enum" schema with
        | Some (JArr vs) =>
            Ok (JArr (map (fun v => JObj [("value", v); ("label", v)]) vs))
        | _ => Throw TypeError
        end
      else if truthy (own "anyOf" schema) then
        match own "anyOf" schema with
        | Some (JArr l) => os <- mapM toEnum l ;; Ok (JArr os)
        | _ => Throw TypeError
        end
      else if truthy (own "oneOf" schema) then
        match own "oneOf" schema with
        | Some (JArr l) => os <- mapM toEnum l ;; Ok (JArr os)
        | _ => Throw TypeError
        end
      else
        match own "items" schema with
        | None | Some JNull => Throw TypeError
        | Some items => toEnumOptions fuel' items
        end
  end.

(* --------------------------------------------------------------------- *)
(** *** Field descriptors                                                  *)

Inductive mode : Type := OneOf | AnyOf.

(** The functions that the compiler stores in a descriptor, each named
    after the arrow function of the source and carrying what it captures. *)
Inductive validator : Type :=
| NullValidator                           (* value === null *)
| ExclusiveMinimumValidator (schema : json) (* isEmpty(value) || value > schema.exclusiveMinimum *)
| ExclusiveMaximumValidator (schema : json) (* isEmpty(value) || value < schema.exclusiveMaximum *)
| MultipleOfValidator (schema : json)     (* isEmpty(value) || value % schema.multipleOf === 0 *)
| MinItemsValidator (schema : json)       (* isEmpty(value) || value.length >= schema.minItems *)
| MaxItemsValidator (schema : json)       (* isEmpty(value) || value.length <= schema.maxItems *)
| UniqueItemsValidator (schema : json)
| ConstValidator (schema : json).         (* value === schema.const *)

Inductive parser : Type :=
| NumberParser                            (* v => isEmpty(v) ? null : Number(v) *)
| NullableParser.                         (* v => isEmpty(v) ? null : v *)

Inductive hide : Type :=
| HideByCondition (source : string)
    (* (model, formState, f) => dynFunc(formState.mainModel, model, f) *)
| HideUnlessConst (key : string) (constSchema : json)
    (* m => !m || getConstValue(constSchema) !== m[key] *)
| HideWhileEmpty (key : string)
    (* m => !m || isEmpty(m[key]) *)
| HideUnlessSelected (m : mode) (i : nat).
    (* the branch predicate of resolveMultiSchema *)

(** ['templateOptions.required': m => m && propDeps[key].some(k => !isEmpty(m[k]))] *)
Inductive required_when : Type := RequiredWhenAny (triggers : list string).

(** The [fieldArray] accessor: the getter with what it captures ([schema],
    [options.autoClear] and the array [newPropKey2] it pushes to), or the
    value that an object spread has read from it. *)
Inductive items_of (F : Type) : Type :=
| ItemsGetter (schema : json) (autoClear : option bool) (newPropKey2 : list string)
| ItemsValue (f : F).
Arguments ItemsGetter {F} schema autoClear newPropKey2.
Arguments ItemsValue {F} f.

Inductive field : Type := mkField {
  type : option json;
  defaultValue : option json;
  templateOptions : option (list (string * json));
  autoClear : option bool;
  key : option string;
  parsers : option parser;
  validators : list (string * validator);
  expressionProperties : option required_when;
  hideExpression : option hide;
  wrappers : option json;
  fieldGroup : option (list field);
  fieldArray : option (items_of field);
  overlay : option json
    (* [Some c]: the descriptor is [reverseDeepMerge(c, field)] *)
}.

(** The descriptor [{}]. *)
Definition empty_field : field :=
  mkField None None None None None None [] None None None None None None.

Definition set_type v f := mkField v (defaultValue f) (templateOptions f) (autoClear f) (key f) (parsers f) (validators f) (expressionProperties f) (hideExpression f) (wrappers f) (fieldGroup f) (fieldArray f) (overlay f).
Definition set_defaultValue v f := mkField (type f) v (templateOptions f) (autoClear f) (key f) (parsers f) (validators f) (expressionProperties f) (hideExpression f) (wrappers f) (fieldGroup f) (fieldArray f) (overlay f).
Definition set_templateOptions v f := mkField (type f) (defaultValue f) v (autoClear f) (key f) (parsers f) (validators f) (expressionProperties f) (hideExpression f) (wrappers f) (fieldGroup f) (fieldArray f) (overlay f).
Definition set_autoClear v f := mkField (type f) (defaultValue f) (templateOptions f) v (key f) (parsers f) (validators f) (expressionProperties f) (hideExpression f) (wrappers f) (fieldGroup f) (fieldArray f) (overlay f).
Definition set_key v f := mkField (type f) (defaultValue f) (templateOptions f) (autoClear f) v (parsers f) (validators f) (expressionProperties f) (hideExpression f) (wrappers f) (fieldGroup f) (fieldArray f) (overlay f).
Definition set_parsers v f := mkField (type f) (defaultValue f) (templateOptions f) (autoClear f) (key f) v (validators f) (expressionProperties f) (hideExpression f) (wrappers f) (fieldGroup f) (fieldArray f) (overlay f).
Definition set_validators v f := mkField (type f) (defaultValue f) (templateOptions f) (autoClear f) (key f) (parsers f) v (expressionProperties f) (hideExpression f) (wrappers f) (fieldGroup f) (fieldArray f) (overlay f).
Definition set_expressionProperties v f := mkField (type f) (defaultValue f) (templateOptions f) (autoClear f) (key f) (parsers f) (validators f) v (hideExpression f) (wrappers f) (fieldGroup f) (fieldArray f) (overlay f).
Definition set_hideExpression v f := mkField (type f) (defaultValue f) (templateOptions f) (autoClear f) (key f) (parsers f) (validators f) (expressionProperties f) v (wrappers f) (fieldGroup f) (fieldArray f) (overlay f).
Definition set_wrappers v f := mkField (type f) (defaultValue f) (templateOptions f) (autoClear f) (key f) (parsers f) (validators f) (expressionProperties f) (hideExpression f) v (fieldGroup f) (fieldArray f) (overlay f).
Definition set_fieldGroup v f := mkField (type f) (defaultValue f) (templateOptions f) (autoClear f) (key f) (parsers f) (validators f) (expressionProperties f) (hideExpression f) (wrappers f) v (fieldArray f) (overlay f).
Definition set_fieldArray v f := mkField (type f) (defaultValue f) (templateOptions f) (autoClear f) (key f) (parsers f) (validators f) (expressionProperties f) (hideExpression f) (wrappers f) (fieldGroup f) v (overlay f).
Definition set_overlay v f := mkField (type f) (defaultValue f) (templateOptions f) (autoClear f) (key f) (parsers f) (validators f) (expressionProperties f) (hideExpression f) (wrappers f) (fieldGroup f) (fieldArray f) v.

(** [field.templateOptions[k] = v]; an [undefined] value leaves no member. *)
Definition set_to (k : string) (v : option json) (f : field) : result field :=
  match templateOptions f with
  | Some to =>
      Ok (set_templateOptions
            (Some (match v with
                   | Some x => assign k x to
                   | None => remove_key k to
                   end)) f)
  | None => Throw TypeError
  end.

(** [this.addValidator(field, name, validator)]. *)
Definition addValidator (name : string) (v : validator) (f : field) : field :=
  set_validators (assign name v (validators f)) f.

(** What is fixed for one compilation: the [options] given to
    [toFieldConfig], the service's [testSpec], and which sources
    [new Function] accepts as a function body. *)
Record env : Type := mkEnv {
  root : json;                                 (* options.schema *)
  map_hook : option (field -> json -> field);  (* options.map *)
  testSpec : option field;                     (* this.testSpec *)
  parses : string -> bool
}.

(* --------------------------------------------------------------------- *)
(** *** [_toFieldConfig]: the part that looks at one node only             *)

Definition optional (k : string) (v : option json) : list (string * json) :=
  match v with
  | Some x => [(k, x)]
  | None => []
  end.

(** The literal that [_toFieldConfig] starts from, with [autoClear]. *)
Definition base_field (autoClear_option : option bool) (schema : json) : result field :=
  label <- (if truthy (own "title" schema) then label_of (own "title" schema)
            else Ok EmptyString) ;;
  Ok (mkField (guessType schema) (own "default" schema)
        (Some ([("label", JStr label)]
               ++ optional "readonly" (own "readOnly" schema)
               ++ optional "description" (own "description" schema))%list)
        (Some (match autoClear_option with Some false => false | _ => true end))
        None None [] None None None None None None).

(** [field.templateOptions.label =
      this.titleCasePipe.transform(propKey[propKey.length - 1].replace(/_/g, ' '))] *)
Definition label_from_key (propKey : list string) (f : field) : result field :=
  l <- label_of (last_segment propKey) ;;
  set_to "label" (Some (JStr l)) f.

(** [if (schema.hasOwnProperty(from)) field.templateOptions[to] = schema[from]] *)
Definition copy_owned (schema : json) (from to : string) (f : field) : result field :=
  match own from schema with
  | Some v => set_to to (Some v) f
  | None => Ok f
  end.

Definition validate_owned (schema : json) (from to : string) (v : validator)
    (f : field) : result field :=
  match own from schema with
  | Some x => f <- set_to to (Some x) f ;; Ok (addValidator from v f)
  | None => Ok f
  end.

Definition number_case (schema : json) (propKey : list string) (f : field) : result field :=
  f <- label_from_key propKey f ;;
  let f := set_parsers (Some NumberParser) f in
  f <- copy_owned schema "minimum" "min" f ;;
  f <- copy_owned schema "maximum" "max" f ;;
  f <- validate_owned schema "exclusiveMinimum" "exclusiveMinimum"
         (ExclusiveMinimumValidator schema) f ;;
  f <- validate_owned schema "exclusiveMaximum" "exclusiveMaximum"
         (ExclusiveMaximumValidator schema) f ;;
  validate_owned schema "multipleOf" "step" (MultipleOfValidator schema) f.

Definition has_null (types : list json) : bool :=
  existsb (fun t => is_str "null" (Some t)) types.

Definition string_case (schema : json) (propKey : list string) (f : field) : result field :=
  let f := match own "type" schema with
           | Some (JArr types) =>
               if has_null types then set_parsers (Some NullableParser) f else f
           | _ => f
           end in
  f <- copy_owned schema "minLength" "minLength" f ;;
  f <- copy_owned schema "maxLength" "maxLength" f ;;
  f <- copy_owned schema "pattern" "pattern" f ;;
  if is_str "-" (last_segment propKey)
  then set_to "label" (Some (JStr EmptyString)) f
  else label_from_key propKey f.

(** The array case up to the resolution of [schema.items]. *)
Definition array_case (schema : json) (propKey : list string) (f : field) : result field :=
  let f := set_fieldGroup (Some []) f in
  f <- label_from_key propKey f ;;
  f <- validate_owned schema "minItems" "minItems" (MinItemsValidator schema) f ;;
  f <- validate_owned schema "maxItems" "maxItems" (MaxItemsValidator schema) f ;;
  validate_owned schema "uniqueItems" "uniqueItems" (UniqueItemsValidator schema) f.

(** [if (schema.hasOwnProperty('const')) { ... }] *)
Definition const_part (schema : json) (f : field) : result field :=
  match own "const" schema with
  | Some c =>
      f <- set_to "const" (Some c) f ;;
      let f := addValidator "const" (ConstValidator schema) f in
      Ok (if truthy (type f) then f else set_defaultValue (Some c) f)
  | None => Ok f
  end.

Definition condition_warning : string :=
  "Something went wrong with applying condition evaluation to form".

(** [if (schema.hasOwnProperty('x-schema-form')) { ... }]; the second
    component is what [console.warn] has printed so far. *)
Definition x_schema_form_part (e : env) (schema : json) (f : field)
    (log : list string) : result (field * list string) :=
  match own "x-schema-form" schema with
  | None => Ok (f, log)
  | Some x =>
      xtype <- member_of "type" (Some x) ;;
      let f := match xtype with Some t => set_type (Some t) f | None => f end in
      let f := match own "wrappers" x with
               | Some w => set_wrappers (Some w) f
               | None => if is_str "object" (type f)
                         then set_wrappers (Some (JArr [JStr "panel"])) f
                         else f
               end in
      match own "condition" x with
      | None => Ok (f, log)
      | Some c =>
          source <- member_of "hideExpression" (Some c) ;;
          '(f, log) <- (match source with
                        | None => Ok (f, log)
                        | Some (JStr src) =>
                            if parses e src
                            then Ok (set_hideExpression (Some (HideByCondition src)) f, log)
                            else Ok (f, (log ++ [condition_warning])%list)
                        | Some _ => Stuck Coercion
                        end) ;;
          Ok (match own "disableAutoClear" c with
              | Some _ => set_autoClear (Some false) f
              | None => f
              end, log)
      end
  end.

(** [if (this.isEnum(schema)) { ... }] *)
Definition enum_part (fuel : nat) (schema : json) (f : field) : result field :=
  b <- isEnum fuel schema ;;
  if b then
    f <- set_to "multiple" (Some (JBool (is_str "array" (type f)))) f ;;
    let f := set_type (Some (JStr "enum")) f in
    options <- toEnumOptions fuel schema ;;
    set_to "options" (Some options) f
  else Ok f.

(** The overlay of [schema.widget.formlyConfig] and the [options.map] hook. *)
Definition finish (e : env) (schema : json) (f : field) : result field :=
  let widget := own "widget" schema in
  f <- (if truthy widget then
          c <- member_of "formlyConfig" widget ;;
          Ok (if truthy c then set_overlay c f else f)
        else Ok f) ;;
  Ok (match map_hook e with
      | Some map => map f schema
      | None => f
      end).

(** Everything after the [switch]. *)
Definition after_switch (fuel : nat) (e : env) (schema : json) (f : field)
    (log : list string) : result (field * list string) :=
  f <- const_part schema f ;;
  '(f, log) <- x_schema_form_part e schema f log ;;
  f <- enum_part fuel schema f ;;
  f <- finish e schema f ;;
  Ok (f, log).

(* --------------------------------------------------------------------- *)
(** *** [resolveDependencies]                                              *)

(** [deps[dep] ? deps[dep].push(prop) : deps[dep] = [prop]] *)
Definition add_dep (prop dep : string) (deps : list (string * list string))
  : list (string * list string) :=
  match assoc dep deps with
  | Some ps => assign dep (ps ++ [prop])%list deps
  | None => assign dep [prop] deps
  end.

(** The names in a property dependency; a name that is not a string would
    be coerced to one. *)
Fixpoint names (l : list json) : result (list string) :=
  match l with
  | [] => Ok []
  | JStr s :: l' => ns <- names l' ;; Ok (s :: ns)
  | _ :: _ => Stuck Coercion
  end.

Definition resolveDependencies (schema : json)
  : result (list (string * list string) * list (string * json)) :=
  let dependencies := own "dependencies" schema in
  let entries := match dependencies with
                 | Some d => if truthy dependencies then own_members d else []
                 | None => []
                 end in
  forEach (fun acc entry =>
             let '(deps, schemaDeps) := acc in
             let '(prop, dependency) := entry in
             match dependency with
             | JArr l =>
                 ns <- names l ;;
                 Ok (fold_left (fun deps dep => add_dep prop dep deps) ns deps, schemaDeps)
             | _ => Ok (deps, assign prop dependency schemaDeps)
             end)
          entries ([], []).

(* --------------------------------------------------------------------- *)
(** *** [_toFieldConfig]: children                                         *)

Section Children.

(** [this._toFieldConfig(schema, {...options, autoClear}, propKey)], with
    the console log threaded through. *)
Variable compile :
  option bool -> option json -> list string -> list string ->
  result (field * list string).
Variable e : env.

(** The getter installed as [fieldArray]; [this] is the descriptor it is
    read from.  Returns the descriptor and the new [newPropKey2]. *)
Definition fieldArray_get (this : field) (schema : json)
    (autoClear_option : option bool) (newPropKey2 : list string)
    (log : list string) : result (field * list string * list string) :=
  let items := own "items" schema in
  if negb (is_array items) then
    let newPropKey2 := if is_str "-" (last_segment newPropKey2) then newPropKey2
                       else (newPropKey2 ++ ["-"])%list in
    '(f, log) <- compile autoClear_option items newPropKey2 log ;;
    Ok (f, newPropKey2, log)
  else
    let length := match fieldGroup this with
                  | Some g => List.length g
                  | None => O
                  end in
    at_length <- member_of (index_key length) items ;;
    let itemSchema := if truthy at_length then at_length
                      else own "additionalItems" schema in
    if truthy itemSchema then
      '(f, log) <- compile autoClear_option itemSchema newPropKey2 log ;;
      Ok (f, newPropKey2, log)
    else Ok (empty_field, newPropKey2, log).

(** [{...f, hideExpression: h}]: the spread reads every enumerable member
    of [f], the [fieldArray] accessor included. *)
Definition spread_hidden (f : field) (h : hide) (log : list string)
  : result (field * list string) :=
  '(f, log) <- (match fieldArray f with
                | Some (ItemsGetter schema a k) =>
                    '(v, _, log) <- fieldArray_get f schema a k log ;;
                    Ok (set_fieldArray (Some (ItemsValue v)) f, log)
                | _ => Ok (f, log)
                end) ;;
  Ok (set_hideExpression (Some h) f, log).

Definition index_of_key (k : string) (l : list json) : bool :=
  existsb (fun x => is_str k (Some x)) l.

(** [o => o.properties && o.properties[key] && isConst(o.properties[key])] *)
Definition discriminated_by (key : string) (o : json) : result bool :=
  properties <- prop "properties" o ;;
  if truthy properties then
    at_key <- member_of key properties ;;
    match at_key with
    | Some s => if truthy at_key then isConst s else Ok false
    | None => Ok false
    end
  else Ok false.

(** The fields pushed for [schemaDeps[key]]. *)
Definition dependency_fields (autoClear_option : option bool) (key : string)
    (dependency : json) (newPropKey : list string) (log : list string)
  : result (list field * list string) :=
  let oneOfSchema := own "oneOf" dependency in
  shortcut <- (if truthy oneOfSchema then
                 match oneOfSchema with
                 | Some (JArr l) => every (discriminated_by key) l
                 | _ => Throw TypeError
                 end
               else Ok false) ;;
  if shortcut then
    match oneOfSchema with
    | Some (JArr l) =>
        forEach (fun acc item =>
                   let '(fields, log) := acc in
                   properties <- prop "properties" item ;;
                   constSchema <- member_of key properties ;;
                   match properties, constSchema with
                   | Some ps, Some constSchema =>
                       let rest := JObj (remove_key key (own_members ps)) in
                       '(f, log) <- compile (Some true)
                                      (Some (JObj (assign "properties" rest (own_members item))))
                                      newPropKey log ;;
                       '(f, log) <- spread_hidden f (HideUnlessConst key constSchema) log ;;
                       Ok ((fields ++ [f])%list, log)
                   | _, _ => Throw TypeError
                   end)
                l ([], log)
    | _ => Throw TypeError
    end
  else
    '(f, log) <- compile autoClear_option (Some dependency) newPropKey log ;;
    '(f, log) <- spread_hidden f (HideWhileEmpty key) log ;;
    Ok ([f], log).

(** The body of [Object.keys(schema.properties || {}).forEach(key => ...)]. *)
Definition property_fields (autoClear_option : option bool) (schema : json)
    (propKey : list string)
    (propDeps : list (string * list string)) (schemaDeps : list (string * json))
    (acc : list field * list string) (entry : string * json)
  : result (list field * list string) :=
  let '(group, log) := acc in
  let '(key, sub) := entry in
  let newPropKey := (propKey ++ [key])%list in
  '(f, log) <- compile autoClear_option (Some sub) newPropKey log ;;
  let f := set_key (Some key) f in
  f <- (match own "required" schema with
        | Some (JArr l) =>
            if index_of_key key l then set_to "required" (Some (JBool true)) f else Ok f
        | _ => Ok f
        end) ;;
  let f := match templateOptions f, assoc key propDeps with
           | Some to, Some triggers =>
               if truthy (assoc "required" to) then f
               else set_expressionProperties (Some (RequiredWhenAny triggers)) f
           | _, _ => f
           end in
  let group := (group ++ [f])%list in
  match assoc key schemaDeps with
  | Some dependency =>
      if truthy (Some dependency) then
        '(fs, log) <- dependency_fields autoClear_option key dependency newPropKey log ;;
        Ok ((group ++ fs)%list, log)
      else Ok (group, log)
  | None => Ok (group, log)
  end.

Fixpoint with_index {A} (i : nat) (l : list A) : list (nat * A) :=
  match l with
  | [] => []
  | a :: l' => (i, a) :: with_index (S i) l'
  end.

Definition resolveMultiSchema (m : mode) (schemas : option json)
    (propKey : list string) (log : list string) : result (field * list string) :=
  match schemas with
  | Some (JArr l) =>
      options <- mapM (fun si : nat * json =>
                         title <- prop "title" (snd si) ;;
                         Ok (JObj (optional "label" title
                                   ++ [("value", JNum (Z.of_nat (fst si)))])%list))
                      (with_index O l) ;;
      let selector :=
        set_templateOptions
          (Some [("multiple", JBool (match m with AnyOf => true | OneOf => false end));
                 ("options", JArr options)])
          (set_type (Some (JStr "enum")) empty_field) in
      '(branches, log) <-
        forEach (fun acc (si : nat * json) =>
                   let '(fields, log) := acc in
                   '(f, log) <- compile (Some true) (Some (snd si)) propKey log ;;
                   '(f, log) <- spread_hidden f (HideUnlessSelected m (fst si)) log ;;
                   Ok ((fields ++ [f])%list, log))
                (with_index O l) ([], log) ;;
      Ok (set_fieldGroup
            (Some [selector; set_fieldGroup (Some branches) empty_field])
            (set_type (Some (JStr "union")) empty_field), log)
  | _ => Throw TypeError
  end.

(** [case 'object']. *)
Definition object_case (autoClear_option : option bool) (schema : json)
    (propKey : list string) (f : field) (log : list string)
  : result (field * list string) :=
  let f := set_fieldGroup (Some []) f in
  '(propDeps, schemaDeps) <- resolveDependencies schema ;;
  match own "properties" schema, own "oneOf" schema with
  | None, None =>
      match testSpec e with
      | Some t => Ok (t, log)
      | None => Ok (set_type (Some (JStr "rawobject")) f, log)
      end
  | properties, _ =>
      let entries := match properties with
                     | Some ps => if truthy properties then own_members ps else []
                     | None => []
                     end in
      '(group, log) <- forEach (property_fields autoClear_option schema propKey
                                                propDeps schemaDeps)
                               entries ([], log) ;;
      '(group, log) <- (if truthy (own "oneOf" schema) then
                          '(u, log) <- resolveMultiSchema OneOf (own "oneOf" schema) propKey log ;;
                          Ok ((group ++ [u])%list, log)
                        else Ok (group, log)) ;;
      '(group, log) <- (if truthy (own "anyOf" schema) then
                          '(u, log) <- resolveMultiSchema AnyOf (own "anyOf" schema) propKey log ;;
                          Ok ((group ++ [u])%list, log)
                        else Ok (group, log)) ;;
      Ok (set_fieldGroup (Some group) f, log)
  end.

End Children.

(* --------------------------------------------------------------------- *)
(** *** [_toFieldConfig] and [toFieldConfig]                               *)

(** [schema.items = v] *)
Definition assign_items (v : json) (schema : json) : json :=
  match schema with
  | JObj ms => JObj (assign "items" v ms)
  | _ => schema
  end.

(** The [switch (field.type)].  Returns the schema too: the array case
    stores the resolved [items] in it.  This model works on document values
    and does not record that the stored [items] is also seen through every
    other reference to the same schema object; [Shared] below does. *)
Definition switch_type
    (compile : option bool -> option json -> list string -> list string ->
               result (field * list string))
    (fuel : nat) (e : env) (autoClear_option : option bool)
    (schema : json) (propKey : list string) (f : field) (log : list string)
  : result (json * field * list string) :=
  let t := type f in
  if is_str "null" t then Ok (schema, addValidator "null" NullValidator f, log)
  else if is_str "boolean" t then
    f <- label_from_key propKey f ;;
    f <- set_to "description" (own "description" schema) f ;;
    Ok (schema, f, log)
  else if is_str "number" t || is_str "integer" t then
    f <- number_case schema propKey f ;; Ok (schema, f, log)
  else if is_str "string" t then
    f <- string_case schema propKey f ;; Ok (schema, f, log)
  else if is_str "object" t then
    '(f, log) <- object_case compile e autoClear_option schema propKey f log ;;
    Ok (schema, f, log)
  else if is_str "array" t then
    f <- array_case schema propKey f ;;
    let items := own "items" schema in
    schema <- (match items with
               | Some i =>
                   if truthy items && negb (is_array items)
                   then r <- resolveSchema fuel (root e) i ;; Ok (assign_items r schema)
                   else Ok schema
               | None => Ok schema
               end) ;;
    enum <- isEnum fuel schema ;;
    Ok (schema,
        (if enum then f
         else set_fieldArray (Some (ItemsGetter schema autoClear_option propKey)) f),
        log)
  else Ok (schema, f, log).

Fixpoint _toFieldConfig (fuel : nat) (e : env) (autoClear_option : option bool)
    (schema : option json) (propKey : list string) (log : list string)
    {struct fuel} : result (field * list string) :=
  match fuel with
  | O => Stuck OutOfFuel
  | S fuel' =>
      match schema with
      | None => Throw TypeError
      | Some schema =>
          schema <- resolveSchema fuel' (root e) schema ;;
          f <- base_field autoClear_option schema ;;
          '(schema, f, log) <-
             switch_type (_toFieldConfig fuel' e) fuel' e autoClear_option
                         schema propKey f log ;;
          after_switch fuel' e schema f log
      end
  end.

(** What a caller of [toFieldConfig] supplies besides the schema. *)
Record service : Type := mkService {
  options_map : option (field -> json -> field);
  service_testSpec : option field;
  function_parses : string -> bool
}.

Definition toFieldConfig (fuel : nat) (s : service) (schema : json)
  : result (field * list string) :=
  _toFieldConfig fuel
    (mkEnv schema (options_map s) (service_testSpec s) (function_parses s))
    None (Some schema) [] [].

(* --------------------------------------------------------------------- *)
(** *** Running a validator on a control value                             *)

Fixpoint json_eqb (a b : json) {struct a} : bool :=
  match a, b with
  | JNull, JNull => true
  | JBool x, JBool y => Bool.eqb x y
  | JNum x, JNum y => Z.eqb x y
  | JStr x, JStr y => String.eqb x y
  | JArr l, JArr l' =>
      (fix all2 (l l' : list json) : bool :=
         match l, l' with
         | [], [] => true
         | x :: l, y :: l' => json_eqb x y && all2 l l'
         | _, _ => false
         end) l l'
  | JObj l, JObj l' =>
      (fix all2 (l l' : list (string * json)) : bool :=
         match l, l' with
         | [], [] => true
         | (k, x) :: l, (k', y) :: l' => String.eqb k k' && json_eqb x y && all2 l l'
         | _, _ => false
         end) l l'
  | _, _ => false
  end.







(* ===================================================================== *)
(** ** UnionResolver at run time: the branch predicate                    *)
(* ===================================================================== *)

(** A descriptor as the renderer holds it while the form is live: its [key],
    its [fieldGroup], and for a keyed field whether its control is valid
    ([formControl.valid]). *)
Inductive live : Type :=
  Live (key : option string) (fieldGroup : option (list live)) (valid : option bool).

Definition live_key (f : live) : option string := let 'Live k _ _ := f in k.
Definition live_group (f : live) : option (list live) := let 'Live _ g _ := f in g.
Definition live_valid (f : live) : option bool := let 'Live _ _ v := f in v.

(** [field.key] as a condition. *)
Definition has_key (f : live) : bool :=
  match live_key f with
  | Some (String _ _) => true
  | _ => false
  end.

(** [getKeyPath(field)].  Without a key it returns [[]].  With a key it
    fills the [_keyPath] cache and reaches the end of the function without a
    [return]: the caller receives [undefined] ([None]). *)
Definition getKeyPath (f : live) : option (list string) :=
  if has_key f then None else Some [].

(** [[...a, ...b]] of two path values. *)
Definition spread_paths (a b : option (list string)) : result (option (list string)) :=
  match a, b with
  | Some x, Some y => Ok (Some (x ++ y)%list)
  | _, _ => Throw TypeError
  end.

(** [while (field.parent) { field = field.parent;
                            paths = [...getKeyPath(field), ...paths]; }]
    over the ancestors of the field, nearest first. *)
Fixpoint climb (ancestors : list live) (paths : option (list string))
  : result (option (list string)) :=
  match ancestors with
  | [] => Ok paths
  | parent :: rest =>
      paths <- spread_paths (getKeyPath parent) paths ;;
      climb rest paths
  end.

(** [for (const path of paths) { if (!value) return undefined;
                                 value = value[path]; } return value;] *)
Fixpoint walk (value : option json) (paths : list string) : option json :=
  match paths with
  | [] => value
  | path :: rest =>
      match value with
      | Some v => if truthy value then walk (own path v) rest else None
      | None => None
      end
  end.

(** [getFieldInitialValue(field)]; [model] is [field.options._initialModel]. *)
Definition getFieldInitialValue (model : option json) (ancestors : list live)
    (f : live) : result (option json) :=
  paths <- climb ancestors (getKeyPath f) ;;
  match paths with
  | Some ps => Ok (walk model ps)
  | None => Throw TypeError     (* [for .. of undefined] *)
  end.

(** [totalMatchedFields(field)]. *)
Fixpoint totalMatchedFields (model : option json) (ancestors : list live)
    (f : live) {struct f} : result nat :=
  match f with
  | Live k g v =>
      match g with
      | None =>
          if has_key f then
            value <- getFieldInitialValue model ancestors f ;;
            Ok (match value with Some _ => 1 | None => 0 end)%nat
          else Throw TypeError   (* [undefined.reduce] *)
      | Some children =>
          (fix reduce (l : list live) (s : nat) : result nat :=
             match l with
             | [] => Ok s
             | c :: l' =>
                 n <- totalMatchedFields model (f :: ancestors) c ;;
                 reduce l' (n + s)%nat
             end) children O
      end
  end.

(** [isFieldValid(field)]. *)
Fixpoint isFieldValid (f : live) : result bool :=
  match f with
  | Live k g v =>
      if has_key f then
        match v with
        | Some b => Ok b
        | None => Throw TypeError   (* no [formControl] *)
        end
      else
        match g with
        | None => Throw TypeError   (* [undefined.every] *)
        | Some children =>
            (fix all (l : list live) : result bool :=
               match l with
               | [] => Ok true
               | c :: l' => b <- isFieldValid c ;; if b then all l' else Ok false
               end) children
        end
  end.

(** [filter(([f]) => isFieldValid(f))] on the indexed branches. *)
Fixpoint filter_valid (l : list (live * nat)) : result (list (live * nat)) :=
  match l with
  | [] => Ok []
  | (f, i) :: l' =>
      b <- isFieldValid f ;;
      rest <- filter_valid l' ;;
      Ok (if b then (f, i) :: rest else rest)
  end.

(** Stable insertion by descending count: the comparator returns [0] on
    equal counts and a positive number when the second count is larger. *)
Fixpoint insert_desc (x : nat * nat) (l : list (nat * nat)) : list (nat * nat) :=
  match l with
  | [] => [x]
  | y :: l' => if (fst y <? fst x)%nat then x :: y :: l' else y :: insert_desc x l'
  end.

Fixpoint sort_desc (l : list (nat * nat)) : list (nat * nat) :=
  match l with
  | [] => []
  | x :: l' => insert_desc x (sort_desc l')
  end.

(** [.sort(([f1], [f2]) => ...)] followed by [.map(([, i]) => i)].  With
    fewer than two elements the comparator is not called; otherwise it is
    called on every element, so an exception from [totalMatchedFields]
    leaves the sort. *)
Definition rank (model : option json) (ancestors : list live)
    (l : list (live * nat)) : result (list nat) :=
  match l with
  | [] | [_] => Ok (map snd l)
  | _ =>
      counted <- mapM (fun fi => n <- totalMatchedFields model ancestors (fst fi) ;;
                                 Ok (n, snd fi)) l ;;
      Ok (map snd (sort_desc counted))
  end.

(** The state that the predicate of a union reads and writes:
    [selectField.formControl] (if set, its [value]), the live branches
    [f.parent.fieldGroup], the ancestors of a branch (nearest first) and the
    initial model. *)
Record union_state : Type := mkUnion {
  selector : option json;
  branches : list live;
  branch_ancestors : list live;
  initialModel : option json
}.

(** [Array.isArray(control.value) ? control.value.indexOf(i) === -1
                                  : control.value !== i] *)
Definition hidden_by (value : json) (i : nat) : bool :=
  match value with
  | JArr l => negb (existsb (fun x => json_eqb x (JNum (Z.of_nat i))) l)
  | JNum n => negb (n =? Z.of_nat i)
  | _ => true
  end.

(** The value computed for a selector without a control. *)
Definition initial_selection (m : mode) (st : union_state) : result json :=
  valid <- filter_valid (map (fun i_f => (snd i_f, fst i_f))
                             (with_index O (branches st))) ;;
  value <- rank (initialModel st) (branch_ancestors st) valid ;;
  let first := match value with
               | [] => O
               | i :: _ => i
               end in
  Ok (match m with
      | AnyOf => JArr [JNum (Z.of_nat first)]
      | OneOf => JNum (Z.of_nat first)
      end).

(** The [hideExpression] of branch [i]: whether the branch is hidden, and
    the state afterwards. *)
Definition hideExpression_of_branch (m : mode) (i : nat) (st : union_state)
  : result (bool * union_state) :=
  st <- (match selector st with
         | Some _ => Ok st
         | None =>
             v <- initial_selection m st ;;
             Ok (mkUnion (Some v) (branches st) (branch_ancestors st) (initialModel st))
         end) ;;
  match selector st with
  | Some value => Ok (hidden_by value i, st)
  | None => Throw TypeError
  end.

(* ===================================================================== *)
(** ** Shared objects                                                     *)
(* ===================================================================== *)

(** Objects and arrays that several references can reach live in a heap; a
    value is a primitive or the address of a cell.  Allocation appends, so
    an address is an index and a cell, once allocated, stays at its index. *)
Definition addr := nat.

Inductive value : Type :=
| Undefined
| Null
| Bool (b : bool)
| Num (n : Z)
| Str (s : string)
| Ref (a : addr).

Inductive cell : Type :=
| Obj (members : list (string * value))
| Arr (items : list value).

Definition heap := list cell.

Definition alloc (c : cell) (h : heap) : addr * heap := (List.length h, (h ++ [c])%list).

Fixpoint set_nth {A} (n : nat) (x : A) (l : list A) : list A :=
  match l, n with
  | [], _ => []
  | _ :: l', O => x :: l'
  | y :: l', S n' => y :: set_nth n' x l'
  end.

(** The own enumerable members of a cell, an array under its indices. *)
Definition cell_members (c : cell) : list (string * value) :=
  match c with
  | Obj ms => ms
  | Arr vs => indexed O vs
  end.

(** [o[k] = v] on the object at [a]. *)
Definition write_member (a : addr) (k : string) (v : value) (h : heap) : heap :=
  match nth_error h a with
  | Some (Obj ms) => set_nth a (Obj (assign k v ms)) h
  | _ => h
  end.

(** A document value read into the heap: every object and array gets a cell
    of its own, as [JSON.parse] makes them. *)
Fixpoint load (j : json) (h : heap) {struct j} : value * heap :=
  match j with
  | JNull => (Null, h)
  | JBool b => (Bool b, h)
  | JNum n => (Num n, h)
  | JStr s => (Str s, h)
  | JArr l =>
      let '(vs, h) :=
        (fix go (l : list json) (h : heap) : list value * heap :=
           match l with
           | [] => ([], h)
           | x :: l' => let '(v, h) := load x h in
                        let '(vs, h) := go l' h in (v :: vs, h)
           end) l h in
      let '(a, h) := alloc (Arr vs) h in (Ref a, h)
  | JObj l =>
      let '(ms, h) :=
        (fix go (l : list (string * json)) (h : heap) : list (string * value) * heap :=
           match l with
           | [] => ([], h)
           | (k, x) :: l' => let '(v, h) := load x h in
                             let '(ms, h) := go l' h in ((k, v) :: ms, h)
           end) l h in
      let '(a, h) := alloc (Obj ms) h in (Ref a, h)
  end.

(** The document that a value stands for, followed through the heap to the
    given depth; [None] for [undefined], for a dangling address and when the
    depth does not suffice. *)
Fixpoint reify (depth : nat) (h : heap) (v : value) : option json :=
  match v with
  | Undefined => None
  | Null => Some JNull
  | Bool b => Some (JBool b)
  | Num n => Some (JNum n)
  | Str s => Some (JStr s)
  | Ref a =>
      match depth with
      | O => None
      | S d =>
          match nth_error h a with
          | None => None
          | Some (Arr vs) =>
              option_map JArr
                (fold_right (fun v acc =>
                               match reify d h v, acc with
                               | Some j, Some js => Some (j :: js)
                               | _, _ => None
                               end) (Some []) vs)
          | Some (Obj ms) =>
              option_map JObj
                (fold_right (fun kv acc =>
                               match reify d h (snd kv), acc with
                               | Some j, Some js => Some ((fst kv, j) :: js)
                               | _, _ => None
                               end) (Some []) ms)
          end
      end
  end.


(** [cloneDeep] of lodash (and [clone] of [@ngx-formly/core]) on plain
    objects, arrays and primitives: every cell that the value leads to is
    copied into a new cell.  The values copied here are documents, without
    cycles; lodash's stack of visited objects, which keeps cycles and
    sharing inside the copy, is left out, and a cycle uses the depth up. *)
Fixpoint clone_each (clone : heap -> value -> option (value * heap))
    (vs : list value) (h : heap) : option (list value * heap) :=
  match vs with
  | [] => Some ([], h)
  | v :: vs' =>
      match clone h v with
      | Some (v', h) =>
          match clone_each clone vs' h with
          | Some (vs'', h) => Some (v' :: vs'', h)
          | None => None
          end
      | None => None
      end
  end.

Fixpoint cloneDeep (depth : nat) (h : heap) (v : value) : option (value * heap) :=
  match v with
  | Ref a =>
      match depth with
      | O => None
      | S d =>
          match nth_error h a with
          | Some (Obj ms) =>
              match clone_each (cloneDeep d) (map snd ms) h with
              | Some (vs, h) =>
                  let '(a', h) := alloc (Obj (combine (map fst ms) vs)) h in
                  Some (Ref a', h)
              | None => None
              end
          | Some (Arr vs) =>
              match clone_each (cloneDeep d) vs h with
              | Some (vs, h) => let '(a', h) := alloc (Arr vs) h in Some (Ref a', h)
              | None => None
              end
          | None => None
          end
      end
  | _ => Some (v, h)
  end.

(* ===================================================================== *)
(** ** The config store                                                   *)
(* ===================================================================== *)

Module Store.

(** The errors that the service raises with [throw Error(..)], and the
    runtime's [TypeError]. *)
Inductive error : Type :=
| NoConfigWithSuchName      (* Error("no config with such name") *)
| TypeError.

Inductive outcome (A : Type) : Type :=
| Returns (a : A)
| Raises (e : error)
| Unfinished.                (* the depth given to [cloneDeep] is used up *)
Arguments Returns {A} a.
Arguments Raises {A} e.
Arguments Unfinished {A}.

(** The members of [ConfigStoreState] that selecting a config reads or
    writes; [others] holds the rest ([deployment], [sortedConfigs], the
    filters, ...). *)
Record ConfigStoreState : Type := mkState {
  configs : value;
  editedConfig : value;
  editedTestCase : value;
  others : list (string * value)
}.

(** What the service holds besides the store: [this.user] and the names
    under which the config data keeps name and version
    ([this.metaDataMap.name], [this.metaDataMap.version]). *)
Record service : Type := mkService {
  user : string;
  metaData_name : string;
  metaData_version : string
}.

(** [v.name === configName] for an entry [v] of [configs]. *)
Definition named (h : heap) (configName : string) (v : value) : outcome bool :=
  match v with
  | Undefined | Null => Raises TypeError
  | Ref a =>
      match nth_error h a with
      | Some (Obj ms) =>
          Returns (match assoc "name" ms with
                   | Some (Str n) => String.eqb n configName
                   | _ => false
                   end)
      | _ => Returns false
      end
  | _ => Returns false
  end.

(** [configs.find(x => x.name === configName)]; [None] is [undefined]. *)
Fixpoint find (h : heap) (configName : string) (entries : list value)
  : outcome (option value) :=
  match entries with
  | [] => Returns None
  | x :: rest =>
      match named h configName x with
      | Returns true => Returns (Some x)
      | Returns false => find h configName rest
      | Raises e => Raises e
      | Unfinished => Unfinished
      end
  end.

Definition entries_of (h : heap) (st : ConfigStoreState) : option (list value) :=
  match configs st with
  | Ref a => match nth_error h a with
             | Some (Arr vs) => Some vs
             | _ => None
             end
  | _ => None
  end.

Definition getConfigByName (depth : nat) (configName : string)
    (st : ConfigStoreState) (h : heap) : outcome (value * heap) :=
  match entries_of h st with
  | None => Raises TypeError
  | Some entries =>
      match find h configName entries with
      | Returns (Some config) =>
          match cloneDeep depth h config with
          | Some r => Returns r
          | None => Unfinished
          end
      | Returns None => Raises NoConfigWithSuchName
      | Raises e => Raises e
      | Unfinished => Unfinished
      end
  end.

(** Modelled from the spec: [ConfigStoreStateBuilder], whose source is not
    part of the sources here.  [new ConfigStoreStateBuilder(state)
    .editedConfig(config).editedTestCase(null).build()] is taken to give the
    state with these two members set and every other member, [configs]
    included, as it is in [state]: the specification's design notes describe
    the builder as a chain of setters over the current state. *)
Definition updateEditedConfig (config : value) (st : ConfigStoreState)
  : ConfigStoreState :=
  mkState (configs st) config Null (others st).


(** The own enumerable members that [Object.assign] copies from a source. *)
Definition assignable (h : heap) (v : value) : list (string * value) :=
  match v with
  | Ref a => match nth_error h a with
             | Some c => cell_members c
             | None => []
             end
  | Str s => indexed O (map (fun c => Str (String c EmptyString)) (list_ascii_of_string s))
  | _ => []
  end.

(** [x.k] on a freshly cloned wrapper. *)
Definition get (h : heap) (k : string) (v : value) : value :=
  match v with
  | Ref a => match nth_error h a with
             | Some (Obj ms) => match assoc k ms with
                                | Some x => x
                                | None => Undefined
                                end
             | _ => Undefined
             end
  | _ => Undefined
  end.

Definition setEditedClonedConfigByName (svc : service) (depth : nat)
    (configName : string) (st : ConfigStoreState) (h : heap)
  : outcome (ConfigStoreState * heap) :=
  match getConfigByName depth configName st h with
  | Returns (configToClone, h) =>
      match get h "name" configToClone with
      | Str name =>
          let clone_name := (name ++ "_clone")%string in
          match cloneDeep depth h (get h "configData" configToClone) with
          | Some (data, h) =>
              let '(configData, h) :=
                alloc (Obj (assign (metaData_version svc) (Num 0)
                              (assign (metaData_name svc) (Str clone_name)
                                 (assignable h data)))) h in
              let '(testCases, h) := alloc (Arr []) h in
              let '(cloned, h) :=
                alloc (Obj [("isNew", Bool true);
                            ("configData", Ref configData);
                            ("savedInBackend", Bool false);
                            ("name", Str clone_name);
                            ("author", Str (user svc));
                            ("version", Num 0);
                            ("description", Str ("cloned from " ++ name)%string);
                            ("testCases", Ref testCases)]) h in
              Returns (updateEditedConfig (Ref cloned) st, h)
          | None => Unfinished
          end
      | _ => Raises TypeError
      end
  | Raises e => Raises e
  | Unfinished => Unfinished
  end.



End Store.

(* ===================================================================== *)
(** ** The compiler on shared schema objects                              *)
(* ===================================================================== *)

(** [toFieldConfig] receives a schema object and works on it in place: it
    reads members through references, resolves [$ref] against the same
    root object, and assigns to objects it was given ([schema.items = ...],
    the merge of [allOf]).  [Shared] is the compiler over the heap, where
    these assignments are seen through every reference to the object.  The
    parts of a descriptor that look at one node only are the functions
    above, applied to the node as it reads at that moment. *)
Module Shared.

(** A computation on the heap and the console log. *)
Definition M (A : Type) : Type :=
  heap * list string -> result (A * (heap * list string)).

Definition ret {A} (a : A) : M A := fun w => Ok (a, w).

Definition bindM {A B} (m : M A) (k : A -> M B) : M B :=
  fun w => match m w with
           | Ok (a, w') => k a w'
           | Throw e => Throw e
           | Stuck l => Stuck l
           end.

Notation "x <~ m ;; k" := (bindM m (fun x => k))
  (at level 61, m at next level, right associativity).
Notation "' p <~ m ;; k" := (bindM m (fun p => k))
  (at level 61, p pattern, m at next level, right associativity).

Definition lift {A} (r : result A) : M A :=
  fun w => match r with
           | Ok a => Ok (a, w)
           | Throw e => Throw e
           | Stuck l => Stuck l
           end.

Definition reading {A} (f : heap -> A) : M A := fun w => Ok (f (fst w), w).

Definition writing (f : heap -> heap) : M unit := fun w => Ok (tt, (f (fst w), snd w)).

Definition new (c : cell) : M value :=
  fun w => let '(a, h) := alloc c (fst w) in Ok (Ref a, (h, snd w)).

Fixpoint forEachM {A} (f : A -> M unit) (l : list A) : M unit :=
  match l with
  | [] => ret tt
  | a :: l' => _ <~ f a ;; forEachM f l'
  end.

(* --------------------------------------------------------------------- *)
(** *** Reading values                                                     *)

Definition string_items (s : string) : list value :=
  map (fun c => Str (String c EmptyString)) (list_ascii_of_string s).

(** The own enumerable members of a value. *)
Definition members_of (h : heap) (v : value) : list (string * value) :=
  match v with
  | Ref a => match nth_error h a with
             | Some c => cell_members c
             | None => []
             end
  | Str s => indexed O (string_items s)
  | _ => []
  end.

(** [v[k]] for an own member, [Undefined] without one. *)
Definition read_member (h : heap) (k : string) (v : value) : value :=
  let found := match assoc k (members_of h v) with
               | Some x => x
               | None => Undefined
               end in
  match v with
  | Ref a =>
      match nth_error h a with
      | Some (Arr vs) =>
          if String.eqb k "length" then Num (Z.of_nat (List.length vs)) else found
      | _ => found
      end
  | Str s => if String.eqb k "length" then Num (Z.of_nat (String.length s)) else found
  | _ => found
  end.

Definition is_truthy (v : value) : bool :=
  match v with
  | Undefined | Null | Bool false | Num 0 | Str EmptyString => false
  | _ => true
  end.

Definition is_empty (v : value) : bool :=
  match v with
  | Undefined | Null | Str EmptyString => true
  | _ => false
  end.

(** The elements of an array, [None] for anything else. *)
Definition array_items (h : heap) (v : value) : option (list value) :=
  match v with
  | Ref a => match nth_error h a with
             | Some (Arr vs) => Some vs
             | _ => None
             end
  | _ => None
  end.

Definition is_plain_object (h : heap) (v : value) : bool :=
  match v with
  | Ref a => match nth_error h a with
             | Some (Obj _) => true
             | _ => false
             end
  | _ => false
  end.

(** [o[k] = v]. *)
Definition write (o : value) (k : string) (v : value) : M unit :=
  match o with
  | Ref a => writing (write_member a k v)
  | Undefined | Null => fun _ => Throw TypeError
  | _ => ret tt
  end.

(** The value as a document, for the functions that only read it. *)
Definition view (depth : nat) (v : value) : M json :=
  fun w => match reify depth (fst w) v with
           | Some j => Ok (j, w)
           | None => Stuck OutOfFuel
           end.

(** [clone(v)] of [@ngx-formly/core]. *)
Definition clone (depth : nat) (v : value) : M value :=
  fun w => match cloneDeep depth (fst w) v with
           | Some (v', h) => Ok (v', (h, snd w))
           | None => Stuck OutOfFuel
           end.

(* --------------------------------------------------------------------- *)
(** *** [resolveDefinition], [resolveAllOf], [resolveSchema]               *)

Definition pointer_step (h : heap) (def : value) (path : string) : value :=
  if is_truthy def then
    match read_member h path def with
    | Undefined => Null
    | v => v
    end
  else Null.

Definition lookup_pointer (h : heap) (root : value) (pointer : option string) : value :=
  match pointer with
  | None | Some EmptyString => Null
  | Some p => fold_left (pointer_step h) (split "/" p) root
  end.

(** The members of [{...definition, ...annotations}]. *)
Definition override_annotations (h : heap) (schema definition : value)
  : list (string * value) :=
  fold_left (fun acc p =>
               match read_member h p schema with
               | Undefined => acc
               | v => assign p v acc
               end)
            annotation_keys (members_of h definition).

Fixpoint resolveDefinition (fuel : nat) (root schema : value) : M value :=
  match fuel with
  | O => fun _ => Stuck OutOfFuel
  | S fuel' =>
      ref <~ reading (fun h => read_member h "$ref" schema) ;;
      match ref with
      | Str r =>
          match ref_uri r with
          | Some (String _ _) => fun _ => Throw UnsupportedReferenceError
          | _ =>
              definition <~ reading (fun h => lookup_pointer h root (ref_pointer r)) ;;
              if is_truthy definition then
                inner <~ reading (fun h => read_member h "$ref" definition) ;;
                if is_truthy inner then resolveDefinition fuel' root definition
                else
                  ms <~ reading (fun h => override_annotations h schema definition) ;;
                  new (Obj ms)
              else fun _ => Throw UnresolvedReferenceError
          end
      | _ => fun _ => Throw TypeError
      end
  end.

(** [[...v]]. *)
Definition spread_items (h : heap) (v : value) : result (list value) :=
  match v with
  | Str s => Ok (string_items s)
  | _ => match array_items h v with
         | Some vs => Ok vs
         | None => Throw TypeError
         end
  end.

Definition js_lt (a b : value) : result bool :=
  match a, b with
  | Num x, Num y => Ok (x <? y)
  | _, _ => Stuck Coercion
  end.

Definition tighten (keep_base : value -> value -> result bool)
    (base schema : value) (p : string) : M unit :=
  b <~ reading (fun h => read_member h p base) ;;
  s <~ reading (fun h => read_member h p schema) ;;
  if negb (is_empty b) && negb (is_empty s)
  then keep <~ lift (keep_base b s) ;;
       write base p (if keep then b else s)
  else ret tt.

(** [reverseDeepMerge(dest, src)] of [@ngx-formly/core]: see
    [merge_member] above; here the nested merge assigns to the object that
    [dest[k]] refers to. *)
Fixpoint reverseDeepMerge (fuel : nat) (dest src : value) : M unit :=
  match fuel with
  | O => fun _ => Stuck OutOfFuel
  | S fuel' =>
      ms <~ reading (fun h => members_of h src) ;;
      forEachM (fun kv : string * value =>
                  let '(k, v) := kv in
                  d <~ reading (fun h => read_member h k dest) ;;
                  if is_empty d then
                    c <~ clone fuel' v ;; write dest k c
                  else
                    both <~ reading (fun h => is_plain_object h d && is_plain_object h v) ;;
                    if both then reverseDeepMerge fuel' d v else ret tt)
               ms
  end.

Definition allOf_step (fuel : nat) (resolve : value -> M value)
    (base member : value) : M unit :=
  schema <~ resolve member ;;
  br <~ reading (fun h => read_member h "required" base) ;;
  sr <~ reading (fun h => read_member h "required" schema) ;;
  _ <~ (if is_truthy br && is_truthy sr then
          b <~ (fun w => lift (spread_items (fst w) br) w) ;;
          s <~ (fun w => lift (spread_items (fst w) sr) w) ;;
          joined <~ new (Arr (b ++ s)%list) ;;
          write base "required" joined
        else ret tt) ;;
  u <~ reading (fun h => read_member h "uniqueItems" schema) ;;
  _ <~ (if is_truthy u then write base "uniqueItems" u else ret tt) ;;
  _ <~ forEachM (tighten js_lt base schema) max_family ;;
  _ <~ forEachM (tighten (fun b s => js_lt s b) base schema) min_family ;;
  reverseDeepMerge fuel base schema.

Definition resolveAllOf (fuel : nat) (resolve : value -> M value) (schema : value)
  : M value :=
  allOf <~ reading (fun h => read_member h "allOf" schema) ;;
  len <~ reading (fun h => read_member h "length" allOf) ;;
  if is_truthy len then
    items <~ reading (fun h => array_items h allOf) ;;
    match items with
    | Some members =>
        rest <~ reading (fun h => remove_key "allOf" (members_of h schema)) ;;
        base <~ new (Obj rest) ;;
        _ <~ forEachM (allOf_step fuel resolve base) members ;;
        ret base
    | None => fun _ => Throw TypeError
    end
  else fun _ => Throw EmptyCompositionError.

Fixpoint resolveSchema (fuel : nat) (root schema : value) : M value :=
  match fuel with
  | O => fun _ => Stuck OutOfFuel
  | S fuel' =>
      match schema with
      | Undefined | Null => fun _ => Throw TypeError
      | _ =>
          ref <~ reading (fun h => read_member h "$ref" schema) ;;
          schema <~ (if is_truthy ref then resolveDefinition fuel' root schema
                     else ret schema) ;;
          allOf <~ reading (fun h => read_member h "allOf" schema) ;;
          if is_truthy allOf
          then resolveAllOf fuel' (resolveSchema fuel' root) schema
          else ret schema
      end
  end.

(* --------------------------------------------------------------------- *)
(** *** [_toFieldConfig]                                                   *)

(** A descriptor together with the schema object that its [fieldArray]
    getter closes over, when it has one (the descriptor itself shows that
    schema as it read when the getter was made). *)
Definition compiled : Type := field * option value.

(** A step that reads and extends the console log only. *)
Definition logging {A} (f : list string -> result (A * list string)) : M A :=
  fun w => match f (snd w) with
           | Ok (a, log) => Ok (a, (fst w, log))
           | Throw e => Throw e
           | Stuck l => Stuck l
           end.

Fixpoint foldM {A S} (f : S -> A -> M S) (l : list A) (s : S) : M S :=
  match l with
  | [] => ret s
  | a :: l' => s' <~ f s a ;; foldM f l' s'
  end.

Section Children.

Variable depth : nat.
Variable compile : option bool -> value -> list string -> M compiled.
Variable e : env.

Definition fieldArray_get (this : field) (schema : value)
    (autoClear_option : option bool) (newPropKey2 : list string)
  : M (field * list string) :=
  items <~ reading (fun h => read_member h "items" schema) ;;
  elements <~ reading (fun h => array_items h items) ;;
  match elements with
  | None =>
      let newPropKey2 := if is_str "-" (last_segment newPropKey2) then newPropKey2
                         else (newPropKey2 ++ ["-"])%list in
      c <~ compile autoClear_option items newPropKey2 ;;
      ret (fst c, newPropKey2)
  | Some vs =>
      let length := match fieldGroup this with
                    | Some g => List.length g
                    | None => O
                    end in
      let at_length := nth length vs Undefined in
      additional <~ reading (fun h => read_member h "additionalItems" schema) ;;
      let itemSchema := if is_truthy at_length then at_length else additional in
      if is_truthy itemSchema then
        c <~ compile autoClear_option itemSchema newPropKey2 ;;
        ret (fst c, newPropKey2)
      else ret (empty_field, newPropKey2)
  end.

Definition spread_hidden (c : compiled) (hd : hide) : M field :=
  f <~ (match fieldArray (fst c), snd c with
        | Some (ItemsGetter _ a k), Some schema =>
            r <~ fieldArray_get (fst c) schema a k ;;
            ret (set_fieldArray (Some (ItemsValue (fst r))) (fst c))
        | _, _ => ret (fst c)
        end) ;;
  ret (set_hideExpression (Some hd) f).

Definition dependency_fields (autoClear_option : option bool) (key : string)
    (dependency : value) (newPropKey : list string) : M (list field) :=
  seen <~ view depth dependency ;;
  let oneOfSchema := own "oneOf" seen in
  shortcut <~ lift (if truthy oneOfSchema then
                      match oneOfSchema with
                      | Some (JArr l) => every (discriminated_by key) l
                      | _ => Throw TypeError
                      end
                    else Ok false) ;;
  if shortcut then
    items <~ reading (fun h => array_items h (read_member h "oneOf" dependency)) ;;
    foldM (fun fields item =>
             properties <~ reading (fun h => read_member h "properties" item) ;;
             constSchema <~ reading (fun h => read_member h key properties) ;;
             constSeen <~ view depth constSchema ;;
             others <~ reading (fun h => remove_key key (members_of h properties)) ;;
             rest <~ new (Obj others) ;;
             ms <~ reading (fun h => assign "properties" rest (members_of h item)) ;;
             copy <~ new (Obj ms) ;;
             c <~ compile (Some true) copy newPropKey ;;
             f <~ spread_hidden c (HideUnlessConst key constSeen) ;;
             ret (fields ++ [f])%list)
          (match items with Some l => l | None => [] end) []
  else
    c <~ compile autoClear_option dependency newPropKey ;;
    f <~ spread_hidden c (HideWhileEmpty key) ;;
    ret [f].

Definition property_fields (autoClear_option : option bool)
    (seen : json) (schema : value) (propKey : list string)
    (propDeps : list (string * list string)) (schemaDeps : list (string * json))
    (group : list field) (entry : string * value) : M (list field) :=
  let '(key, sub) := entry in
  let newPropKey := (propKey ++ [key])%list in
  c <~ compile autoClear_option sub newPropKey ;;
  let f := set_key (Some key) (fst c) in
  f <~ lift (match own "required" seen with
             | Some (JArr l) =>
                 if index_of_key key l then set_to "required" (Some (JBool true)) f
                 else Ok f
             | _ => Ok f
             end) ;;
  let f := match templateOptions f, assoc key propDeps with
           | Some to, Some triggers =>
               if truthy (assoc "required" to) then f
               else set_expressionProperties (Some (RequiredWhenAny triggers)) f
           | _, _ => f
           end in
  let group := (group ++ [f])%list in
  match assoc key schemaDeps with
  | Some dependencySeen =>
      if truthy (Some dependencySeen) then
        dependency <~ reading (fun h => read_member h key
                                          (read_member h "dependencies" schema)) ;;
        fs <~ dependency_fields autoClear_option key dependency newPropKey ;;
        ret (group ++ fs)%list
      else ret group
  | None => ret group
  end.

Definition resolveMultiSchema (m : mode) (schemas : value) (propKey : list string)
  : M field :=
  items <~ reading (fun h => array_items h schemas) ;;
  match items with
  | Some l =>
      seen <~ view depth schemas ;;
      options <~ lift (match seen with
                       | JArr js =>
                           mapM (fun si : nat * json =>
                                   title <- prop "title" (snd si) ;;
                                   Ok (JObj (optional "label" title
                                             ++ [("value", JNum (Z.of_nat (fst si)))])%list))
                                (with_index O js)
                       | _ => Throw TypeError
                       end) ;;
      let selector :=
        set_templateOptions
          (Some [("multiple", JBool (match m with AnyOf => true | OneOf => false end));
                 ("options", JArr options)])
          (set_type (Some (JStr "enum")) empty_field) in
      branches <~ foldM (fun fields (si : nat * value) =>
                           c <~ compile (Some true) (snd si) propKey ;;
                           f <~ spread_hidden c (HideUnlessSelected m (fst si)) ;;
                           ret (fields ++ [f])%list)
                        (with_index O l) [] ;;
      ret (set_fieldGroup
             (Some [selector; set_fieldGroup (Some branches) empty_field])
             (set_type (Some (JStr "union")) empty_field))
  | None => fun _ => Throw TypeError
  end.

Definition object_case (autoClear_option : option bool) (seen : json)
    (schema : value) (propKey : list string) (f : field) : M field :=
  let f := set_fieldGroup (Some []) f in
  '(propDeps, schemaDeps) <~ lift (resolveDependencies seen) ;;
  match own "properties" seen, own "oneOf" seen with
  | None, None =>
      match testSpec e with
      | Some t => ret t
      | None => ret (set_type (Some (JStr "rawobject")) f)
      end
  | _, _ =>
      entries <~ reading (fun h => let properties := read_member h "properties" schema in
                                   if is_truthy properties then members_of h properties
                                   else []) ;;
      group <~ foldM (property_fields autoClear_option seen schema propKey
                                      propDeps schemaDeps)
                     entries [] ;;
      group <~ (if truthy (own "oneOf" seen) then
                  oneOf <~ reading (fun h => read_member h "oneOf" schema) ;;
                  u <~ resolveMultiSchema OneOf oneOf propKey ;;
                  ret (group ++ [u])%list
                else ret group) ;;
      group <~ (if truthy (own "anyOf" seen) then
                  anyOf <~ reading (fun h => read_member h "anyOf" schema) ;;
                  u <~ resolveMultiSchema AnyOf anyOf propKey ;;
                  ret (group ++ [u])%list
                else ret group) ;;
      ret (set_fieldGroup (Some group) f)
  end.

End Children.

(** The [switch (field.type)]; [seen] is the resolved schema as it reads.
    In the array case the resolved [items] is assigned to the schema object
    itself. *)
Definition switch_type (depth : nat)
    (compile : option bool -> value -> list string -> M compiled)
    (e : env) (root : value) (autoClear_option : option bool)
    (seen : json) (schema : value) (propKey : list string) (f : field)
  : M (json * compiled) :=
  let t := type f in
  if is_str "null" t then ret (seen, (addValidator "null" NullValidator f, None))
  else if is_str "boolean" t then
    f <~ lift (f <- label_from_key propKey f ;;
               set_to "description" (own "description" seen) f) ;;
    ret (seen, (f, None))
  else if is_str "number" t || is_str "integer" t then
    f <~ lift (number_case seen propKey f) ;; ret (seen, (f, None))
  else if is_str "string" t then
    f <~ lift (string_case seen propKey f) ;; ret (seen, (f, None))
  else if is_str "object" t then
    f <~ object_case depth compile e autoClear_option seen schema propKey f ;;
    ret (seen, (f, None))
  else if is_str "array" t then
    f <~ lift (array_case seen propKey f) ;;
    items <~ reading (fun h => read_member h "items" schema) ;;
    elements <~ reading (fun h => array_items h items) ;;
    _ <~ (match elements with
          | None =>
              if is_truthy items then
                r <~ resolveSchema depth root items ;;
                write schema "items" r
              else ret tt
          | Some _ => ret tt
          end) ;;
    seen <~ view depth schema ;;
    enum <~ lift (isEnum depth seen) ;;
    ret (seen,
         if enum then (f, None)
         else (set_fieldArray (Some (ItemsGetter seen autoClear_option propKey)) f,
               Some schema))
  else ret (seen, (f, None)).

Fixpoint _toFieldConfig (fuel : nat) (e : env) (root : value)
    (autoClear_option : option bool) (schema : value) (propKey : list string)
    {struct fuel} : M compiled :=
  match fuel with
  | O => fun _ => Stuck OutOfFuel
  | S fuel' =>
      schema <~ resolveSchema fuel' root schema ;;
      seen <~ view fuel' schema ;;
      f <~ lift (base_field autoClear_option seen) ;;
      '(seen, (f, getter)) <~
         switch_type fuel' (_toFieldConfig fuel' e root) e root autoClear_option
                     seen schema propKey f ;;
      f <~ logging (after_switch fuel' e seen f) ;;
      ret (f, getter)
  end.

(** [toFieldConfig(schema, options)] on the schema object [schema]; the
    service's [root] member is not read, [options.schema] being [schema]. *)
Definition toFieldConfig (fuel : nat) (s : service) (schema : value) : M field :=
  c <~ _toFieldConfig fuel
         (mkEnv JNull (options_map s) (service_testSpec s) (function_parses s))
         schema None schema [] ;;
  ret (fst c).

(** Two invocations in a row on the same schema object, starting from the
    heap that holds it and an empty log. *)
Definition compile_twice (fuel : nat) (s : service) (schema : value) (h : heap)
  : result (field * field) :=
  match toFieldConfig fuel s schema (h, []) with
  | Ok (first, w) =>
      match toFieldConfig fuel s schema w with
      | Ok (second, _) => Ok (first, second)
      | Throw e => Throw e
      | Stuck l => Stuck l
      end
  | Throw e => Throw e
  | Stuck l => Stuck l
  end.

End Shared.

(* ===================================================================== *)
(** ** Vocabulary of the statements                                       *)
(* ===================================================================== *)

(** Members that all hold numbers. *)
Definition numeric (l : list (string * json)) : Prop :=
  Forall (fun kv => exists n, snd kv = JNum n) l.

Definition tighten_num (keep : Z -> Z -> bool) (sm base : list (string * json))
    (p : string) : list (string * json) :=
  match assoc p base, assoc p sm with
  | Some (JNum b), Some (JNum s) => assign p (JNum (if keep b s then b else s)) base
  | _, _ => base
  end.

Definition mem (k : string) (l : list string) : bool := existsb (String.eqb k) l.


(** What a member holds as a number, if it does. *)
Definition effective (p : string) (s : json) : option Z :=
  match own p s with
  | Some (JNum n) => Some n
  | _ => None
  end.

(** The most restrictive of two optional bounds under [pick]. *)
Definition tightest (pick : Z -> Z -> Z) (a b : option Z) : option Z :=
  match a, b with
  | Some x, Some y => Some (pick x y)
  | Some x, None => Some x
  | None, _ => b
  end.

Definition bound_keys : list string := max_family ++ min_family.

(** A schema that carries numeric-bound keys only, each holding a number. *)
Definition bounds_only (s : json) : Prop :=
  exists ms, s = JObj ms /\ numeric ms /\ Forall (fun kv => In (fst kv) bound_keys) ms.

(** The member-wise outcome of one [allOf] step on numeric members. *)
Definition merged_bound (q : string) (a b : option json) : option json :=
  match a, b with
  | Some (JNum x), Some (JNum y) =>
      Some (JNum (if mem q max_family then Z.min x y
                  else if mem q min_family then Z.max x y else x))
  | Some x, _ => Some x
  | None, _ => b
  end.

Definition merge_all (ms d : list (string * json)) : list (string * json) :=
  fold_left (fun d kv => merge_member (fst kv) (snd kv) (reverseDeepMerge (snd kv)) d) ms d.


(** [target_of root s d]: the [$ref] of [s] is a same-document reference
    whose pointer finds the truthy value [d] in [root]. *)
Definition target_of (root s d : json) : Prop :=
  s <> JNull /\
  exists r, own "$ref" s = Some (JStr r) /\ r <> EmptyString /\
            ref_uri r = Some EmptyString /\
            lookup_pointer root (ref_pointer r) = Some d /\
            truthy (Some d) = true.

(** [links root s last target]: following [$ref] from [s] ends in [target],
    which carries no [$ref] of its own; [last] is the node of the chain whose
    [$ref] names [target] directly. *)
Inductive links (root : json) : json -> json -> json -> Prop :=
| links_direct s target :
    target_of root s target ->
    truthy (own "$ref" target) = false ->
    links root s s target
| links_through s d last target :
    target_of root s d ->
    truthy (own "$ref" d) = true ->
    links root d last target ->
    links root s last target.

(** An own enumerable member, as an object spread sees it. *)
Definition member (p : string) (v : json) : option json := assoc p (own_members v).

(** A document with a two-step chain [#/a -> #/b], used in examples. *)
Definition chain_root : json :=
  JObj [("a", JObj [("$ref", JStr "#/b"); ("title", JStr "A")]);
        ("b", JObj [("type", JStr "string"); ("title", JStr "B");
                    ("description", JStr "the target")])].
Definition chain_node : json := JObj [("$ref", JStr "#/a"); ("title", JStr "T")].
Definition chain_a : json := JObj [("$ref", JStr "#/b"); ("title", JStr "A")].
Definition chain_b : json :=
  JObj [("type", JStr "string"); ("title", JStr "B"); ("description", JStr "the target")].

(** A [$ref] with a non-empty part before the fragment. *)
Definition remote (r : string) : bool :=
  match ref_uri r with
  | Some (String _ _) => true
  | _ => false
  end.



Definition plain_service : service := mkService None None (fun _ => true).

(** The label a descriptor shows: [field.templateOptions.label]. *)
Definition label (f : field) : option json :=
  match templateOptions f with
  | Some to => assoc "label" to
  | None => None
  end.





Definition plain_env (root : json) : env := mkEnv root None None (fun _ => true).





(** The union of the specification's example: branches
    [{properties:{x,y,z}}] and [{properties:{x}}] under an unkeyed root, every
    control valid, live model [{x:1, y:2}], selector without a control. *)
Definition leaf (k : string) : live := Live (Some k) None (Some true).
Definition group (l : list live) : live := Live None (Some l) None.
Definition example_model : json := JObj [("x", JNum 1); ("y", JNum 2)].
Definition example_union : union_state :=
  mkUnion None
          [group [leaf "x"; leaf "y"; leaf "z"]; group [leaf "x"]]
          [group []; group []; group []]
          (Some example_model).

(** The same with the larger branch second and a model that fills it. *)
Definition swapped_union : union_state :=
  mkUnion None
          [group [leaf "x"]; group [leaf "x"; leaf "y"; leaf "z"]]
          [group []; group []; group []]
          (Some (JObj [("x", JNum 1); ("y", JNum 2); ("z", JNum 3)])).





(** [extends h h']: every cell of [h] is at its address in [h']. *)
Definition extends (h h' : heap) : Prop :=
  forall a c, nth_error h a = Some c -> nth_error h' a = Some c.

(** From address [n] on, cells lead only to addresses from [n] on. *)
Definition sealed (n : nat) (h : heap) : Prop :=
  forall a c k b, (n <= a)%nat -> nth_error h a = Some c ->
                  In (k, Ref b) (cell_members c) -> (n <= b)%nat.

Definition fresh (n : nat) (v : value) : Prop :=
  match v with
  | Ref a => (n <= a)%nat
  | _ => True
  end.



(** The documents of a list of values and of the members of an object, as
    [reify] reads them. *)
Definition reify_all (d : nat) (h : heap) (vs : list value) : option (list json) :=
  fold_right (fun v acc =>
                match reify d h v, acc with
                | Some j, Some js => Some (j :: js)
                | _, _ => None
                end) (Some []) vs.

Definition reify_members (d : nat) (h : heap) (ms : list (string * value))
  : option (list (string * json)) :=
  fold_right (fun kv acc =>
                match reify d h (snd kv), acc with
                | Some j, Some js => Some ((fst kv, j) :: js)
                | _, _ => None
                end) (Some []) ms.

(** What [cloneDeep] promises about one value, relative to the size [n] of
    the heap from which cells count as new. *)
Definition copies (n : nat) (h : heap) (v : value) (h' : heap) (v' : value) : Prop :=
  extends h h' /\ (sealed n h -> sealed n h') /\ fresh n v' /\
  (forall m j, reify m h v = Some j -> reify m h' v' = Some j).



(** A store with two saved configs, as the backend delivers them. *)
Definition stored_configs : json :=
  JArr [JObj [("name", JStr "alert_a"); ("version", JNum 3); ("isNew", JBool false);
              ("configData", JObj [("rule_name", JStr "alert_a");
                                   ("rule_version", JNum 3);
                                   ("tags", JArr [JStr "x"; JStr "y"])])];
        JObj [("name", JStr "alert_b"); ("version", JNum 1); ("isNew", JBool false);
              ("configData", JObj [("rule_name", JStr "alert_b");
                                   ("rule_version", JNum 1)])]].
Definition stored_heap : heap := snd (load stored_configs []).
Definition stored_state : Store.ConfigStoreState :=
  Store.mkState (fst (load stored_configs [])) Null Null [].
Definition editor_service : Store.service :=
  Store.mkService "analyst" "rule_name" "rule_version".

(** A document in which one property refers to the [items] of another. *)
Definition crossref_document : json :=
  JObj [("type", JStr "object");
        ("properties",
         JObj [("p", JObj [("$ref", JStr "#/properties/q/items");
                           ("title", JStr "from_p")]);
               ("q", JObj [("type", JStr "array");
                           ("items", JObj [("$ref", JStr "#/definitions/d");
                                           ("title", JStr "from_items")])])]);
        ("definitions",
         JObj [("d", JObj [("type", JStr "object");
                           ("properties", JObj [("z", JObj [("type", JStr "string")])])])])].
Definition crossref_schema : value := fst (load crossref_document []).
Definition crossref_heap : heap := snd (load crossref_document []).

(** The label of the [i]-th child of a descriptor. *)
Definition child_label (i : nat) (f : field) : option json :=
  match fieldGroup f with
  | Some g => match nth_error g i with
              | Some c => label c
              | None => None
              end
  | None => None
  end.

(** The descriptor without the visibility predicates whose source [reject]
    marks, throughout the tree. *)
Definition erase_hide (reject : string -> bool) (h : option hide) : option hide :=
  match h with
  | Some (HideByCondition src) => if reject src then None else h
  | _ => h
  end.

Fixpoint erase (reject : string -> bool) (f : field) {struct f} : field :=
  match f with
  | mkField t d to ac k p v ep h w fg fa o =>
      mkField t d to ac k p v ep (erase_hide reject h) w
              (match fg with
               | Some g => Some (map (erase reject) g)
               | None => None
               end)
              (match fa with
               | Some (ItemsValue x) => Some (ItemsValue (erase reject x))
               | other => other
               end)
              o
  end.


(** Two outcomes that agree up to [R] on what they return, whatever was
    logged. *)
Definition agree {A} (R : A -> A -> Prop)
    (r1 r2 : result (A * list string)) : Prop :=
  match r1, r2 with
  | Ok (a1, _), Ok (a2, _) => R a1 a2
  | Throw e1, Throw e2 => e1 = e2
  | Stuck w1, Stuck w2 => w1 = w2
  | _, _ => False
  end.

Definition erased (reject : string -> bool) (f1 f2 : field) : Prop :=
  f2 = erase reject f1.








Definition hidden (f : field) : bool :=
  match hideExpression f with Some _ => true | None => false end.

Definition children (f : field) : list field :=
  match fieldGroup f with Some g => g | None => [] end.

(* ===================================================================== *)
(** ** Further vocabulary                                                 *)
(* ===================================================================== *)

(** A live descriptor all of whose nodes have a [fieldGroup]. *)
Fixpoint all_groups (f : live) : bool :=
  match f with
  | Live _ None _ => false
  | Live _ (Some l) _ =>
      (fix all (l : list live) : bool :=
         match l with
         | [] => true
         | c :: l' => all_groups c && all l'
         end) l
  end.

(** Documents as a JSON parser delivers them: no object has two members of
    the same name, at any depth. *)
Fixpoint distinct_names (l : list string) : bool :=
  match l with
  | [] => true
  | k :: l' => negb (mem k l') && distinct_names l'
  end.

Fixpoint well_formed (v : json) : bool :=
  distinct_names (map fst (own_members v)) &&
  match v with
  | JObj ms =>
      (fix all (l : list (string * json)) : bool :=
         match l with
         | [] => true
         | (_, x) :: l' => well_formed x && all l'
         end) ms
  | JArr l =>
      (fix all (l : list json) : bool :=
         match l with
         | [] => true
         | x :: l' => well_formed x && all l'
         end) l
  | _ => true
  end.

(** A schema that [resolveSchema] has nothing to do on. *)
Definition resolved (s : json) : Prop :=
  s <> JNull /\ truthy (own "$ref" s) = false /\ truthy (own "allOf" s) = false.

(** A document with a reference to a definition that is itself composed. *)
Definition composed_document : json :=
  JObj [("$ref", JStr "#/definitions/port"); ("title", JStr "listen_port");
        ("definitions",
         JObj [("port", JObj [("allOf", JArr [JObj [("$ref", JStr "#/definitions/int")];
                                              JObj [("minimum", JNum 1)]]);
                              ("maximum", JNum 65535)]);
               ("int", JObj [("type", JStr "integer"); ("minimum", JNum 0)])])].

(** A member list without a duplicate name, a truthy [$ref] or a truthy
    [allOf]. *)
Definition quiet (d : list (string * json)) : Prop :=
  distinct_names (map fst d) = true /\
  truthy (assoc "$ref" d) = false /\ truthy (assoc "allOf" d) = false.

(** A member that [reverseDeepMerge] leaves alone in its destination: it is
    set ([undefined], [null] and [''] are taken from the source) and it is
    not an object (two objects are merged member by member). *)
Definition settled (v : option json) : bool :=
  match v with
  | None | Some JNull | Some (JStr EmptyString) | Some (JObj _) => false
  | Some _ => true
  end.

(** The keywords that [resolveAllOf] combines itself. *)
Definition combined_keywords : list string :=
  ("allOf" :: "required" :: "uniqueItems" :: max_family ++ min_family)%list.

Definition array_or_absent (v : option json) : bool :=
  match v with
  | None | Some (JArr _) => true
  | Some _ => false
  end.

(** The [required] of a base and of one more schema. *)
Definition join_required (base member : option json) : option json :=
  match base, member with
  | Some (JArr b), Some (JArr m) => Some (JArr (b ++ m))
  | None, _ => member
  | _, _ => base
  end.

(** [{required:['a'], type:'object', allOf:[{required:['b'], type:'array'},
                                            {title:'t'},
                                            {required:['c','a']}]}] *)
Definition layered_schema : json :=
  JObj [("required", JArr [JStr "a"]); ("type", JStr "object");
        ("allOf", JArr [JObj [("required", JArr [JStr "b"]); ("type", JStr "array")];
                        JObj [("title", JStr "t")];
                        JObj [("required", JArr [JStr "c"; JStr "a"])]])].

(** How a schema comes to be an enum for [isEnum]: by its [enum], by an
    [anyOf] or [oneOf] of constants, or as a set ([uniqueItems]) of items
    that are an enum; each way is open only when the ones before it are
    absent or falsy. *)
Inductive enum_by : json -> nat -> Prop :=
| by_enum s vs :
    own "enum" s = Some (JArr vs) -> enum_by s (List.length vs)
| by_anyOf s l :
    truthy (own "enum" s) = false ->
    own "anyOf" s = Some (JArr l) -> every isConst l = Ok true ->
    enum_by s (List.length l)
| by_oneOf s l :
    truthy (own "enum" s) = false -> truthy (own "anyOf" s) = false ->
    own "oneOf" s = Some (JArr l) -> every isConst l = Ok true ->
    enum_by s (List.length l)
| by_items s items n :
    truthy (own "enum" s) = false -> truthy (own "anyOf" s) = false ->
    truthy (own "oneOf" s) = false ->
    truthy (own "uniqueItems" s) = true ->
    own "items" s = Some items -> truthy (Some items) = true ->
    is_array (Some items) = false ->
    enum_by items n -> enum_by s n.

(** [{type:'array', uniqueItems:true, items:{oneOf:[{const:'a', title:'A'},
                                                    {enum:['b']}]}}] *)
Definition choice_schema : json :=
  JObj [("type", JStr "array"); ("uniqueItems", JBool true);
        ("items", JObj [("oneOf", JArr [JObj [("const", JStr "a"); ("title", JStr "A")];
                                        JObj [("enum", JArr [JStr "b"])]])])].

(** [{oneOf:[{const:1}], anyOf:[{type:'string'}]}]: an enum by its [oneOf],
    while its options are looked for in its [anyOf]. *)
Definition shadowed_schema : json :=
  JObj [("oneOf", JArr [JObj [("const", JNum 1)]]);
        ("anyOf", JArr [JObj [("type", JStr "string")]])].

(** The number that a string of decimal digits writes, read from the left
    after [v]. *)
Fixpoint read_decimal (v : nat) (s : string) : nat :=
  match s with
  | EmptyString => v
  | String c s' => read_decimal (10 * v + (nat_of_ascii c - 48)) s'
  end.

(** [{type:'array', items:[{type:'string'}, {type:'number'}],
      additionalItems:{type:'boolean'}}] *)
Definition tuple_schema : json :=
  JObj [("type", JStr "array");
        ("items", JArr [JObj [("type", JStr "string")]; JObj [("type", JStr "number")]]);
        ("additionalItems", JObj [("type", JStr "boolean")])].

(** The parts of a descriptor that only the [switch] on the type writes. *)
Definition same_parts (f f' : field) : Prop :=
  fieldGroup f' = fieldGroup f /\ fieldArray f' = fieldArray f /\
  parsers f' = parsers f /\ key f' = key f.

(** The names that every object inherits from [Object.prototype]: reading
    [deps[name]] on an empty object finds the inherited member. *)
Definition object_prototype_names : list string :=
  ["constructor"; "hasOwnProperty"; "isPrototypeOf"; "propertyIsEnumerable";
   "toLocaleString"; "toString"; "valueOf"; "__proto__";
   "__defineGetter__"; "__defineSetter__"; "__lookupGetter__"; "__lookupSetter__"].

(** A property name that an object enumerates in insertion order and looks
    up among its own members only: it does not start with a digit (integer
    names are enumerated first, in ascending order) and it is not a name of
    [Object.prototype]. *)
Definition starts_with_digit (k : string) : bool :=
  match k with
  | String c _ => let n := nat_of_ascii c in ((48 <=? n) && (n <=? 57))%nat
  | EmptyString => false
  end.

Definition ordinary_name (k : string) : bool :=
  negb (mem k object_prototype_names) && negb (starts_with_digit k).



(** [{type:'object', anyOf:[{properties:{a:{type:'string'}}}],
      dependencies:{a:['b']}}]: an object without [properties] and [oneOf]. *)
Definition bare_object_schema : json :=
  JObj [("type", JStr "object");
        ("anyOf", JArr [JObj [("properties", JObj [("a", JObj [("type", JStr "string")])])]]);
        ("dependencies", JObj [("a", JArr [JStr "b"])])].

(** [{type:['null','string'], maxLength:8}] *)
Definition nullable_schema : json :=
  JObj [("type", JArr [JStr "null"; JStr "string"]); ("maxLength", JNum 8)].

(** [{type:'string', 'x-schema-form':{condition:{hideExpression:'return !model.on',
                                                 disableAutoClear:true}}}] *)
Definition conditional_schema : json :=
  JObj [("type", JStr "string");
        ("x-schema-form",
         JObj [("condition", JObj [("hideExpression", JStr "return !model.on");
                                   ("disableAutoClear", JBool true)])])].

(** [{dependencies:{card:['billing','cvc'], gift:['billing'],
                    ship:{properties:{address:{type:'string'}}}}}] *)
Definition payment_dependencies : list (string * json) :=
  [("card", JArr [JStr "billing"; JStr "cvc"]);
   ("gift", JArr [JStr "billing"]);
   ("ship", JObj [("properties", JObj [("address", JObj [("type", JStr "string")])])])].
Definition payment_schema : json :=
  JObj [("type", JStr "object"); ("dependencies", JObj payment_dependencies)].

(* ===================================================================== *)
(** ** The text area with variable completion                             *)
(* ===================================================================== *)

Module TextArea.

(** [[a-zA-Z_.:]] *)
Definition in_class (c : ascii) : bool :=
  is_letter c || Ascii.eqb c "_" || Ascii.eqb c "." || Ascii.eqb c ":".

(** The lookahead [[^ ]*}] at the start of [t]: after any number of
    characters other than a space comes a [}]. *)
Fixpoint closes (t : string) : bool :=
  match t with
  | EmptyString => false
  | String c t' =>
      if Ascii.eqb c "}" then true
      else if Ascii.eqb c " " then false
      else closes t'
  end.

(** The group (a starred class [[a-zA-Z_.:]]) followed by the negative
    lookahead, at the start of [rest], as a backtracking matcher runs them:
    the group takes one more character when it can, and gives it back when
    what follows fails; the result is the length of the group. *)
Fixpoint group_match (rest : string) : option nat :=
  let stop := if closes rest then None else Some O in
  match rest with
  | EmptyString => stop
  | String c rest' =>
      if in_class c then
        match group_match rest' with
        | Some k => Some (S k)
        | None => stop
        end
      else stop
  end.

Fixpoint string_take (n : nat) (s : string) : string :=
  match n, s with
  | S n', String c s' => String c (string_take n' s')
  | _, _ => EmptyString
  end.

Fixpoint string_drop (n : nat) (s : string) : string :=
  match n, s with
  | S n', String _ s' => string_drop n' s'
  | _, _ => s
  end.

(** [variableRegex] at the start of [s]: the captured group. *)
Definition match_here (s : string) : option string :=
  match s with
  | String "$" (String "{" rest) =>
      match group_match rest with
      | Some k => Some (string_take k rest)
      | None => None
      end
  | _ => None
  end.

(** [this.variableRegex.exec(val)]: the index of the leftmost match and its
    group ([matches.index] and [matches[1]]); [None] is [null]. *)
Fixpoint exec (val : string) : option (nat * string) :=
  match match_here val with
  | Some group => Some (O, group)
  | None =>
      match val with
      | EmptyString => None
      | String _ val' =>
          match exec val' with
          | Some (i, group) => Some (S i, group)
          | None => None
          end
      end
  end.

(** [name.includes(part)]. *)
Fixpoint includes (part name : string) : bool :=
  String.prefix part name ||
  match name with
  | EmptyString => false
  | String _ name' => includes part name'
  end.

(** A group of sensor fields: [{sensor_name, fields: [{name}, ...]}]. *)
Record SensorFields : Type := mkSensorFields {
  sensor_name : string;
  fields : list string     (* the [name] of each field *)
}.

(** What the subscription to [valueChanges] leaves behind for a value that
    is a string, when [formState.sensorFields] is set: [this.filteredList]
    and whether the panel is open. *)
Record completion : Type := mkCompletion {
  filteredList : list SensorFields;
  panel_open : bool
}.

Definition valueChanged (sensorFields : list SensorFields) (val : string) : completion :=
  match exec val with
  | Some (_, group) =>
      mkCompletion
        (map (fun g => mkSensorFields (sensor_name g)
                         (filter (fun name => includes group name) (fields g)))
             sensorFields)
        true
  | None => mkCompletion sensorFields false
  end.

Fixpoint has_char (c : ascii) (s : string) : bool :=
  match s with
  | EmptyString => false
  | String c' s' => Ascii.eqb c c' || has_char c s'
  end.

(** [autoCompleteSelected($event)]: the value set on the control,
    [this._value.replace(this.variableRegex, '${' + name + '}')].  A name
    with a [$] would be read as a replacement pattern; the model stops
    there. *)
Definition autoCompleteSelected (_value name : string) : option string :=
  if has_char "$" name then None
  else
    Some (match exec _value with
          | Some (i, group) =>
              string_take i _value ++ "${" ++ name ++ "}"
              ++ string_drop (i + 2 + String.length group) _value
          | None => _value
          end).

(** The length of the longest prefix in [[a-zA-Z_.:]]. *)
Fixpoint run_length (s : string) : nat :=
  match s with
  | String c s' => if in_class c then S (run_length s') else O
  | EmptyString => O
  end.

End TextArea.

(** A store in which two saved configs have the same name. *)
Definition twin_configs : json :=
  JArr [JObj [("name", JStr "parser"); ("version", JNum 1)];
        JObj [("name", JStr "alert"); ("version", JNum 2)];
        JObj [("name", JStr "alert"); ("version", JNum 3)]].
Definition twin_heap : heap := snd (load twin_configs []).
Definition twin_state : Store.ConfigStoreState :=
  Store.mkState (fst (load twin_configs [])) Null Null [].

(** [{oneOf:[{properties:{kind:{const:'tcp'}, port:{type:'integer'}}},
             {properties:{kind:{enum:['file']}, path:{type:'string'}}}]}]:
    a schema dependency discriminated by the value of [kind]. *)
Definition transport_dependency : json :=
  JObj [("oneOf",
         JArr [JObj [("properties", JObj [("kind", JObj [("const", JStr "tcp")]);
                                          ("port", JObj [("type", JStr "integer")])])];
               JObj [("properties", JObj [("kind", JObj [("enum", JArr [JStr "file"])]);
                                          ("path", JObj [("type", JStr "string")])])]])].

(** Plain schemas: an object with [properties] of ordinary names that are
    plain, or a string, number, integer or boolean; only the keywords
    listed, a [title] that is a string when present; nested to a depth
    below [n]. *)
Definition leaf_types : list string := ["string"; "number"; "integer"; "boolean"].
Definition leaf_keywords : list string :=
  ["type"; "title"; "description"; "default"; "readOnly";
   "minimum"; "maximum"; "exclusiveMinimum"; "exclusiveMaximum"; "multipleOf";
   "minLength"; "maxLength"; "pattern"].
Definition object_keywords : list string :=
  ["type"; "title"; "description"; "properties"; "required"].

Definition only_keys (allowed : list string) (ms : list (string * json)) : bool :=
  forallb (fun kv => mem (fst kv) allowed) ms.

Definition title_ok (ms : list (string * json)) : bool :=
  match assoc "title" ms with
  | None | Some (JStr _) => true
  | Some _ => false
  end.

Fixpoint plain (n : nat) (s : json) : bool :=
  match n with
  | O => false
  | S n' =>
      match s with
      | JObj ms =>
          title_ok ms &&
          match assoc "type" ms with
          | Some (JStr t) =>
              if mem t leaf_types then only_keys leaf_keywords ms
              else if String.eqb t "object" then
                only_keys object_keywords ms &&
                match assoc "properties" ms with
                | Some (JObj ps) =>
                    forallb (fun p => ordinary_name (fst p) && plain n' (snd p)) ps
                | _ => false
                end
              else false
          | _ => false
          end
      | _ => false
      end
  end.

Definition is_object_schema (s : json) : bool := is_str "object" (own "type" s).

Definition has_options (f : field) : Prop := templateOptions f <> None.

(** [{type:'object', title:'listener', required:['port'],
      properties:{host:{type:'string', maxLength:64},
                  port:{type:'integer', minimum:1, exclusiveMaximum:65536},
                  tls:{type:'object', properties:{enabled:{type:'boolean'}}}}}] *)
Definition listener_schema : json :=
  JObj [("type", JStr "object"); ("title", JStr "listener");
        ("required", JArr [JStr "port"]);
        ("properties",
         JObj [("host", JObj [("type", JStr "string"); ("maxLength", JNum 64)]);
               ("port", JObj [("type", JStr "integer"); ("minimum", JNum 1);
                              ("exclusiveMaximum", JNum 65536)]);
               ("tls", JObj [("type", JStr "object");
                             ("properties",
                              JObj [("enabled", JObj [("type", JStr "boolean")])])])])].
(* ===================================================================== *)
(** ** Properties                                                         *)
(* ===================================================================== *)

Lemma assoc_assign {V} (k k' : string) (v : V) (l : list (string * V)) :
  assoc k (assign k' v l) = if String.eqb k k' then Some v else assoc k l.
Proof.
  induction l as [|[k0 v0] l IH]; simpl.
  - destruct (String.eqb_spec k k'); reflexivity.
  - destruct (String.eqb_spec k' k0) as [->|Hne]; simpl.
    + destruct (String.eqb_spec k k0); reflexivity.
    + rewrite IH. destruct (String.eqb_spec k k0) as [->|Hne'].
      * destruct (String.eqb_spec k0 k'); [congruence|reflexivity].
      * reflexivity.
Qed.

Lemma numeric_assoc l k v : numeric l -> assoc k l = Some v -> exists n, v = JNum n.
Proof.
  induction 1 as [|[k0 v0] l [n Hn] _ IH]; simpl; [discriminate|].
  destruct (String.eqb k k0); [|exact IH].
  intros [= <-]. exists n. exact Hn.
Qed.

Lemma numeric_assign l k n : numeric l -> numeric (assign k (JNum n) l).
Proof.
  induction 1 as [|[k0 v0] l H0 Hl IH]; simpl.
  - repeat constructor. exists n. reflexivity.
  - destruct (String.eqb k k0); constructor; auto. exists n. reflexivity.
Qed.

(* --------------------------------------------------------------------- *)
(** *** [allOf] over schemas that carry numeric bounds only                *)

Lemma numeric_tighten_num keep sm base p :
  numeric base -> numeric (tighten_num keep sm base p).
Proof.
  intros Hb. unfold tighten_num.
  destruct (assoc p base) as [[| | b | | |]|]; auto.
  destruct (assoc p sm) as [[| | s | | |]|]; auto.
  apply numeric_assign, Hb.
Qed.

Lemma tighten_numeric keep_base keep sm base p :
  (forall b s, keep_base (JNum b) (JNum s) = Ok (keep b s)) ->
  numeric base -> numeric sm ->
  tighten keep_base (JObj sm) base p = Ok (tighten_num keep sm base p).
Proof.
  intros Hk Hb Hs. unfold tighten, tighten_num. simpl.
  destruct (assoc p base) as [b|] eqn:Eb; [|reflexivity].
  destruct (numeric_assoc _ _ _ Hb Eb) as [nb ->].
  destruct (assoc p sm) as [s|] eqn:Es; [|reflexivity].
  destruct (numeric_assoc _ _ _ Hs Es) as [ns ->].
  simpl. rewrite Hk. simpl. destruct (keep nb ns); reflexivity.
Qed.

Lemma forEach_tighten keep_base keep sm l : forall base,
  (forall b s, keep_base (JNum b) (JNum s) = Ok (keep b s)) ->
  numeric base -> numeric sm ->
  forEach (tighten keep_base (JObj sm)) l base
  = Ok (fold_left (tighten_num keep sm) l base).
Proof.
  induction l as [|p l IH]; intros base Hk Hb Hs; simpl; [reflexivity|].
  rewrite (tighten_numeric _ keep) by assumption. simpl.
  apply IH; auto using numeric_tighten_num.
Qed.

Lemma numeric_fold_tighten keep sm l : forall base,
  numeric base -> numeric (fold_left (tighten_num keep sm) l base).
Proof.
  induction l as [|p l IH]; intros base Hb; simpl; auto using numeric_tighten_num.
Qed.

Lemma mem_In k l : mem k l = true <-> In k l.
Proof.
  unfold mem. rewrite existsb_exists. split.
  - intros (x & Hx & E). apply String.eqb_eq in E. subst. exact Hx.
  - intros H. exists k. split; [exact H|apply String.eqb_refl].
Qed.

Lemma assoc_tighten_num keep sm base p q :
  assoc q (tighten_num keep sm base p)
  = if String.eqb q p
    then match assoc q base, assoc q sm with
         | Some (JNum b), Some (JNum s) => Some (JNum (if keep b s then b else s))
         | old, _ => old
         end
    else assoc q base.
Proof.
  unfold tighten_num.
  destruct (String.eqb_spec q p) as [->|Hne].
  - destruct (assoc p base) as [[| | b | | |]|] eqn:Eb; try (rewrite Eb; reflexivity).
    destruct (assoc p sm) as [[| | s | | |]|]; try (rewrite Eb; reflexivity).
    rewrite assoc_assign, String.eqb_refl. reflexivity.
  - destruct (assoc p base) as [[| | b | | |]|]; try reflexivity.
    destruct (assoc p sm) as [[| | s | | |]|]; try reflexivity.
    rewrite assoc_assign. apply String.eqb_neq in Hne. rewrite Hne. reflexivity.
Qed.

Lemma assoc_fold_tighten keep sm l q : forall base,
  NoDup l ->
  assoc q (fold_left (tighten_num keep sm) l base)
  = if mem q l
    then match assoc q base, assoc q sm with
         | Some (JNum b), Some (JNum s) => Some (JNum (if keep b s then b else s))
         | old, _ => old
         end
    else assoc q base.
Proof.
  induction l as [|p l IH]; intros base Hnd; simpl; [reflexivity|].
  inversion Hnd as [|? ? Hp Hl]; subst.
  rewrite IH by assumption. rewrite !assoc_tighten_num.
  destruct (String.eqb_spec q p) as [->|Hne]; simpl.
  - destruct (mem p l) eqn:Em; [apply mem_In in Em; contradiction|reflexivity].
  - reflexivity.
Qed.

Lemma reverseDeepMerge_objects ms d :
  reverseDeepMerge (JObj ms) (JObj d) = JObj (merge_all ms d).
Proof.
  unfold merge_all. simpl. f_equal. revert d.
  induction ms as [|[k v] ms IH]; intro d; simpl; [reflexivity|apply IH].
Qed.

Lemma merge_all_numeric ms : forall d,
  numeric ms -> numeric d ->
  numeric (merge_all ms d) /\
  forall q, assoc q (merge_all ms d)
            = match assoc q d with Some x => Some x | None => assoc q ms end.
Proof.
  unfold merge_all.
  induction ms as [|[k v] ms IH]; intros d Hms Hd; simpl.
  - split; [exact Hd|]. intro q. destruct (assoc q d); reflexivity.
  - inversion Hms as [|? ? [n Hn] Hms']; subst. simpl in Hn. subst v.
    assert (Hstep : merge_member k (JNum n) (reverseDeepMerge (JNum n)) d
                    = match assoc k d with Some _ => d | None => assign k (JNum n) d end).
    { unfold merge_member. destruct (assoc k d) as [x|] eqn:E; [|reflexivity].
      destruct (numeric_assoc _ _ _ Hd E) as [m ->]. reflexivity. }
    rewrite Hstep.
    assert (Hd' : numeric (match assoc k d with Some _ => d | None => assign k (JNum n) d end)).
    { destruct (assoc k d); auto using numeric_assign. }
    destruct (IH _ Hms' Hd') as [Hnum Hq]. split; [exact Hnum|].
    intro q. rewrite Hq.
    destruct (assoc k d) as [x|] eqn:Ek.
    + destruct (assoc q d) eqn:Eq; [reflexivity|].
      destruct (String.eqb_spec q k) as [->|]; [congruence|reflexivity].
    + rewrite assoc_assign.
      destruct (String.eqb_spec q k) as [->|]; [rewrite Ek; reflexivity|].
      reflexivity.
Qed.

Lemma families_disjoint q : mem q max_family = true -> mem q min_family = false.
Proof.
  intro H. apply mem_In in H. simpl in H.
  repeat (destruct H as [<-|H]; [reflexivity|]). contradiction.
Qed.

Lemma NoDup_max_family : NoDup max_family.
Proof.
  unfold max_family. repeat constructor; simpl; intuition discriminate.
Qed.

Lemma NoDup_min_family : NoDup min_family.
Proof.
  unfold min_family. repeat constructor; simpl; intuition discriminate.
Qed.

Lemma assoc_outside (keys : list string) (ms : list (string * json)) k :
  Forall (fun kv => In (fst kv) keys) ms -> ~ In k keys -> assoc k ms = None.
Proof.
  induction 1 as [|[k0 v0] ms H0 _ IH]; intro Hk; simpl; [reflexivity|].
  destruct (String.eqb_spec k k0) as [->|]; [contradiction|auto].
Qed.

Lemma assoc_inside (keys : list string) (ms : list (string * json)) k v :
  Forall (fun kv => In (fst kv) keys) ms -> assoc k ms = Some v -> In k keys.
Proof.
  induction 1 as [|[k0 v0] ms H0 _ IH]; simpl; [discriminate|].
  destruct (String.eqb_spec k k0) as [->|]; [intros _; exact H0|exact IH].
Qed.

Lemma not_bound_key k : mem k bound_keys = false -> ~ In k bound_keys.
Proof. intros E H. apply mem_In in H. congruence. Qed.

Lemma allOf_step_bounds resolve base sm :
  numeric base -> assoc "required" base = None ->
  numeric sm -> Forall (fun kv => In (fst kv) bound_keys) sm ->
  resolve (JObj sm) = Ok (JObj sm) ->
  exists base', allOf_step resolve base (JObj sm) = Ok base'
    /\ numeric base'
    /\ forall q, assoc q base' = merged_bound q (assoc q base) (assoc q sm).
Proof.
  intros Hb Hreq Hs Hkeys Hres.
  unfold allOf_step. rewrite Hres. cbn [bind]. rewrite Hreq. cbn [bind].
  cbn [own].
  rewrite (assoc_outside bound_keys sm "uniqueItems" Hkeys)
    by (apply not_bound_key; reflexivity).
  cbn [truthy].
  rewrite (forEach_tighten _ Z.ltb) by auto. cbn [bind].
  set (b1 := fold_left (tighten_num Z.ltb sm) max_family base).
  assert (Hb1 : numeric b1) by (apply numeric_fold_tighten, Hb).
  rewrite (forEach_tighten _ (fun b s => Z.ltb s b)) by auto. cbn [bind].
  set (b2 := fold_left (tighten_num (fun b s => Z.ltb s b) sm) min_family b1).
  assert (Hb2 : numeric b2) by (apply numeric_fold_tighten, Hb1).
  rewrite reverseDeepMerge_objects.
  destruct (merge_all_numeric sm b2 Hs Hb2) as [Hnum Hq].
  eexists. split; [reflexivity|]. split; [exact Hnum|].
  intro q. rewrite Hq. unfold b2.
  rewrite (assoc_fold_tighten _ _ _ _ _ NoDup_min_family). unfold b1.
  rewrite (assoc_fold_tighten _ _ _ _ _ NoDup_max_family).
  unfold merged_bound.
  destruct (assoc q base) as [x|] eqn:Ex.
  - destruct (numeric_assoc _ _ _ Hb Ex) as [nx ->].
    destruct (assoc q sm) as [y|] eqn:Ey.
    + destruct (numeric_assoc _ _ _ Hs Ey) as [ny ->].
      destruct (mem q max_family) eqn:Emax.
      * rewrite (families_disjoint _ Emax). do 2 f_equal.
        destruct (Z.ltb_spec nx ny); lia.
      * destruct (mem q min_family); do 2 f_equal.
        destruct (Z.ltb_spec ny nx); lia.
    + destruct (mem q max_family), (mem q min_family); reflexivity.
  - destruct (mem q max_family), (mem q min_family); reflexivity.
Qed.

Lemma resolveSchema_bounds_only fuel root sm :
  Forall (fun kv => In (fst kv) bound_keys) sm ->
  resolveSchema (S fuel) root (JObj sm) = Ok (JObj sm).
Proof.
  intro Hkeys. cbn [resolveSchema prop own bind].
  rewrite (assoc_outside bound_keys sm "$ref" Hkeys)
    by (apply not_bound_key; reflexivity).
  cbn [truthy bind prop own].
  rewrite (assoc_outside bound_keys sm "allOf" Hkeys)
    by (apply not_bound_key; reflexivity).
  reflexivity.
Qed.

Lemma resolve_pair fuel root a b :
  numeric a -> Forall (fun kv => In (fst kv) bound_keys) a ->
  numeric b -> Forall (fun kv => In (fst kv) bound_keys) b ->
  exists r,
    resolveSchema (S (S fuel)) root (JObj [("allOf", JArr [JObj a; JObj b])]) = Ok (JObj r)
    /\ forall q, assoc q r = merged_bound q (assoc q a) (assoc q b).
Proof.
  intros Ha Ka Hb Kb.
  destruct (allOf_step_bounds (resolveSchema (S fuel) root) [] a) as (b1 & E1 & N1 & Q1);
    auto using resolveSchema_bounds_only. { constructor. }
  destruct (allOf_step_bounds (resolveSchema (S fuel) root) b1 b) as (b2 & E2 & N2 & Q2);
    auto using resolveSchema_bounds_only.
  { rewrite Q1. simpl. apply (assoc_outside bound_keys); auto.
    apply not_bound_key. reflexivity. }
  exists b2. split.
  - change (resolveSchema (S (S fuel)) root (JObj [("allOf", JArr [JObj a; JObj b])]))
      with (resolveAllOf (resolveSchema (S fuel) root) (JObj [("allOf", JArr [JObj a; JObj b])])).
    unfold resolveAllOf. cbn [own assoc String.eqb Ascii.eqb Bool.eqb].
    cbn [own assoc own_members length_member truthy List.length Z.of_nat forEach remove_key].
    cbn -[allOf_step resolveSchema]. rewrite E1. cbn [bind]. rewrite E2. reflexivity.
  - intro q. rewrite Q2, Q1. reflexivity.
Qed.

Lemma combine_effective q a b r :
  numeric a -> numeric b ->
  (forall q, assoc q r = merged_bound q (assoc q a) (assoc q b)) ->
  effective q (JObj r)
  = tightest (fun x y => if mem q max_family then Z.min x y
                         else if mem q min_family then Z.max x y else x)
             (effective q (JObj a)) (effective q (JObj b)).
Proof.
  intros Ha Hb Hr. unfold effective. cbn [own]. rewrite Hr. unfold merged_bound.
  destruct (assoc q a) as [x|] eqn:Ex.
  - destruct (numeric_assoc _ _ _ Ha Ex) as [nx ->].
    destruct (assoc q b) as [y|] eqn:Ey; [|reflexivity].
    destruct (numeric_assoc _ _ _ Hb Ey) as [ny ->]. reflexivity.
  - destruct (assoc q b) as [y|] eqn:Ey; [|reflexivity].
    destruct (numeric_assoc _ _ _ Hb Ey) as [ny ->]. reflexivity.
Qed.

Lemma combine_comm q a b :
  numeric a -> numeric b ->
  Forall (fun kv => In (fst kv) bound_keys) a ->
  merged_bound q (assoc q a) (assoc q b) = merged_bound q (assoc q b) (assoc q a).
Proof.
  intros Ha Hb Ka. unfold merged_bound.
  destruct (assoc q a) as [x|] eqn:Ex.
  - destruct (numeric_assoc _ _ _ Ha Ex) as [nx ->].
    destruct (assoc q b) as [y|] eqn:Ey; [|reflexivity].
    destruct (numeric_assoc _ _ _ Hb Ey) as [ny ->].
    pose proof (assoc_inside _ _ _ _ Ka Ex) as Hin.
    unfold bound_keys in Hin. apply in_app_or in Hin.
    destruct Hin as [Hin|Hin]; apply mem_In in Hin.
    + rewrite Hin. rewrite Z.min_comm. reflexivity.
    + rewrite Hin. destruct (mem q max_family).
      * rewrite Z.min_comm. reflexivity.
      * rewrite Z.max_comm. reflexivity.
  - destruct (assoc q b) as [y|] eqn:Ey; [|reflexivity].
    destruct (numeric_assoc _ _ _ Hb Ey) as [ny ->]. reflexivity.
Qed.

(** C2. For schemas [A] and [B] that carry numeric bounds only, resolving
    [{allOf:[A,B]}] and [{allOf:[B,A]}] both succeed and give the same value
    to every member; a minimum-family member is the maximum of the operands'
    values and a maximum-family member the minimum (most restrictive wins). *)
Theorem allOf_numeric_bounds_commute (root A B : json) (fuel : nat) :
  bounds_only A -> bounds_only B ->
  exists r1 r2,
    resolveSchema (S (S fuel)) root (JObj [("allOf", JArr [A; B])]) = Ok r1 /\
    resolveSchema (S (S fuel)) root (JObj [("allOf", JArr [B; A])]) = Ok r2 /\
    forall p,
      own p r1 = own p r2 /\
      (In p min_family ->
       effective p r1 = tightest Z.max (effective p A) (effective p B)) /\
      (In p max_family ->
       effective p r1 = tightest Z.min (effective p A) (effective p B)).
Proof.
  intros (a & -> & Ha & Ka) (b & -> & Hb & Kb).
  destruct (resolve_pair fuel root a b) as (r1 & E1 & Q1); auto.
  destruct (resolve_pair fuel root b a) as (r2 & E2 & Q2); auto.
  exists (JObj r1), (JObj r2). repeat split; auto.
  - cbn [own]. rewrite Q1, Q2. apply combine_comm; auto.
  - intro Hin. rewrite (combine_effective p a b r1) by auto.
    apply mem_In in Hin. rewrite Hin.
    destruct (mem p max_family) eqn:Emax; [|reflexivity].
    apply families_disjoint in Emax. congruence.
  - intro Hin. rewrite (combine_effective p a b r1) by auto.
    apply mem_In in Hin. rewrite Hin. reflexivity.
Qed.

Lemma bounds_only_minimum n : bounds_only (JObj [("minimum", JNum n)]).
Proof.
  eexists. split; [reflexivity|]. split.
  - repeat constructor. exists n. reflexivity.
  - constructor; [|constructor]. apply mem_In. reflexivity.
Qed.

(** C2 at [{minimum:1}] and [{minimum:5}]: both orders give
    [minimum = 5]. *)
Lemma allOf_numeric_bounds_commute_witness :
  exists r1 r2,
    resolveSchema 2 JNull
      (JObj [("allOf", JArr [JObj [("minimum", JNum 1)]; JObj [("minimum", JNum 5)]])]) = Ok r1 /\
    resolveSchema 2 JNull
      (JObj [("allOf", JArr [JObj [("minimum", JNum 5)]; JObj [("minimum", JNum 1)]])]) = Ok r2 /\
    effective "minimum" r1 = Some 5 /\ effective "minimum" r2 = Some 5.
Proof.
  destruct (allOf_numeric_bounds_commute JNull
              (JObj [("minimum", JNum 1)]) (JObj [("minimum", JNum 5)]) 0
              (bounds_only_minimum 1) (bounds_only_minimum 5))
    as (r1 & r2 & E1 & E2 & H).
  exists r1, r2. split; [exact E1|]. split; [exact E2|].
  destruct (H "minimum") as (Hsame & Hmin & _).
  assert (H1 : effective "minimum" r1 = Some 5).
  { rewrite Hmin; [reflexivity|]. apply mem_In. reflexivity. }
  split; [exact H1|].
  unfold effective in *. rewrite <- Hsame. exact H1.
Defined.

(* --------------------------------------------------------------------- *)
(** *** [$ref] resolution                                                  *)

Lemma resolveDefinition_step fuel root s d :
  target_of root s d ->
  resolveDefinition (S fuel) root s
  = if truthy (own "$ref" d) then resolveDefinition fuel root d
    else Ok (override_annotations s d).
Proof.
  intros (Hnn & r & Hr & Hne & Huri & Hptr & Ht).
  cbn [resolveDefinition]. unfold prop.
  destruct s; try congruence; cbn [bind]; rewrite Hr;
    fold (ref_uri r); fold (ref_pointer r); rewrite Huri, Hptr, Ht; reflexivity.
Qed.

Lemma resolveDefinition_links root s last target :
  links root s last target ->
  exists n, forall fuel, (n <= fuel)%nat ->
    resolveDefinition fuel root s = Ok (override_annotations last target).
Proof.
  induction 1 as [s target Ht Hno | s d last target Ht Hyes _ [n IH]].
  - exists 1%nat. intros [|fuel] Hle; [lia|].
    rewrite (resolveDefinition_step _ _ _ _ Ht), Hno. reflexivity.
  - exists (S n). intros [|fuel] Hle; [lia|].
    rewrite (resolveDefinition_step _ _ _ _ Ht), Hyes. apply IH. lia.
Qed.

Lemma member_override_fold keys p schema : forall acc,
  assoc p (fold_left (fun acc p => match own p schema with
                                   | Some v => assign p v acc
                                   | None => acc
                                   end) keys acc)
  = if mem p keys
    then match own p schema with Some v => Some v | None => assoc p acc end
    else assoc p acc.
Proof.
  induction keys as [|k keys IH]; intro acc; cbn [fold_left mem existsb]; [reflexivity|].
  rewrite IH. fold (mem p keys).
  destruct (String.eqb_spec p k) as [->|Hne]; cbn [orb].
  - destruct (own k schema) as [v|] eqn:Ev.
    + rewrite assoc_assign, String.eqb_refl. destruct (mem k keys); reflexivity.
    + destruct (mem k keys); reflexivity.
  - destruct (own k schema) as [v|] eqn:Ev; [|reflexivity].
    rewrite assoc_assign. apply String.eqb_neq in Hne. rewrite Hne. reflexivity.
Qed.

Lemma member_override p schema definition :
  member p (override_annotations schema definition)
  = if mem p annotation_keys
    then match own p schema with Some v => Some v | None => member p definition end
    else member p definition.
Proof.
  unfold member, override_annotations. cbn [own_members].
  apply member_override_fold.
Qed.

(** C5 (amended). When the [$ref] of a node resolves, possibly through a
    chain of references, [resolveDefinition] returns (given enough fuel) the
    chain's target in which [title], [description] and [default] are taken
    from the last referencing node of the chain when it owns them, and from
    the target otherwise; every other member is the target's.  For a direct
    reference the last referencing node is the node itself. *)
Theorem resolveDefinition_annotation_override (root s last target : json) :
  links root s last target ->
  (exists n, forall fuel, (n <= fuel)%nat ->
     resolveDefinition fuel root s = Ok (override_annotations last target)) /\
  (forall p, In p annotation_keys ->
     member p (override_annotations last target)
     = match own p last with Some v => Some v | None => member p target end) /\
  (forall p, ~ In p annotation_keys ->
     member p (override_annotations last target) = member p target) /\
  (truthy (own "$ref" target) = false /\
   (target_of root s target -> last = s)).
Proof.
  intro H. split; [apply resolveDefinition_links, H|].
  split; [|split].
  - intros p Hp. rewrite member_override.
    apply mem_In in Hp. rewrite Hp. reflexivity.
  - intros p Hp. rewrite member_override.
    destruct (mem p annotation_keys) eqn:E; [|reflexivity].
    apply mem_In in E. contradiction.
  - induction H as [s target Ht Hno | s d last target Ht Hyes Hl [IH1 IH2]].
    + split; [exact Hno|reflexivity].
    + split; [exact IH1|].
      intros (_ & r & Hr & _ & _ & Hp & _).
      destruct Ht as (_ & r' & Hr' & _ & _ & Hp' & _).
      rewrite Hr in Hr'. injection Hr' as <-. rewrite Hp in Hp'.
      injection Hp' as <-. congruence.
Qed.

Lemma chain_links : links chain_root chain_node chain_a chain_b.
Proof.
  apply links_through with (d := chain_a).
  - split; [discriminate|]. exists "#/a". repeat split; try reflexivity. discriminate.
  - reflexivity.
  - apply links_direct; [|reflexivity].
    split; [discriminate|]. exists "#/b". repeat split; try reflexivity. discriminate.
Qed.

(** C5 (amended) on the chain [{$ref:'#/a', title:'T'} -> a -> b]: the result
    is [b] titled by [a]. *)
Lemma resolveDefinition_annotation_override_witness :
  links chain_root chain_node chain_a chain_b /\
  (exists n, forall fuel, (n <= fuel)%nat ->
     resolveDefinition fuel chain_root chain_node
     = Ok (JObj [("type", JStr "string"); ("title", JStr "A");
                 ("description", JStr "the target")])).
Proof.
  split; [exact chain_links|].
  exact (proj1 (resolveDefinition_annotation_override _ _ _ _ chain_links)).
Defined.

(** C5 as stated fails: through a chain the [title] of the referencing node
    is not the [title] of the result. *)
Lemma annotation_override_lost_through_chain :
  ~ (forall root s last target fuel r,
       links root s last target ->
       resolveDefinition fuel root s = Ok r ->
       forall p v, In p annotation_keys -> own p s = Some v -> own p r = Some v).
Proof.
  intro H.
  specialize (H chain_root chain_node chain_a chain_b 3%nat _ chain_links eq_refl
                "title" (JStr "T")).
  cbn in H. assert (In "title" annotation_keys) as Hin by (apply mem_In; reflexivity).
  specialize (H Hin eq_refl). discriminate H.
Qed.

(* --------------------------------------------------------------------- *)
(** *** The errors of schema resolution                                    *)





Lemma prop_own k s : s <> JNull -> prop k s = Ok (own k s).
Proof. destruct s; intro H; [contradiction| | | | |]; reflexivity. Qed.











Lemma own_member k v : String.eqb k "length" = false -> own k v = member k v.
Proof. intro H. unfold member. destruct v; cbn; rewrite ?H; reflexivity. Qed.




Lemma null_or_not (s : json) : s = JNull \/ s <> JNull.
Proof. destruct s; [left; reflexivity| | | | |]; right; discriminate. Qed.


Lemma resolveSchema_empty_allOf fuel root s :
  s <> JNull -> truthy (own "$ref" s) = false ->
  own "allOf" s = Some (JArr []) ->
  resolveSchema (S fuel) root s = Throw EmptyCompositionError.
Proof.
  intros Hnn Href Hall. cbn [resolveSchema].
  rewrite (prop_own _ _ Hnn). cbn [bind]. rewrite Href. cbn [bind].
  rewrite (prop_own _ _ Hnn). cbn [bind]. rewrite Hall. cbn [truthy].
  unfold resolveAllOf. rewrite Hall. reflexivity.
Qed.

Lemma resolveDefinition_remote fuel root s r :
  own "$ref" s = Some (JStr r) -> remote r = true ->
  resolveDefinition (S fuel) root s = Throw UnsupportedReferenceError.
Proof.
  intros Hr Hrem. assert (Hnn : s <> JNull) by (intros ->; discriminate Hr).
  cbn [resolveDefinition]. rewrite (prop_own _ _ Hnn). cbn [bind]. rewrite Hr.
  unfold remote, ref_uri in Hrem.
  destruct (nth_error (split "#/" r) 0) as [[|c u]|]; try discriminate Hrem.
  reflexivity.
Qed.



(** An error of schema resolution at the root reaches the caller of
    [toFieldConfig]. *)
Lemma toFieldConfig_resolve_throw fuel svc s e :
  resolveSchema fuel s s = Throw e ->
  toFieldConfig (S fuel) svc s = Throw e.
Proof.
  intro H. unfold toFieldConfig. cbn [_toFieldConfig root]. rewrite H. reflexivity.
Qed.





(* --------------------------------------------------------------------- *)
(** *** Labels                                                             *)

Lemma assoc_remove_key {V} (k k' : string) (l : list (string * V)) :
  assoc k (remove_key k' l) = if String.eqb k k' then None else assoc k l.
Proof.
  induction l as [|[k0 v0] l IH]; simpl.
  - destruct (String.eqb k k'); reflexivity.
  - destruct (String.eqb_spec k' k0) as [->|Hne]; simpl.
    + rewrite IH. destruct (String.eqb_spec k k0); reflexivity.
    + rewrite IH. destruct (String.eqb_spec k k0) as [->|]; [|reflexivity].
      destruct (String.eqb_spec k0 k'); [congruence|reflexivity].
Qed.






(** Splitting a successful [bind]. *)
Lemma bind_ok {A B} (m : result A) (k : A -> result B) b :
  bind m k = Ok b -> exists a, m = Ok a /\ k a = Ok b.
Proof. destruct m; cbn; try discriminate. eauto. Qed.

Tactic Notation "bind_ok" hyp(H) ident(x) ident(Hx) :=
  apply bind_ok in H; destruct H as (x & Hx & H).
















(* --------------------------------------------------------------------- *)
(** *** Validators                                                         *)





















(* --------------------------------------------------------------------- *)
(** *** The branch predicate of a union                                    *)

Lemma keyed_leaf_count_raises model ancestors f :
  has_key f = true -> live_group f = None ->
  totalMatchedFields model ancestors f = Throw TypeError.
Proof.
  destruct f as [k g v]. cbn [live_group]. intros Hk ->.
  cbn [totalMatchedFields]. rewrite Hk.
  unfold getFieldInitialValue, getKeyPath. rewrite Hk.
  destruct ancestors as [|p rest]; cbn; [reflexivity|].
  destruct (getKeyPath p); reflexivity.
Qed.

(** C1 (the code at the failing inputs). On the union of the
    specification's example, and on the one with the larger branch second,
    the first evaluation of a branch predicate raises a [TypeError] instead
    of initialising the selector: counting the matched leaves of a valid
    branch calls [getFieldInitialValue] on a keyed leaf, which spreads the
    [undefined] that [getKeyPath] returns. *)
Theorem union_ranking_raises_on_keyed_leaves :
  hideExpression_of_branch OneOf 0 example_union = Throw TypeError /\
  hideExpression_of_branch OneOf 1 swapped_union = Throw TypeError /\
  (forall model ancestors f,
      has_key f = true -> live_group f = None ->
      totalMatchedFields model ancestors f = Throw TypeError).
Proof.
  split; [reflexivity|]. split; [reflexivity|].
  exact keyed_leaf_count_raises.
Qed.






(* --------------------------------------------------------------------- *)
(** *** Heaps                                                              *)

Local Open Scope list_scope.

Lemma extends_refl h : extends h h.
Proof. intros a c H. exact H. Qed.

Lemma extends_trans h1 h2 h3 : extends h1 h2 -> extends h2 h3 -> extends h1 h3.
Proof. intros H12 H23 a c H. apply H23, H12, H. Qed.

Lemma extends_alloc h c : extends h (h ++ [c]).
Proof.
  intros a c' H. rewrite nth_error_app1; [exact H|].
  apply nth_error_Some. congruence.
Qed.

Lemma extends_length h h' : extends h h' -> (List.length h <= List.length h')%nat.
Proof.
  intro H. destruct h as [|c0 h0] using rev_ind; [cbn; lia|].
  rewrite length_app. cbn.
  assert (Hn : nth_error ((h0 ++ [c0])%list) (List.length h0) = Some c0).
  { rewrite nth_error_app2 by lia. rewrite Nat.sub_diag. reflexivity. }
  apply H in Hn. assert (nth_error h' (List.length h0) <> None) by congruence.
  apply nth_error_Some in H0. lia.
Qed.

Lemma in_indexed {V} (k : string) (v : V) (l : list V) : forall i,
  In (k, v) (indexed i l) -> In v l.
Proof.
  induction l as [|x l IH]; intros i H; [contradiction|].
  destruct H as [H|H]; [left; congruence|right; eapply IH; eauto].
Qed.

Lemma in_cell_members_arr k v vs : In (k, v) (cell_members (Arr vs)) -> In v vs.
Proof. apply in_indexed. Qed.


Lemma sealed_alloc n h c :
  sealed n h -> (forall k b, In (k, Ref b) (cell_members c) -> (n <= b)%nat) ->
  sealed n (h ++ [c]).
Proof.
  intros Hs Hc a c' k b Hn Ha Hin.
  destruct (Nat.lt_ge_cases a (List.length h)) as [Hlt|Hge].
  - rewrite nth_error_app1 in Ha by exact Hlt. eapply Hs; eauto.
  - rewrite nth_error_app2 in Ha by exact Hge.
    destruct (a - List.length h)%nat as [|m]; cbn in Ha.
    + injection Ha as <-. eapply Hc; eauto.
    + destruct m; discriminate.
Qed.

Lemma reify_ref d h a :
  reify (S d) h (Ref a)
  = match nth_error h a with
    | None => None
    | Some (Arr vs) => option_map JArr (reify_all d h vs)
    | Some (Obj ms) => option_map JObj (reify_members d h ms)
    end.
Proof. reflexivity. Qed.

Lemma reify_all_cons d h v vs :
  reify_all d h (v :: vs)
  = match reify d h v, reify_all d h vs with
    | Some j, Some js => Some (j :: js)
    | _, _ => None
    end.
Proof. reflexivity. Qed.

Lemma reify_members_cons d h kv ms :
  reify_members d h (kv :: ms)
  = match reify d h (snd kv), reify_members d h ms with
    | Some j, Some js => Some ((fst kv, j) :: js)
    | _, _ => None
    end.
Proof. reflexivity. Qed.

Lemma reify_members_all d h ms :
  reify_members d h ms
  = option_map (List.combine (map fst ms)) (reify_all d h (map snd ms)).
Proof.
  induction ms as [|[k v] ms IH]; [reflexivity|].
  rewrite reify_members_cons. cbn [map fst snd]. rewrite reify_all_cons, IH.
  destruct (reify d h v); [|reflexivity].
  destruct (reify_all d h (map snd ms)); reflexivity.
Qed.

Lemma reify_all_length d h vs : forall js,
  reify_all d h vs = Some js -> List.length js = List.length vs.
Proof.
  induction vs as [|v vs IH]; intros js.
  - intros [= <-]. reflexivity.
  - rewrite reify_all_cons. destruct (reify d h v); [|discriminate].
    destruct (reify_all d h vs) as [js'|]; [|discriminate].
    intros [= <-]. cbn. f_equal. apply IH. reflexivity.
Qed.

Lemma reify_all_transfer m h m' h' :
  (forall v j, reify m h v = Some j -> reify m' h' v = Some j) ->
  forall vs js, reify_all m h vs = Some js -> reify_all m' h' vs = Some js.
Proof.
  intro IH. induction vs as [|v vs IHvs]; intros js Hjs; [exact Hjs|].
  rewrite reify_all_cons in *.
  destruct (reify m h v) as [j0|] eqn:Ej; [|discriminate].
  destruct (reify_all m h vs) as [js0|] eqn:Ejs; [|discriminate].
  rewrite (IH _ _ Ej), (IHvs _ eq_refl). exact Hjs.
Qed.

Lemma reify_all_extends m h h' :
  (forall v j, reify m h v = Some j -> reify m h' v = Some j) ->
  forall vs js, reify_all m h vs = Some js -> reify_all m h' vs = Some js.
Proof. apply reify_all_transfer. Qed.

Lemma reify_extends h h' : extends h h' ->
  forall m v j, reify m h v = Some j -> reify m h' v = Some j.
Proof.
  intro He. induction m as [|m IH]; intros v j H.
  - destruct v; exact H.
  - destruct v; try exact H. rewrite reify_ref in *.
    destruct (nth_error h a) as [c|] eqn:Ec; [|discriminate].
    rewrite (He _ _ Ec).
    destruct c as [ms|vs].
    + rewrite reify_members_all in *.
      destruct (reify_all m h (map snd ms)) as [js|] eqn:Ejs; [|discriminate].
      rewrite (reify_all_extends _ _ _ IH _ _ Ejs). exact H.
    + destruct (reify_all m h vs) as [js|] eqn:Ejs; [|discriminate].
      rewrite (reify_all_extends _ _ _ IH _ _ Ejs). exact H.
Qed.

Lemma clone_each_copies n clone :
  (forall h v v' h', (n <= List.length h)%nat ->
                     clone h v = Some (v', h') -> copies n h v h' v') ->
  forall vs h vs' h',
    (n <= List.length h)%nat ->
    clone_each clone vs h = Some (vs', h') ->
    extends h h' /\ (sealed n h -> sealed n h') /\ Forall (fresh n) vs' /\
    List.length vs' = List.length vs /\
    (forall m js, reify_all m h vs = Some js -> reify_all m h' vs' = Some js).
Proof.
  intro Hc. induction vs as [|v vs IH]; intros h vs' h' Hn H; cbn in H.
  - injection H as <- <-. repeat split; auto using extends_refl.
  - destruct (clone h v) as [[v1 h1]|] eqn:E1; [|discriminate].
    destruct (clone_each clone vs h1) as [[vs2 h2]|] eqn:E2; [|discriminate].
    injection H as <- <-.
    destruct (Hc _ _ _ _ Hn E1) as (X1 & S1 & F1 & R1).
    assert (Hn1 : (n <= List.length h1)%nat)
      by (pose proof (extends_length _ _ X1); lia).
    destruct (IH _ _ _ Hn1 E2) as (X2 & S2 & F2 & L2 & R2).
    split; [eapply extends_trans; eauto|]. split; [auto|].
    split; [constructor; auto|]. split; [cbn; congruence|].
    intros m js Hjs. rewrite reify_all_cons in *.
    destruct (reify m h v) as [j0|] eqn:Ej; [|discriminate].
    destruct (reify_all m h vs) as [js0|] eqn:Ejs; [|discriminate].
    rewrite (reify_extends _ _ X2 _ _ _ (R1 _ _ Ej)).
    rewrite (R2 _ _ (reify_all_extends _ _ _ (reify_extends _ _ X1 m) _ _ Ejs)).
    exact Hjs.
Qed.

Lemma map_fst_combine {A B} (ks : list A) (vs : list B) :
  List.length vs = List.length ks -> map fst (List.combine ks vs) = ks.
Proof.
  revert vs. induction ks as [|k ks IH]; intros [|v vs] H; cbn in *;
    try reflexivity; try discriminate. f_equal. apply IH. lia.
Qed.

Lemma map_snd_combine {A B} (ks : list A) (vs : list B) :
  List.length vs = List.length ks -> map snd (List.combine ks vs) = vs.
Proof.
  revert vs. induction ks as [|k ks IH]; intros [|v vs] H; cbn in *;
    try reflexivity; try discriminate. f_equal. apply IH. lia.
Qed.

Lemma nth_error_alloc (h : heap) c : nth_error (h ++ [c]) (List.length h) = Some c.
Proof. rewrite nth_error_app2 by lia. rewrite Nat.sub_diag. reflexivity. Qed.

Lemma fresh_refs n (vs : list value) b : Forall (fresh n) vs -> In (Ref b) vs -> (n <= b)%nat.
Proof. intros H Hin. rewrite Forall_forall in H. exact (H _ Hin). Qed.

Lemma cloneDeep_copies n d : forall h v v' h',
  (n <= List.length h)%nat ->
  cloneDeep d h v = Some (v', h') -> copies n h v h' v'.
Proof.
  induction d as [|d IH]; intros h v v' h' Hn H.
  - destruct v; cbn in H; try discriminate; injection H as <- <-;
      (split; [apply extends_refl|]; split; [auto|]; split; [exact I|]; auto).
  - destruct v; cbn [cloneDeep] in H;
      try (injection H as <- <-;
           split; [apply extends_refl|]; split; [auto|]; split; [exact I|]; auto).
    destruct (nth_error h a) as [[ms|vs]|] eqn:Ea; [| |discriminate].
    + destruct (clone_each (cloneDeep d) (map snd ms) h)
        as [[vs1 h1]|] eqn:Ec; [|discriminate].
      cbn [alloc] in H. injection H as <- <-.
      destruct (clone_each_copies n _ IH _ _ _ _ Hn Ec) as (X & S & F & L & R).
      rewrite length_map in L.
      pose proof (extends_length _ _ X) as Hlen.
      split; [eapply extends_trans; [exact X|apply extends_alloc]|].
      split; [|split; [cbn; lia|]].
      * intro Hs. apply sealed_alloc; [auto|].
        intros k b Hin. cbn in Hin. apply in_combine_r in Hin.
        apply (fresh_refs _ _ _ F Hin).
      * intros m j Hj. destruct m as [|m]; [discriminate|].
        rewrite reify_ref in *. rewrite Ea in Hj. rewrite nth_error_alloc.
        rewrite reify_members_all in *.
        rewrite map_fst_combine, map_snd_combine by (rewrite length_map; exact L).
        destruct (reify_all m h (map snd ms)) as [js|] eqn:Ejs; [|discriminate].
        rewrite (reify_all_extends _ _ _ (reify_extends _ _ (extends_alloc h1 _) m)
                   _ _ (R _ _ Ejs)).
        exact Hj.
    + destruct (clone_each (cloneDeep d) vs h)
        as [[vs1 h1]|] eqn:Ec; [|discriminate].
      cbn [alloc] in H. injection H as <- <-.
      destruct (clone_each_copies n _ IH _ _ _ _ Hn Ec) as (X & S & F & L & R).
      pose proof (extends_length _ _ X) as Hlen.
      split; [eapply extends_trans; [exact X|apply extends_alloc]|].
      split; [|split; [cbn; lia|]].
      * intro Hs. apply sealed_alloc; [auto|].
        intros k b Hin. apply in_cell_members_arr in Hin.
        apply (fresh_refs _ _ _ F Hin).
      * intros m j Hj. destruct m as [|m]; [discriminate|].
        rewrite reify_ref in *. rewrite Ea in Hj. rewrite nth_error_alloc.
        destruct (reify_all m h vs) as [js|] eqn:Ejs; [|discriminate].
        rewrite (reify_all_extends _ _ _ (reify_extends _ _ (extends_alloc h1 _) m)
                   _ _ (R _ _ Ejs)).
        exact Hj.
Qed.











(* --------------------------------------------------------------------- *)
(** *** Selecting a config for editing                                     *)

Lemma find_some h name entries x :
  Store.find h name entries = Store.Returns (Some x) ->
  In x entries /\ Store.named h name x = Store.Returns true.
Proof.
  induction entries as [|y entries IH]; cbn; [discriminate|].
  destruct (Store.named h name y) as [[|]| |] eqn:E; try discriminate.
  - intros [= <-]. split; [left; reflexivity|exact E].
  - intro H. destruct (IH H). split; [right|]; assumption.
Qed.






Lemma clone_each_primitives d : forall vs h vs' h',
  clone_each (cloneDeep d) vs h = Some (vs', h') ->
  Forall2 (fun v v' => match v with Ref _ => True | _ => v' = v end) vs vs'.
Proof.
  induction vs as [|v vs IH]; intros h vs' h' H; cbn in H.
  - injection H as <- <-. constructor.
  - destruct (cloneDeep d h v) as [[v1 h1]|] eqn:E1; [|discriminate].
    destruct (clone_each (cloneDeep d) vs h1) as [[vs2 h2]|] eqn:E2;
      [|discriminate].
    injection H as <- <-. constructor; [|eapply IH; eauto].
    destruct v; try exact I; destruct d; cbn in E1; congruence.
Qed.

Lemma assoc_combine_primitive k s (ms : list (string * value)) : forall vs',
  Forall2 (fun v v' => match v with Ref _ => True | _ => v' = v end) (map snd ms) vs' ->
  assoc k ms = Some (Str s) ->
  assoc k (List.combine (map fst ms) vs') = Some (Str s).
Proof.
  induction ms as [|[k0 v0] ms IH]; intros vs' H Ha; [discriminate|].
  cbn in H. inversion H as [|? v' ? vs2 Hv Hrest]; subst. cbn in *.
  destruct (String.eqb k k0).
  - injection Ha as ->. congruence.
  - apply IH; assumption.
Qed.

(** The copy of a named entry carries the same name. *)
Lemma clone_keeps_name depth h name config c' h' :
  Store.named h name config = Store.Returns true ->
  cloneDeep depth h config = Some (c', h') ->
  Store.get h' "name" c' = Str name.
Proof.
  intros Hn Hc. unfold Store.named in Hn.
  destruct config as [| |?|?|?|a]; try discriminate.
  destruct (nth_error h a) as [[ms|vs]|] eqn:Ea; try discriminate.
  destruct (assoc "name" ms) as [[| |?|?|n|?]|] eqn:En; try discriminate.
  injection Hn as Hn. apply String.eqb_eq in Hn. subst n.
  destruct depth as [|d]; [discriminate|]. cbn [cloneDeep] in Hc.
  rewrite Ea in Hc.
  destruct (clone_each (cloneDeep d) (map snd ms) h) as [[vs1 h1]|] eqn:Ec;
    [|discriminate].
  cbn [alloc] in Hc. injection Hc as <- <-.
  unfold Store.get. rewrite nth_error_alloc.
  rewrite (assoc_combine_primitive _ _ _ _ (clone_each_primitives _ _ _ _ _ Ec) En).
  reflexivity.
Qed.













(* --------------------------------------------------------------------- *)
(** *** Compiling the same schema object twice                             *)

(** C9 (the code at the failing input). Two invocations of [toFieldConfig]
    on the same schema object give descriptors with different labels: the
    first invocation assigns the resolved [items] to the array schema [q],
    and the [$ref] of [p], which points at those [items], resolves through
    a chain the first time (the title comes from the [items] node) and
    directly the second time (the title comes from [p]). *)
Theorem second_compilation_differs :
  exists first second,
    Shared.compile_twice 12 plain_service crossref_schema crossref_heap
    = Ok (first, second)
    /\ child_label 0 first = Some (JStr "From Items")
    /\ child_label 0 second = Some (JStr "From P")
    /\ first <> second.
Proof.
  eexists. eexists. split; [vm_compute; reflexivity|].
  split; [reflexivity|]. split; [reflexivity|].
  intro H. apply (f_equal (child_label 0)) in H. discriminate H.
Qed.

(* --------------------------------------------------------------------- *)
(** *** Conditions whose source does not compile                           *)

Section Erasure.

Variable reject : string -> bool.
Local Abbreviation er := (erase reject).

Lemma erase_set_validators v f : er (set_validators v f) = set_validators v (er f).
Proof. destruct f; reflexivity. Qed.

Lemma hideExpression_erase f :
  hideExpression (er f) = erase_hide reject (hideExpression f).
Proof. destruct f; reflexivity. Qed.

Lemma erase_empty_field : er empty_field = empty_field.
Proof. reflexivity. Qed.











(** The descriptor of a node carries no visibility predicate until the
    vendor extension sets one. *)
Lemma set_to_hide k v f f' :
  set_to k v f = Ok f' -> hideExpression f' = hideExpression f.
Proof.
  unfold set_to. destruct (templateOptions f); [|discriminate].
  intros [= <-]. reflexivity.
Qed.










(* Outcomes that agree. *)


Lemma agree_bind_same {A B} (RB : B -> B -> Prop) (m : result A) k1 k2 :
  (forall a, agree RB (k1 a) (k2 a)) ->
  agree RB (bind m k1) (bind m k2).
Proof. intro Hk. destruct m; cbn; auto. Qed.





Section Compiled.

Variable e : env.
Hypothesis no_map : map_hook e = None.
Hypothesis no_testSpec : testSpec e = None.




End Compiled.


Lemma agree_same {A} (m : result A) (k1 k2 : A -> result (field * list string)) :
  (forall a, agree (erased reject) (k1 a) (k2 a)) ->
  agree (erased reject) (bind m k1) (bind m k2).
Proof. apply agree_bind_same. Qed.

Section Children.

Variable e : env.
Hypothesis no_map : map_hook e = None.
Hypothesis no_testSpec : testSpec e = None.

Variables C1 C2 :
  option bool -> option json -> list string -> list string ->
  result (field * list string).
Hypothesis C_agree :
  forall a s k l1 l2, agree (erased reject) (C1 a s k l1) (C2 a s k l2).







End Children.


Section Whole.

Variable e : env.
Hypothesis no_map : map_hook e = None.
Hypothesis no_testSpec : testSpec e = None.



End Whole.

End Erasure.

(* --------------------------------------------------------------------- *)
(** *** The node that carries the failing condition                        *)

Lemma own_assign_items k r s : k <> "items" -> own k (assign_items r s) = own k s.
Proof.
  intro Hk. destruct s; try reflexivity. cbn [assign_items own].
  rewrite assoc_assign. destruct (String.eqb_spec k "items"); [contradiction|reflexivity].
Qed.

Lemma switch_type_own compile fuel e a schema propKey f log schema' f' log' k :
  k <> "items" ->
  switch_type compile fuel e a schema propKey f log = Ok (schema', f', log') ->
  own k schema' = own k schema.
Proof.
  intros Hk H. unfold switch_type in H.
  destruct (is_str "null" (type f)).
  { injection H as <- _ _. reflexivity. }
  destruct (is_str "boolean" (type f)).
  { bind_ok H f1 H1. bind_ok H f2 H2. injection H as <- _ _. reflexivity. }
  destruct (is_str "number" (type f) || is_str "integer" (type f)).
  { bind_ok H f1 H1. injection H as <- _ _. reflexivity. }
  destruct (is_str "string" (type f)).
  { bind_ok H f1 H1. injection H as <- _ _. reflexivity. }
  destruct (is_str "object" (type f)).
  { bind_ok H fl H1. destruct fl as [f1 l1]. injection H as <- _ _. reflexivity. }
  destruct (is_str "array" (type f)).
  { bind_ok H f1 H1. bind_ok H s1 H2. bind_ok H en H3. injection H as <- _ _.
    destruct (own "items" schema) as [i|]; [|injection H2 as <-; reflexivity].
    destruct (truthy (Some i) && negb (is_array (Some i)));
      [|injection H2 as <-; reflexivity].
    bind_ok H2 r Hr. injection H2 as <-. apply own_assign_items, Hk. }
  injection H as <- _ _. reflexivity.
Qed.

Lemma enum_part_hide fuel schema f f' :
  enum_part fuel schema f = Ok f' -> hideExpression f' = hideExpression f.
Proof.
  unfold enum_part. intro H. bind_ok H b Hb. destruct b; [|injection H as <-; reflexivity].
  bind_ok H f1 H1. bind_ok H o Ho.
  rewrite (set_to_hide _ _ _ _ H). cbn [hideExpression set_type].
  rewrite <- (set_to_hide _ _ _ _ H1). destruct f1; reflexivity.
Qed.

Lemma finish_hide e schema f f' :
  map_hook e = None -> finish e schema f = Ok f' ->
  hideExpression f' = hideExpression f.
Proof.
  unfold finish. intros -> H. bind_ok H f1 H1. injection H as <-.
  destruct (truthy (own "widget" schema)); [|injection H1 as <-; reflexivity].
  bind_ok H1 c Hc. injection H1 as <-.
  destruct (truthy c); [destruct f|]; reflexivity.
Qed.






(* ===================================================================== *)
(** ** Further properties of the compiler and the store                   *)
(* ===================================================================== *)

(* --------------------------------------------------------------------- *)
(** *** References are pointers into the document                          *)

Lemma split_from_head_nonempty sep : forall s cur,
  cur <> EmptyString ->
  exists h tail, split_from sep O cur s = h :: tail /\ h <> EmptyString.
Proof.
  induction s as [|c s IH]; intros cur Hcur; cbn [split_from].
  - exists cur, []. auto.
  - destruct (String.prefix sep (String c s)).
    + eexists. eexists. split; [reflexivity|exact Hcur].
    + apply IH. destruct cur; discriminate.
Qed.

Lemma remote_iff r :
  remote r = true <-> r <> EmptyString /\ String.prefix "#/" r = false.
Proof.
  unfold remote, ref_uri, split. destruct r as [|c s].
  - cbn. split; [discriminate|intros [H _]; contradiction].
  - cbn [split_from]. destruct (String.prefix "#/" (String c s)) eqn:Ep.
    + cbn. split; [discriminate|intros [_ H]; discriminate].
    + destruct (split_from_head_nonempty "#/" s (String c EmptyString))
        as (h & tail & E & Hh); [discriminate|].
      cbn [append]. rewrite E. cbn [nth_error].
      destruct h; [contradiction|]. split; [intros _; split; [discriminate|reflexivity]|reflexivity].
Qed.

Lemma resolveSchema_remote fuel root schema r :
  own "$ref" schema = Some (JStr r) -> remote r = true ->
  resolveSchema (S (S fuel)) root schema = Throw UnsupportedReferenceError.
Proof.
  intros Hr Hrem.
  assert (Hne : r <> EmptyString) by (apply remote_iff in Hrem; tauto).
  cbn [resolveSchema]. unfold prop at 1.
  destruct schema; try discriminate; rewrite Hr;
    (destruct r; [contradiction|]); cbn [truthy bind];
    rewrite (resolveDefinition_remote _ _ _ _ Hr Hrem); reflexivity.
Qed.

(** X1. A [$ref] is supported only when its string starts with ['#/']:
    every other non-empty reference (['#'], ['definitions/a'],
    ['other.json#/a'], ...) is taken for a remote schema, and compiling a
    schema that carries it throws the remote-schema error, whatever the
    document contains. *)
Theorem reference_must_start_with_fragment_slash :
  (forall r, remote r = true <-> r <> EmptyString /\ String.prefix "#/" r = false) /\
  (forall fuel svc schema r,
      own "$ref" schema = Some (JStr r) ->
      r <> EmptyString -> String.prefix "#/" r = false ->
      toFieldConfig (S (S (S fuel))) svc schema = Throw UnsupportedReferenceError).
Proof.
  split; [exact remote_iff|].
  intros fuel svc schema r Hr Hne Hp.
  apply toFieldConfig_resolve_throw, resolveSchema_remote with (r := r); [exact Hr|].
  apply remote_iff. auto.
Qed.

Lemma reference_must_start_with_fragment_slash_witness :
  toFieldConfig 3 plain_service (JObj [("$ref", JStr "#")])
  = Throw UnsupportedReferenceError.
Proof.
  apply (proj2 reference_must_start_with_fragment_slash O plain_service
               (JObj [("$ref", JStr "#")]) "#"); [reflexivity|discriminate|reflexivity].
Defined.

(* --------------------------------------------------------------------- *)
(** *** Counting the matched leaves                                        *)

Lemma live_induction (P : live -> Prop) :
  (forall k v, P (Live k None v)) ->
  (forall k l v, Forall P l -> P (Live k (Some l) v)) ->
  forall f, P f.
Proof.
  intros H0 H1. fix IH 1. intros [k [l|] v].
  - apply H1. induction l as [|c l IHl]; constructor; [apply IH|exact IHl].
  - apply H0.
Qed.

(** X2. [totalMatchedFields] never counts a leaf: on a descriptor all of
    whose nodes have a [fieldGroup] it returns 0, and on every other
    descriptor it raises a [TypeError] (a keyed leaf spreads the [undefined]
    that [getKeyPath] returns, a keyless node without [fieldGroup] has
    nothing to reduce), whatever the model holds. *)
Theorem totalMatchedFields_counts_nothing model ancestors f :
  totalMatchedFields model ancestors f
  = if all_groups f then Ok O else Throw TypeError.
Proof.
  revert ancestors. induction f as [k v|k l v IH] using live_induction; intro ancestors.
  - cbn [all_groups]. destruct (has_key (Live k None v)) eqn:Hk.
    + apply keyed_leaf_count_raises; [exact Hk|reflexivity].
    + cbn [totalMatchedFields]. rewrite Hk. reflexivity.
  - cbn [all_groups totalMatchedFields].
    generalize (Live k (Some l) v :: ancestors). intro anc.
    assert (H : forall s,
              (fix reduce (l : list live) (s : nat) : result nat :=
                 match l with
                 | [] => Ok s
                 | c :: l' =>
                     n <- totalMatchedFields model anc c ;;
                     reduce l' (n + s)%nat
                 end) l s
              = if (fix all (l : list live) : bool :=
                      match l with
                      | [] => true
                      | c :: l' => all_groups c && all l'
                      end) l
                then Ok s else Throw TypeError); [|apply H].
    induction IH as [|c l Hc _ IHl]; intro s; [reflexivity|].
    rewrite Hc. destruct (all_groups c); cbn [bind andb]; [|reflexivity].
    apply IHl.
Qed.

(* --------------------------------------------------------------------- *)
(** *** Resolving a resolved schema                                        *)

Lemma assoc_In {V} k (v : V) ms : assoc k ms = Some v -> In (k, v) ms.
Proof.
  induction ms as [|[k0 v0] ms IH]; cbn; [discriminate|].
  destruct (String.eqb_spec k k0) as [->|_].
  - intros [= ->]. left. reflexivity.
  - intro H. right. apply IH, H.
Qed.

Lemma distinct_names_assoc {V} k (v : V) ms :
  distinct_names (map fst ms) = true -> In (k, v) ms -> assoc k ms = Some v.
Proof.
  induction ms as [|[k0 v0] ms IH]; cbn; [contradiction|].
  intros Hd [H|H]; apply andb_prop in Hd; destruct Hd as [Hn Hd].
  - injection H as -> ->. rewrite String.eqb_refl. reflexivity.
  - destruct (String.eqb_spec k k0) as [->|_]; [|apply IH; assumption].
    apply negb_true_iff in Hn.
    assert (Hm : mem k0 (map fst ms) = true)
      by (apply mem_In, in_map_iff; exists (k0, v); auto).
    congruence.
Qed.

Lemma mem_assign {V} q k (v : V) ms :
  mem q (map fst (assign k v ms)) = mem q (map fst ms) || String.eqb q k.
Proof.
  unfold mem. induction ms as [|[k0 v0] ms IH]; cbn.
  - destruct (String.eqb q k); reflexivity.
  - destruct (String.eqb_spec k k0) as [->|Hne]; cbn.
    + destruct (String.eqb q k0); cbn; [reflexivity|].
      rewrite orb_false_r. reflexivity.
    + rewrite IH. destruct (String.eqb q k0); reflexivity.
Qed.

Lemma distinct_names_assign {V} k (v : V) ms :
  distinct_names (map fst ms) = true ->
  distinct_names (map fst (assign k v ms)) = true.
Proof.
  induction ms as [|[k0 v0] ms IH]; cbn; [reflexivity|].
  intro Hd. apply andb_prop in Hd. destruct Hd as [Hn Hd].
  destruct (String.eqb_spec k k0) as [->|Hne]; cbn.
  - rewrite Hn, Hd. reflexivity.
  - rewrite (IH Hd), mem_assign. apply negb_true_iff in Hn. rewrite Hn.
    destruct (String.eqb_spec k0 k); [congruence|reflexivity].
Qed.

Lemma mem_remove_key {V} q k (ms : list (string * V)) :
  mem q (map fst (remove_key k ms)) = true -> mem q (map fst ms) = true.
Proof.
  unfold mem. induction ms as [|[k0 v0] ms IH]; cbn; [auto|].
  destruct (String.eqb k k0); cbn.
  - intro H. rewrite (IH H). apply orb_true_r.
  - destruct (String.eqb q k0); [reflexivity|exact IH].
Qed.

Lemma distinct_names_remove_key {V} k (ms : list (string * V)) :
  distinct_names (map fst ms) = true ->
  distinct_names (map fst (remove_key k ms)) = true.
Proof.
  induction ms as [|[k0 v0] ms IH]; cbn; [reflexivity|].
  intro Hd. apply andb_prop in Hd. destruct Hd as [Hn Hd].
  destruct (String.eqb k k0); cbn; [apply IH, Hd|].
  rewrite (IH Hd), andb_true_r. apply negb_true_iff.
  destruct (mem k0 (map fst (remove_key k ms))) eqn:E; [|reflexivity].
  apply mem_remove_key in E. apply negb_true_iff in Hn. congruence.
Qed.

Lemma well_formed_object ms :
  well_formed (JObj ms)
  = distinct_names (map fst ms) && forallb (fun kv => well_formed (snd kv)) ms.
Proof.
  cbn [well_formed own_members]. f_equal.
  induction ms as [|[k v] ms IH]; [reflexivity|]. cbn [forallb snd]. rewrite <- IH.
  reflexivity.
Qed.

Lemma well_formed_array l :
  well_formed (JArr l)
  = distinct_names (map fst (indexed 0 l)) && forallb well_formed l.
Proof.
  cbn [well_formed own_members]. reflexivity.
Qed.

Lemma well_formed_keys v :
  well_formed v = true -> distinct_names (map fst (own_members v)) = true.
Proof. destruct v; cbn [well_formed]; intro H; apply andb_prop in H; tauto. Qed.

Lemma well_formed_chars s x : In x (chars s) -> well_formed x = true.
Proof.
  induction s as [|c s IH]; cbn; [contradiction|].
  intros [<-|H]; [reflexivity|apply IH, H].
Qed.

Lemma well_formed_members v k x :
  well_formed v = true -> In (k, x) (own_members v) -> well_formed x = true.
Proof.
  destruct v as [| | |s|l|ms]; cbn [own_members]; try contradiction.
  - intros _ H. apply in_indexed in H. apply (well_formed_chars s), H.
  - rewrite well_formed_array. intros H Hin. apply andb_prop in H.
    destruct H as [_ H]. rewrite forallb_forall in H. apply H.
    apply in_indexed in Hin. exact Hin.
  - rewrite well_formed_object. intros H Hin. apply andb_prop in H.
    destruct H as [_ H]. rewrite forallb_forall in H. apply (H (k, x)), Hin.
Qed.

Lemma well_formed_own v k x :
  well_formed v = true -> own k v = Some x -> well_formed x = true.
Proof.
  intros Hv Hx. destruct (String.eqb k "length") eqn:Ek.
  - destruct v; cbn in Hx; try discriminate; rewrite ?Ek in Hx.
    + injection Hx as <-. reflexivity.
    + injection Hx as <-. reflexivity.
    + apply (well_formed_members _ k x Hv), assoc_In, Hx.
  - rewrite (own_member _ _ Ek) in Hx.
    apply (well_formed_members _ k x Hv), assoc_In, Hx.
Qed.

Lemma well_formed_pointer root p def :
  well_formed root = true -> lookup_pointer root p = Some def ->
  well_formed def = true.
Proof.
  intro Hr. unfold lookup_pointer. destruct p as [[|c p]|]; try discriminate.
  generalize (split "/" (String c p)). intro path.
  assert (H : forall start,
             (forall d, start = Some d -> well_formed d = true) ->
             fold_left pointer_step path start = Some def -> well_formed def = true).
  { induction path as [|seg path IH]; intros start Hs H; cbn in H; [auto|].
    apply (IH _ ) in H; [exact H|].
    intros d Hd. unfold pointer_step in Hd. destruct start as [d0|]; [|discriminate].
    destruct (truthy (Some d0)); [|discriminate].
    apply (well_formed_own d0 seg d); auto. }
  apply H. intros d [= <-]. exact Hr.
Qed.

Lemma forallb_assign {V} (P : string * V -> bool) k v l :
  P (k, v) = true -> forallb P l = true -> forallb P (assign k v l) = true.
Proof.
  intro Hp. induction l as [|[k0 v0] l IH]; cbn.
  - rewrite Hp. reflexivity.
  - intro H. apply andb_prop in H. destruct H as [H0 Hl].
    destruct (String.eqb k k0); cbn; [rewrite Hp, Hl|rewrite H0, (IH Hl)]; reflexivity.
Qed.

Lemma own_members_well_formed v :
  well_formed v = true ->
  forallb (fun kv => well_formed (snd kv)) (own_members v) = true.
Proof.
  intro H. apply forallb_forall. intros [k x] Hin.
  apply (well_formed_members v k x H Hin).
Qed.

Lemma override_well_formed schema def :
  well_formed schema = true -> well_formed def = true ->
  well_formed (override_annotations schema def) = true.
Proof.
  intros Hs Hd. unfold override_annotations. rewrite well_formed_object.
  assert (H : forall keys acc,
             distinct_names (map fst acc) = true ->
             forallb (fun kv => well_formed (snd kv)) acc = true ->
             let r := fold_left (fun acc p => match own p schema with
                                              | Some v => assign p v acc
                                              | None => acc
                                              end) keys acc in
             distinct_names (map fst r) = true
             /\ forallb (fun kv => well_formed (snd kv)) r = true).
  { induction keys as [|p keys IH]; intros acc H1 H2; cbn [fold_left]; [auto|].
    apply IH.
    - destruct (own p schema); [apply distinct_names_assign|]; exact H1.
    - destruct (own p schema) as [v|] eqn:Ev; [|exact H2].
      apply forallb_assign; [|exact H2]. apply (well_formed_own schema p v Hs Ev). }
  destruct (H annotation_keys (own_members def)
              (well_formed_keys _ Hd) (own_members_well_formed _ Hd)) as [H1 H2].
  rewrite H1, H2. reflexivity.
Qed.

Lemma own_override p schema def :
  mem p annotation_keys = false -> String.eqb p "length" = false ->
  own p (override_annotations schema def) = own p def.
Proof.
  intros Hm Hl. rewrite !(own_member _ _ Hl), member_override, Hm. reflexivity.
Qed.

Lemma resolveDefinition_well_formed root :
  well_formed root = true ->
  forall fuel schema s1,
    resolveDefinition fuel root schema = Ok s1 -> well_formed schema = true ->
    well_formed s1 = true /\ s1 <> JNull /\ truthy (own "$ref" s1) = false.
Proof.
  intro Hroot. induction fuel as [|fuel IH]; intros schema s1 H Hs; [discriminate|].
  cbn [resolveDefinition] in H.
  destruct (prop "$ref" schema) as [[[| | |r| |]|]| |]; cbn [bind] in H;
    try discriminate.
  destruct (nth_error (split "#/" r) 0) as [[|c u]|]; try discriminate.
  - destruct (lookup_pointer root (nth_error (split "#/" r) 1)) as [def|] eqn:Ed;
      [|discriminate].
    destruct (truthy (Some def)); [|discriminate].
    pose proof (well_formed_pointer _ _ _ Hroot Ed) as Hdef.
    destruct (truthy (own "$ref" def)) eqn:Er; [apply (IH def s1 H Hdef)|].
    injection H as <-. split; [apply override_well_formed; assumption|].
    split; [discriminate|].
    rewrite own_override; [exact Er|reflexivity|reflexivity].
  - destruct (lookup_pointer root (nth_error (split "#/" r) 1)) as [def|] eqn:Ed;
      [|discriminate].
    destruct (truthy (Some def)); [|discriminate].
    pose proof (well_formed_pointer _ _ _ Hroot Ed) as Hdef.
    destruct (truthy (own "$ref" def)) eqn:Er; [apply (IH def s1 H Hdef)|].
    injection H as <-. split; [apply override_well_formed; assumption|].
    split; [discriminate|].
    rewrite own_override; [exact Er|reflexivity|reflexivity].
Qed.

Lemma quiet_assign k v d :
  quiet d -> k <> "$ref" -> k <> "allOf" -> quiet (assign k v d).
Proof.
  intros (H1 & H2 & H3) Hr Ha. split; [apply distinct_names_assign, H1|].
  rewrite !assoc_assign.
  destruct (String.eqb_spec "$ref" k); [congruence|].
  destruct (String.eqb_spec "allOf" k); [congruence|]. auto.
Qed.

Lemma merge_member_quiet k v F d :
  quiet d ->
  (k = "$ref" \/ k = "allOf" -> truthy (Some v) = false) ->
  quiet (merge_member k v F d).
Proof.
  intros Hq Hv.
  assert (Hassign : forall x, (k = "$ref" \/ k = "allOf" -> truthy (Some x) = false) ->
                              quiet (assign k x d)).
  { intros x Hx. destruct Hq as (H1 & H2 & H3).
    split; [apply distinct_names_assign, H1|]. rewrite !assoc_assign. split.
    - destruct (String.eqb_spec "$ref" k) as [E|_]; [|exact H2].
      apply Hx. left. symmetry. exact E.
    - destruct (String.eqb_spec "allOf" k) as [E|_]; [|exact H3].
      apply Hx. right. symmetry. exact E. }
  unfold merge_member.
  destruct (assoc k d) as [[| |?|s|?|dk]|] eqn:E; auto.
  - destruct s; auto.
  - destruct v; auto. apply Hassign. intros [ -> | -> ]; exfalso;
      destruct Hq as (_ & H2 & H3); rewrite E in *; discriminate.
Qed.

Lemma fold_merge_quiet (F : string * json -> json -> json) ms : forall d,
  quiet d ->
  (forall k v, In (k, v) ms -> k = "$ref" \/ k = "allOf" -> truthy (Some v) = false) ->
  quiet (fold_left (fun d kv => merge_member (fst kv) (snd kv) (F kv) d) ms d).
Proof.
  induction ms as [|[k v] ms IH]; intros d Hq Hms; cbn [fold_left]; [exact Hq|].
  apply IH.
  - apply merge_member_quiet; [exact Hq|]. apply (Hms k v). left. reflexivity.
  - intros k' v' Hin. apply Hms. right. exact Hin.
Qed.

Lemma reverseDeepMerge_array vs d :
  reverseDeepMerge (JArr vs) (JObj d) = JObj (merge_all (indexed O vs) d).
Proof.
  unfold merge_all. cbn [reverseDeepMerge]. f_equal. generalize O. revert d.
  induction vs as [|v vs IH]; intros d i; cbn [indexed fold_left fst snd]; [reflexivity|].
  apply IH.
Qed.

Lemma reverseDeepMerge_members src d :
  exists F : string * json -> json -> json,
    reverseDeepMerge src (JObj d)
    = JObj (fold_left (fun d kv => merge_member (fst kv) (snd kv) (F kv) d)
                      (own_members src) d).
Proof.
  destruct src as [| | |s|vs|ms].
  - exists (fun _ x => x). reflexivity.
  - exists (fun _ x => x). reflexivity.
  - exists (fun _ x => x). reflexivity.
  - exists (fun _ x => x). reflexivity.
  - exists (fun kv => reverseDeepMerge (snd kv)). apply reverseDeepMerge_array.
  - exists (fun kv => reverseDeepMerge (snd kv)). apply reverseDeepMerge_objects.
Qed.

Lemma resolved_members s k v :
  resolved s -> distinct_names (map fst (own_members s)) = true ->
  In (k, v) (own_members s) -> k = "$ref" \/ k = "allOf" ->
  truthy (Some v) = false.
Proof.
  intros (_ & Hr & Ha) Hd Hin Hk. pose proof (distinct_names_assoc _ _ _ Hd Hin) as E.
  destruct Hk as [ -> | -> ].
  - rewrite (own_member "$ref" s eq_refl) in Hr. unfold member in Hr.
    rewrite E in Hr. exact Hr.
  - rewrite (own_member "allOf" s eq_refl) in Ha. unfold member in Ha.
    rewrite E in Ha. exact Ha.
Qed.

Lemma tighten_quiet keep schema base p base' :
  tighten keep schema base p = Ok base' -> p <> "$ref" -> p <> "allOf" ->
  quiet base -> quiet base'.
Proof.
  unfold tighten. intros H Hr Ha Hq.
  destruct (assoc p base) as [b|]; [|injection H as <-; exact Hq].
  destruct (own p schema) as [s|]; [|injection H as <-; exact Hq].
  destruct (negb (isEmpty (Some b)) && negb (isEmpty (Some s)));
    [|injection H as <-; exact Hq].
  bind_ok H kp Hk. injection H as <-. apply quiet_assign; assumption.
Qed.

Lemma forEach_tighten_quiet keep schema l : forall base base',
  forEach (tighten keep schema) l base = Ok base' ->
  Forall (fun p => p <> "$ref" /\ p <> "allOf") l ->
  quiet base -> quiet base'.
Proof.
  induction l as [|p l IH]; intros base base' H Hl Hq; cbn [forEach] in H.
  - injection H as <-. exact Hq.
  - bind_ok H b1 H1. inversion Hl as [|? ? [Hr Ha] Hl']; subst.
    apply (IH _ _ H Hl'). apply (tighten_quiet _ _ _ _ _ H1 Hr Ha Hq).
Qed.

Lemma allOf_step_quiet resolve base m base' :
  (forall m', resolve m = Ok m' ->
              resolved m' /\ distinct_names (map fst (own_members m')) = true) ->
  allOf_step resolve base m = Ok base' -> quiet base -> quiet base'.
Proof.
  intros Hm H Hq. unfold allOf_step in H.
  bind_ok H m' Em. destruct (Hm m' Em) as [Hres Hd].
  bind_ok H b1 H1. bind_ok H b2 H2. bind_ok H b3 H3.
  assert (Q1 : quiet b1).
  { destruct (assoc "required" base) as [br|]; [|injection H1 as <-; exact Hq].
    destruct (own "required" m') as [sr|]; [|injection H1 as <-; exact Hq].
    destruct (truthy (Some br) && truthy (Some sr)); [|injection H1 as <-; exact Hq].
    bind_ok H1 x Hx. bind_ok H1 y Hy. injection H1 as <-.
    apply quiet_assign; [exact Hq|discriminate|discriminate]. }
  assert (Q2 : quiet b2).
  { apply (forEach_tighten_quiet _ _ _ _ _ H2).
    - unfold max_family. repeat constructor; discriminate.
    - destruct (truthy (own "uniqueItems" m')); [|exact Q1].
      destruct (own "uniqueItems" m'); [|exact Q1].
      apply quiet_assign; [exact Q1|discriminate|discriminate]. }
  assert (Q3 : quiet b3).
  { apply (forEach_tighten_quiet _ _ _ _ _ H3); [|exact Q2].
    unfold min_family. repeat constructor; discriminate. }
  destruct (reverseDeepMerge_members m' b3) as [F EF]. rewrite EF in H.
  injection H as <-. apply fold_merge_quiet; [exact Q3|].
  intros k v. apply resolved_members; assumption.
Qed.

Lemma forEach_allOf_quiet resolve members : forall base base',
  (forall m m', In m members -> resolve m = Ok m' ->
                resolved m' /\ distinct_names (map fst (own_members m')) = true) ->
  forEach (allOf_step resolve) members base = Ok base' ->
  quiet base -> quiet base'.
Proof.
  induction members as [|m members IH]; intros base base' Hm H Hq; cbn [forEach] in H.
  - injection H as <-. exact Hq.
  - bind_ok H b1 H1. apply (IH b1 base'); [|exact H|].
    + intros x x' Hin. apply Hm. right. exact Hin.
    + apply (allOf_step_quiet resolve base m b1); [|exact H1|exact Hq].
      intro m'. apply Hm. left. reflexivity.
Qed.

Lemma resolveSchema_resolved root :
  well_formed root = true ->
  forall fuel schema r,
    well_formed schema = true -> resolveSchema fuel root schema = Ok r ->
    resolved r /\ distinct_names (map fst (own_members r)) = true.
Proof.
  intro Hroot. induction fuel as [|fuel IH]; intros schema r Hs H; [discriminate|].
  cbn [resolveSchema] in H.
  destruct (null_or_not schema) as [->|Hnn]; [discriminate|].
  rewrite (prop_own _ _ Hnn) in H. cbn [bind] in H.
  bind_ok H s1 H1.
  assert (P1 : well_formed s1 = true /\ s1 <> JNull /\ truthy (own "$ref" s1) = false).
  { destruct (truthy (own "$ref" schema)) eqn:Er.
    - apply (resolveDefinition_well_formed root Hroot fuel schema s1 H1 Hs).
    - injection H1 as <-. auto. }
  destruct P1 as (Hw1 & Hn1 & Hr1).
  rewrite (prop_own _ _ Hn1) in H. cbn [bind] in H.
  destruct (truthy (own "allOf" s1)) eqn:Ea.
  - unfold resolveAllOf in H.
    destruct (own "allOf" s1) as [allOf|] eqn:EallOf; [|discriminate].
    destruct (truthy (own "length" allOf)); [|discriminate].
    destruct allOf as [| | | |members|]; try discriminate.
    bind_ok H merged Hm. injection H as <-.
    assert (Hmembers : forallb well_formed members = true).
    { pose proof (well_formed_own _ _ _ Hw1 EallOf) as Hall.
      rewrite well_formed_array in Hall. apply andb_prop in Hall. tauto. }
    assert (Q : quiet merged).
    { apply (forEach_allOf_quiet (resolveSchema fuel root) members
                                 (remove_key "allOf" (own_members s1)) merged);
        [|exact Hm|].
      - intros m m' Hin Em. apply (IH m m'); [|exact Em].
        rewrite forallb_forall in Hmembers. apply Hmembers, Hin.
      - split; [apply distinct_names_remove_key, well_formed_keys, Hw1|].
        rewrite !assoc_remove_key. cbn [String.eqb Ascii.eqb Bool.eqb].
        split; [|reflexivity].
        rewrite (own_member "$ref" s1 eq_refl) in Hr1. exact Hr1. }
    destruct Q as (Q1 & Q2 & Q3).
    split; [|exact Q1]. split; [discriminate|]. split; assumption.
  - injection H as <-. split; [|apply well_formed_keys, Hw1].
    split; [exact Hn1|]. split; assumption.
Qed.

(** X3. On documents without duplicate member names, whatever
    [resolveSchema] returns is resolved: it is not [null], its [$ref] and
    its [allOf] are absent or falsy, and resolving it again returns it
    unchanged (so the second resolution that [_toFieldConfig] applies to a
    schema it has already resolved, such as the stored [items], is the
    identity). *)
Theorem resolveSchema_is_idempotent fuel root schema r :
  well_formed root = true -> well_formed schema = true ->
  resolveSchema fuel root schema = Ok r ->
  r <> JNull /\
  truthy (own "$ref" r) = false /\ truthy (own "allOf" r) = false /\
  forall fuel', resolveSchema (S fuel') root r = Ok r.
Proof.
  intros Hroot Hs H.
  destruct (resolveSchema_resolved root Hroot fuel schema r Hs H)
    as [(Hn & Hr & Ha) _].
  repeat (split; [assumption|]).
  intro fuel'. cbn [resolveSchema].
  rewrite (prop_own _ _ Hn). cbn [bind]. rewrite Hr. cbn [bind].
  rewrite (prop_own _ _ Hn). cbn [bind]. rewrite Ha. reflexivity.
Qed.

Lemma resolveSchema_is_idempotent_witness :
  resolveSchema 5 composed_document composed_document
  = Ok (JObj [("maximum", JNum 65535); ("title", JStr "listen_port");
              ("type", JStr "integer"); ("minimum", JNum 1)])
  /\ forall fuel',
       resolveSchema (S fuel') composed_document
         (JObj [("maximum", JNum 65535); ("title", JStr "listen_port");
                ("type", JStr "integer"); ("minimum", JNum 1)])
       = Ok (JObj [("maximum", JNum 65535); ("title", JStr "listen_port");
                   ("type", JStr "integer"); ("minimum", JNum 1)]).
Proof.
  split; [reflexivity|].
  apply (resolveSchema_is_idempotent 5 composed_document composed_document
           (JObj [("maximum", JNum 65535); ("title", JStr "listen_port");
                  ("type", JStr "integer"); ("minimum", JNum 1)]));
    reflexivity.
Defined.

(* --------------------------------------------------------------------- *)
(** *** What [allOf] keeps of the composing schema                         *)

Lemma merge_member_other q k v F d :
  k <> q -> assoc q (merge_member k v F d) = assoc q d.
Proof.
  intro Hne.
  assert (E : forall x, assoc q (assign k x d) = assoc q d).
  { intro x. rewrite assoc_assign. destruct (String.eqb_spec q k); [congruence|reflexivity]. }
  unfold merge_member. destruct (assoc k d) as [[| |?|s|?|dk]|]; auto.
  - destruct s; auto.
  - destruct v; auto.
Qed.

Lemma merge_member_settled q k v F d :
  settled (assoc q d) = true -> assoc q (merge_member k v F d) = assoc q d.
Proof.
  intro Hs. destruct (String.eqb_spec k q) as [->|Hne]; [|apply merge_member_other, Hne].
  unfold merge_member.
  destruct (assoc q d) as [[| |?|s|?|dk]|] eqn:E; try discriminate; auto.
  destruct s; [discriminate|exact E].
Qed.

Lemma fold_merge_settled q (F : string * json -> json -> json) ms : forall d,
  settled (assoc q d) = true ->
  assoc q (fold_left (fun d kv => merge_member (fst kv) (snd kv) (F kv) d) ms d)
  = assoc q d.
Proof.
  induction ms as [|[k v] ms IH]; intros d Hs; cbn [fold_left fst snd]; [reflexivity|].
  rewrite IH; rewrite merge_member_settled; auto.
Qed.

Lemma fold_merge_absent q (F : string * json -> json -> json) ms : forall d,
  assoc q d = None -> assoc q ms = None ->
  assoc q (fold_left (fun d kv => merge_member (fst kv) (snd kv) (F kv) d) ms d) = None.
Proof.
  induction ms as [|[k v] ms IH]; intros d Hd Hms; cbn [fold_left fst snd]; [exact Hd|].
  cbn [assoc] in Hms. destruct (String.eqb_spec q k) as [->|Hne]; [discriminate|].
  apply IH; [|exact Hms]. rewrite merge_member_other; auto.
Qed.

Lemma fold_merge_fresh q v (F : string * json -> json -> json) ms : forall d,
  assoc q d = None -> assoc q ms = Some v -> settled (Some v) = true ->
  assoc q (fold_left (fun d kv => merge_member (fst kv) (snd kv) (F kv) d) ms d)
  = Some v.
Proof.
  induction ms as [|[k x] ms IH]; intros d Hd Hms Hv; cbn [fold_left fst snd];
    [discriminate|].
  cbn [assoc] in Hms. destruct (String.eqb_spec q k) as [<-|Hne].
  - injection Hms as ->.
    assert (E : assoc q (merge_member q v (F (q, v)) d) = Some v).
    { unfold merge_member. rewrite Hd, assoc_assign, String.eqb_refl. reflexivity. }
    rewrite fold_merge_settled; rewrite E; auto.
  - apply IH; auto. rewrite merge_member_other; auto.
Qed.

Lemma tighten_other keep schema base p base' q :
  tighten keep schema base p = Ok base' -> q <> p -> assoc q base' = assoc q base.
Proof.
  unfold tighten. intros H Hne.
  destruct (assoc p base) as [b|]; [|injection H as <-; reflexivity].
  destruct (own p schema) as [s|]; [|injection H as <-; reflexivity].
  destruct (negb (isEmpty (Some b)) && negb (isEmpty (Some s)));
    [|injection H as <-; reflexivity].
  bind_ok H kp Hk. injection H as <-. rewrite assoc_assign.
  destruct (String.eqb_spec q p); [contradiction|reflexivity].
Qed.

Lemma forEach_tighten_other keep schema q l : forall base base',
  forEach (tighten keep schema) l base = Ok base' -> ~ In q l ->
  assoc q base' = assoc q base.
Proof.
  induction l as [|p l IH]; intros base base' H Hq; cbn [forEach] in H.
  - injection H as <-. reflexivity.
  - bind_ok H b1 H1. rewrite (IH _ _ H); [|intro; apply Hq; right; assumption].
    apply (tighten_other _ _ _ _ _ _ H1). intros ->. apply Hq. left. reflexivity.
Qed.

(** What one step of the reduction does to a member that [resolveAllOf]
    does not combine itself. *)
Lemma allOf_step_member resolve base m base' q :
  allOf_step resolve base m = Ok base' ->
  ~ In q combined_keywords ->
  exists m' (F : string * json -> json -> json) b,
    resolve m = Ok m' /\ assoc q b = assoc q base /\
    base' = fold_left (fun d kv => merge_member (fst kv) (snd kv) (F kv) d)
                      (own_members m') b.
Proof.
  intros H Hq. unfold allOf_step in H.
  bind_ok H m' Em. bind_ok H b1 H1. bind_ok H b2 H2. bind_ok H b3 H3.
  destruct (reverseDeepMerge_members m' b3) as [F EF]. rewrite EF in H.
  injection H as <-. exists m', F, b3. split; [exact Em|]. split; [|reflexivity].
  assert (Hreq : q <> "required") by (intros ->; apply Hq; right; left; reflexivity).
  assert (Huni : q <> "uniqueItems")
    by (intros ->; apply Hq; right; right; left; reflexivity).
  assert (Hfam : ~ In q max_family /\ ~ In q min_family).
  { split; intro Hin; apply Hq; right; right; right; apply in_or_app; auto. }
  rewrite (forEach_tighten_other _ _ q _ _ _ H3 (proj2 Hfam)).
  rewrite (forEach_tighten_other _ _ q _ _ _ H2 (proj1 Hfam)).
  assert (E1 : assoc q b1 = assoc q base).
  { destruct (assoc "required" base) as [br|]; [|injection H1 as <-; reflexivity].
    destruct (own "required" m') as [sr|]; [|injection H1 as <-; reflexivity].
    destruct (truthy (Some br) && truthy (Some sr)); [|injection H1 as <-; reflexivity].
    bind_ok H1 x Hx. bind_ok H1 y Hy. injection H1 as <-. rewrite assoc_assign.
    destruct (String.eqb_spec q "required"); [contradiction|reflexivity]. }
  rewrite <- E1.
  destruct (truthy (own "uniqueItems" m')); [|reflexivity].
  destruct (own "uniqueItems" m'); [|reflexivity].
  rewrite assoc_assign. destruct (String.eqb_spec q "uniqueItems"); [contradiction|reflexivity].
Qed.

Lemma forEach_allOf_keeps resolve q v members : forall base merged,
  forEach (allOf_step resolve) members base = Ok merged ->
  ~ In q combined_keywords ->
  assoc q base = Some v -> settled (Some v) = true ->
  assoc q merged = Some v.
Proof.
  induction members as [|m members IH]; intros base merged H Hq Hb Hv; cbn [forEach] in H.
  - injection H as <-. exact Hb.
  - bind_ok H b1 H1. apply (IH b1 merged H Hq); [|exact Hv].
    destruct (allOf_step_member _ _ _ _ q H1 Hq) as (m' & F & b & _ & Eb & ->).
    rewrite fold_merge_settled; rewrite Eb, Hb; auto.
Qed.

(** X4. In an [allOf] composition the composing schema wins: a keyword that
    it sets to a value other than [null], [''] or an object, and that
    [resolveAllOf] does not combine itself ([required], [uniqueItems] and
    the ten bounds), has the same value in the result, whatever the members
    say. *)
Theorem allOf_keeps_the_composing_schema resolve ms r k v :
  resolveAllOf resolve (JObj ms) = Ok r ->
  ~ In k combined_keywords ->
  assoc k ms = Some v -> settled (Some v) = true ->
  own k r = Some v.
Proof.
  intros H Hk Hv Hs. unfold resolveAllOf in H.
  destruct (own "allOf" (JObj ms)) as [allOf|]; [|discriminate].
  destruct (truthy (own "length" allOf)); [|discriminate].
  destruct allOf as [| | | |members|]; try discriminate.
  bind_ok H merged Hm. injection H as <-. cbn [own].
  apply (forEach_allOf_keeps resolve k v members _ _ Hm Hk); [|exact Hs].
  cbn [own_members]. rewrite assoc_remove_key.
  destruct (String.eqb_spec k "allOf") as [->|_]; [|exact Hv].
  exfalso. apply Hk. left. reflexivity.
Qed.

Lemma allOf_keeps_the_composing_schema_witness :
  own "type" (JObj [("required", JArr [JStr "a"; JStr "b"; JStr "c"; JStr "a"]);
                    ("type", JStr "object"); ("title", JStr "t")])
  = Some (JStr "object").
Proof.
  apply (allOf_keeps_the_composing_schema
           (resolveSchema 2 layered_schema)
           [("required", JArr [JStr "a"]); ("type", JStr "object");
            ("allOf", JArr [JObj [("required", JArr [JStr "b"]); ("type", JStr "array")];
                            JObj [("title", JStr "t")];
                            JObj [("required", JArr [JStr "c"; JStr "a"])]])]
           _ "type" (JStr "object")).
  - reflexivity.
  - cbn. intuition discriminate.
  - reflexivity.
  - reflexivity.
Defined.

(* --------------------------------------------------------------------- *)
(** *** [required] under [allOf]                                           *)

Lemma allOf_step_required resolve base m base' :
  allOf_step resolve base m = Ok base' ->
  array_or_absent (assoc "required" base) = true ->
  exists m', resolve m = Ok m' /\
    (array_or_absent (own "required" m') = true ->
     assoc "required" base'
     = join_required (assoc "required" base) (own "required" m')).
Proof.
  intros H Hb. unfold allOf_step in H.
  bind_ok H m' Em. bind_ok H b1 H1. bind_ok H b2 H2. bind_ok H b3 H3.
  destruct (reverseDeepMerge_members m' b3) as [F EF]. rewrite EF in H.
  injection H as <-. exists m'. split; [exact Em|]. intro Hm.
  assert (E3 : assoc "required" b3 = assoc "required" b1).
  { rewrite (forEach_tighten_other _ _ "required" _ _ _ H3);
      [|cbn; intuition discriminate].
    rewrite (forEach_tighten_other _ _ "required" _ _ _ H2);
      [|cbn; intuition discriminate].
    destruct (truthy (own "uniqueItems" m')); [|reflexivity].
    destruct (own "uniqueItems" m'); [|reflexivity].
    rewrite assoc_assign. reflexivity. }
  rewrite (own_member "required" m' eq_refl) in *. unfold member in *.
  destruct (assoc "required" base) as [[| | | |b|]|] eqn:Eb; try discriminate.
  - destruct (assoc "required" (own_members m')) as [[| | | |s|]|] eqn:Es;
      try discriminate.
    + cbn in H1. injection H1 as <-.
      rewrite fold_merge_settled; rewrite E3, assoc_assign; reflexivity.
    + injection H1 as <-. rewrite fold_merge_settled; rewrite E3, Eb; reflexivity.
  - assert (E1 : b1 = base)
      by (destruct (assoc "required" (own_members m')); injection H1 as <-; reflexivity).
    subst b1. rewrite Eb in E3.
    destruct (assoc "required" (own_members m')) as [[| | | |s|]|] eqn:Es;
      try discriminate.
    + apply fold_merge_fresh; auto.
    + apply fold_merge_absent; auto.
Qed.

Lemma join_required_array base member :
  array_or_absent base = true -> array_or_absent member = true ->
  array_or_absent (join_required base member) = true.
Proof.
  destruct base as [[| | | |b|]|], member as [[| | | |m|]|];
    cbn; intros; congruence.
Qed.

Lemma forEach_allOf_required resolve members : forall base merged,
  forEach (allOf_step resolve) members base = Ok merged ->
  array_or_absent (assoc "required" base) = true ->
  exists ms', mapM resolve members = Ok ms' /\
    (forallb (fun m' => array_or_absent (own "required" m')) ms' = true ->
     assoc "required" merged
     = fold_left join_required (map (own "required") ms') (assoc "required" base)).
Proof.
  induction members as [|m members IH]; intros base merged H Hb; cbn [forEach] in H.
  - injection H as <-. exists []. split; reflexivity.
  - bind_ok H b1 H1.
    destruct (allOf_step_required _ _ _ _ H1 Hb) as (m' & Em & E1).
    destruct (array_or_absent (own "required" m')) eqn:Hm'.
    + specialize (E1 eq_refl).
      destruct (IH b1 merged H) as (ms' & Ems & E).
      { rewrite E1. apply join_required_array; assumption. }
      exists (m' :: ms'). cbn [mapM]. rewrite Em, Ems. split; [reflexivity|].
      cbn [forallb map fold_left]. rewrite Hm'. cbn [andb]. intro Hall.
      rewrite (E Hall), E1. reflexivity.
    + assert (Hrest : exists ms', mapM resolve members = Ok ms').
      { clear -H. revert b1 H. induction members as [|x members IHm]; intros b1 H.
        - exists []. reflexivity.
        - cbn [forEach] in H. bind_ok H b2 H2. unfold allOf_step in H2.
          bind_ok H2 x' Ex. destruct (IHm _ H) as [ms' E].
          exists (x' :: ms'). cbn [mapM]. rewrite Ex, E. reflexivity. }
      destruct Hrest as [ms' Ems]. exists (m' :: ms'). cbn [mapM]. rewrite Em, Ems.
      split; [reflexivity|]. cbn [forallb]. rewrite Hm'. discriminate.
Qed.

(** X5. Under [allOf] the [required] lists add up: when the composing
    schema and the resolved members each have an array for [required] or
    none, the result's [required] is the composing schema's followed by
    each member's, in the order of [allOf] (a name listed twice stays
    twice). *)
Theorem allOf_required_add_up resolve ms members r :
  resolveAllOf resolve (JObj ms) = Ok r ->
  assoc "allOf" ms = Some (JArr members) ->
  array_or_absent (assoc "required" ms) = true ->
  exists ms', mapM resolve members = Ok ms' /\
    (forallb (fun m' => array_or_absent (own "required" m')) ms' = true ->
     own "required" r
     = fold_left join_required (map (own "required") ms') (assoc "required" ms)).
Proof.
  intros H Ha Hb. unfold resolveAllOf in H. cbn [own] in H. rewrite Ha in H.
  destruct (truthy (own "length" (JArr members))); [|discriminate].
  bind_ok H merged Hm. injection H as <-. cbn [own].
  destruct (forEach_allOf_required resolve members _ _ Hm) as (ms' & Ems & E).
  - cbn [own_members]. rewrite assoc_remove_key. exact Hb.
  - exists ms'. split; [exact Ems|]. intro Hall. rewrite (E Hall).
    cbn [own_members]. rewrite assoc_remove_key. reflexivity.
Qed.

Lemma allOf_required_add_up_witness :
  resolveAllOf (resolveSchema 2 layered_schema) layered_schema
  = Ok (JObj [("required", JArr [JStr "a"; JStr "b"; JStr "c"; JStr "a"]);
              ("type", JStr "object"); ("title", JStr "t")])
  /\ exists ms',
       mapM (resolveSchema 2 layered_schema)
            [JObj [("required", JArr [JStr "b"]); ("type", JStr "array")];
             JObj [("title", JStr "t")];
             JObj [("required", JArr [JStr "c"; JStr "a"])]] = Ok ms'.
Proof.
  split; [reflexivity|].
  destruct (allOf_required_add_up
              (resolveSchema 2 layered_schema)
              [("required", JArr [JStr "a"]); ("type", JStr "object");
               ("allOf", JArr [JObj [("required", JArr [JStr "b"]); ("type", JStr "array")];
                               JObj [("title", JStr "t")];
                               JObj [("required", JArr [JStr "c"; JStr "a"])]])]
              [JObj [("required", JArr [JStr "b"]); ("type", JStr "array")];
               JObj [("title", JStr "t")];
               JObj [("required", JArr [JStr "c"; JStr "a"])]]
              (JObj [("required", JArr [JStr "a"; JStr "b"; JStr "c"; JStr "a"]);
                     ("type", JStr "object"); ("title", JStr "t")])
              eq_refl eq_refl eq_refl) as (ms' & E & _).
  exists ms'. exact E.
Defined.

(* --------------------------------------------------------------------- *)
(** *** Enums and their options                                            *)

Lemma toEnum_of_const s : isConst s = Ok true -> exists o, toEnum s = Ok o.
Proof.
  unfold isConst, toEnum. intro H.
  destruct s as [|b|n|x|l|ms]; try discriminate;
    (match goal with
     | |- context [own "const" ?s] => destruct (own "const" s) as [c|]
     end; [cbn [bind]; eauto|]);
    (match goal with
     | H : context [own "enum" ?s] |- _ =>
         destruct (own "enum" s) as [[| | | | |]|]; cbn in H |- *;
         try discriminate; eauto
     end).
Qed.

Lemma mapM_toEnum l :
  every isConst l = Ok true ->
  exists os, mapM toEnum l = Ok os /\ List.length os = List.length l.
Proof.
  induction l as [|s l IH]; cbn [every mapM]; intro H.
  - exists []. split; reflexivity.
  - bind_ok H b Hb. destruct b; [|discriminate].
    destruct (toEnum_of_const s Hb) as [o Eo]. destruct (IH H) as (os & Eos & Hl).
    exists (o :: os). rewrite Eo, Eos. cbn. split; [reflexivity|]. rewrite Hl. reflexivity.
Qed.

Lemma all_const_falsy x : truthy x = false -> all_const x = Ok false.
Proof. intro H. unfold all_const. rewrite H. reflexivity. Qed.

(** X6. A schema that is an enum by its [enum] array, by an [anyOf] or a
    [oneOf] of constants, or as a [uniqueItems] array of such items, and in
    which no falsy-or-absent test is shadowed, is recognised by [isEnum] and
    [toEnumOptions] returns its options, one per value or alternative. *)
Theorem enum_options_are_produced s n :
  enum_by s n ->
  exists d, forall fuel, (d < fuel)%nat ->
    isEnum fuel s = Ok true /\
    exists os, toEnumOptions fuel s = Ok (JArr os) /\ List.length os = n.
Proof.
  induction 1 as [s vs He|s l He Ha Hc|s l He Ha Ho Hc
                  |s items n He Ha Ho Hu Hi Ht Hn _ [d IH]].
  - exists O. intros [|fuel] Hf; [lia|]. cbn [isEnum toEnumOptions]. rewrite He.
    cbn [truthy]. split; [reflexivity|]. eexists. split; [reflexivity|].
    apply length_map.
  - exists O. intros [|fuel] Hf; [lia|]. cbn [isEnum toEnumOptions]. rewrite He, Ha.
    cbn [truthy all_const]. rewrite Hc. cbn [bind]. split; [reflexivity|].
    destruct (mapM_toEnum l Hc) as (os & E & Hl). rewrite E. cbn [bind]. eauto.
  - exists O. intros [|fuel] Hf; [lia|]. cbn [isEnum toEnumOptions].
    rewrite He, Ha, (all_const_falsy _ Ha), Ho. cbn [truthy all_const bind].
    rewrite Hc. cbn [bind]. split; [reflexivity|].
    destruct (mapM_toEnum l Hc) as (os & E & Hl). rewrite E. cbn [bind]. eauto.
  - exists (S d). intros [|fuel] Hf; [lia|]. cbn [isEnum toEnumOptions].
    rewrite He, Ha, Ho, (all_const_falsy _ Ha), (all_const_falsy _ Ho). cbn [bind].
    rewrite Hu, Hi, Ht, Hn. cbn [andb negb].
    destruct (IH fuel ltac:(lia)) as [E1 E2]. split; [exact E1|].
    destruct items; try exact E2. discriminate Ht.
Qed.

Lemma choice_schema_is_enum : enum_by choice_schema 2.
Proof.
  apply by_items
    with (items := JObj [("oneOf", JArr [JObj [("const", JStr "a"); ("title", JStr "A")];
                                         JObj [("enum", JArr [JStr "b"])]])]);
    try reflexivity.
  apply (by_oneOf _ [JObj [("const", JStr "a"); ("title", JStr "A")];
                     JObj [("enum", JArr [JStr "b"])]]); reflexivity.
Qed.

Lemma enum_options_are_produced_witness :
  exists d, forall fuel, (d < fuel)%nat ->
    isEnum fuel choice_schema = Ok true /\
    exists os, toEnumOptions fuel choice_schema = Ok (JArr os) /\ List.length os = 2%nat.
Proof. exact (enum_options_are_produced choice_schema 2 choice_schema_is_enum). Defined.

Lemma toEnum_outcome s : toEnum s = Throw TypeError \/ exists o, toEnum s = Ok o.
Proof.
  unfold toEnum.
  destruct s as [|b|n|x|l|ms]; [left; reflexivity| | | | |];
    (match goal with
     | |- context [own "const" ?s] => destruct (own "const" s) as [c|]
     end; [right; cbn [bind]; eauto|]);
    (match goal with
     | |- context [own "enum" ?s] =>
         destruct (own "enum" s) as [[| | | | |]|]; cbn; eauto
     end).
Qed.

Lemma toEnum_plain m :
  m <> JNull -> own "const" m = None -> own "enum" m = None ->
  toEnum m = Throw TypeError.
Proof.
  intros Hn Hc He. unfold toEnum. rewrite Hc, He.
  destruct m; [contradiction| | | | |]; reflexivity.
Qed.

Lemma mapM_toEnum_throws l m :
  In m l -> toEnum m = Throw TypeError -> mapM toEnum l = Throw TypeError.
Proof.
  induction l as [|x l IH]; intros Hin Hm; [contradiction|]. cbn [mapM].
  destruct (toEnum_outcome x) as [E|[o E]]; rewrite E; cbn [bind]; [reflexivity|].
  destruct Hin as [->|Hin]; [congruence|]. rewrite (IH Hin Hm). reflexivity.
Qed.

(** X7. The options are taken from [anyOf] whenever it is present, also
    when the schema is an enum by its [oneOf] only: if an alternative of
    [anyOf] has neither [const] nor [enum], [isEnum] answers yes,
    [toEnumOptions] raises a [TypeError] on that alternative, and so does
    the step of the compiler that fills the options. *)
Theorem anyOf_shadows_oneOf_options fuel s l m f :
  truthy (own "enum" s) = false ->
  own "anyOf" s = Some (JArr l) ->
  In m l -> m <> JNull -> own "const" m = None -> own "enum" m = None ->
  all_const (own "anyOf" s) = Ok false ->
  all_const (own "oneOf" s) = Ok true ->
  isEnum (S fuel) s = Ok true /\
  toEnumOptions (S fuel) s = Throw TypeError /\
  enum_part (S fuel) s f = Throw TypeError.
Proof.
  intros He Ha Hin Hn Hc Hm Hany Hone.
  assert (E1 : isEnum (S fuel) s = Ok true).
  { cbn [isEnum]. rewrite He, Hany. cbn [bind]. rewrite Hone. reflexivity. }
  assert (E2 : toEnumOptions (S fuel) s = Throw TypeError).
  { cbn [toEnumOptions]. rewrite He, Ha. cbn [truthy].
    rewrite (mapM_toEnum_throws l m Hin (toEnum_plain m Hn Hc Hm)). reflexivity. }
  split; [exact E1|]. split; [exact E2|].
  unfold enum_part. rewrite E1. cbn [bind].
  destruct (set_to "multiple" (Some (JBool (is_str "array" (type f)))) f) as [f1| |] eqn:E;
    cbn [bind].
  - rewrite E2. reflexivity.
  - unfold set_to in E. destruct (templateOptions f); [discriminate|congruence].
  - unfold set_to in E. destruct (templateOptions f); discriminate.
Qed.

Lemma anyOf_shadows_oneOf_options_witness :
  isEnum 1 shadowed_schema = Ok true /\
  toEnumOptions 1 shadowed_schema = Throw TypeError /\
  enum_part 1 shadowed_schema empty_field = Throw TypeError.
Proof.
  apply (anyOf_shadows_oneOf_options O shadowed_schema
           [JObj [("type", JStr "string")]] (JObj [("type", JStr "string")]));
    try reflexivity.
  - left. reflexivity.
  - discriminate.
Defined.

(* --------------------------------------------------------------------- *)
(** *** The descriptor of a [oneOf] or [anyOf]                             *)

Lemma spread_hidden_sets compile f h log f' log' :
  spread_hidden compile f h log = Ok (f', log') -> hideExpression f' = Some h.
Proof.
  unfold spread_hidden. intro H. bind_ok H fl Hfl. destruct fl as [f1 l1].
  injection H as <- _. destruct f1; reflexivity.
Qed.

Lemma union_branches compile m propKey l : forall i acc log branches log',
  forEach (fun acc (si : nat * json) =>
             let '(fields, log) := acc in
             '(f, log) <- compile (Some true) (Some (snd si)) propKey log ;;
             '(f, log) <- spread_hidden compile f (HideUnlessSelected m (fst si)) log ;;
             Ok ((fields ++ [f])%list, log))
          (with_index i l) (acc, log) = Ok (branches, log') ->
  exists new, branches = (acc ++ new)%list /\ List.length new = List.length l /\
    forall j b, nth_error new j = Some b ->
                hideExpression b = Some (HideUnlessSelected m (i + j)).
Proof.
  induction l as [|s l IH]; intros i acc log branches log' H;
    cbn [with_index forEach] in H.
  - injection H as <- _. exists []. rewrite app_nil_r. split; [reflexivity|].
    split; [reflexivity|]. intros [|j] b Hb; discriminate.
  - bind_ok H acc1 H1. destruct acc1 as [fields1 log1].
    cbn [fst snd] in H1. bind_ok H1 fl Hc. destruct fl as [f0 l0].
    bind_ok H1 fl2 Hs. destruct fl2 as [f1 l1]. injection H1 as <- <-.
    destruct (IH _ _ _ _ _ H) as (new & -> & Hlen & Hnew).
    exists (f1 :: new). rewrite <- app_assoc. split; [reflexivity|].
    split; [cbn; rewrite Hlen; reflexivity|].
    intros [|j] b Hb; cbn in Hb.
    + injection Hb as <-. rewrite Nat.add_0_r.
      apply (spread_hidden_sets _ _ _ _ _ _ Hs).
    + rewrite <- Nat.add_succ_comm. apply (Hnew j b Hb).
Qed.

Lemma union_options l : forall i options,
  mapM (fun si : nat * json =>
          title <- prop "title" (snd si) ;;
          Ok (JObj (optional "label" title ++ [("value", JNum (Z.of_nat (fst si)))])%list))
       (with_index i l) = Ok options ->
  List.length options = List.length l /\
  forall j o, nth_error options j = Some o ->
              own "value" o = Some (JNum (Z.of_nat (i + j))).
Proof.
  induction l as [|s l IH]; intros i options H; cbn [with_index mapM] in H.
  - injection H as <-. split; [reflexivity|]. intros [|j] o Ho; discriminate.
  - bind_ok H o1 H1. bind_ok H os Hos. injection H as <-.
    destruct (IH _ _ Hos) as [Hlen Hval]. split; [cbn; rewrite Hlen; reflexivity|].
    intros [|j] o Ho; cbn in Ho.
    + injection Ho as <-. cbn [fst snd] in H1. bind_ok H1 title Ht. injection H1 as <-.
      rewrite Nat.add_0_r. destruct title; reflexivity.
    + rewrite <- Nat.add_succ_comm. apply (Hval j o Ho).
Qed.

(** X8. What [resolveMultiSchema] returns for [n] alternatives is a
    [union] of two children: a selector of type [enum] ([multiple] exactly
    for [anyOf]) with [n] options, the [i]-th of value [i], and a group of
    [n] branches, the [i]-th hidden by the predicate of alternative [i];
    an alternative's own [hideExpression] is replaced by it. *)
Theorem union_has_a_selector_and_its_branches compile m l propKey log u log' :
  resolveMultiSchema compile m (Some (JArr l)) propKey log = Ok (u, log') ->
  type u = Some (JStr "union") /\
  exists selector options branches,
    fieldGroup u = Some [selector; set_fieldGroup (Some branches) empty_field] /\
    type selector = Some (JStr "enum") /\
    templateOptions selector
    = Some [("multiple", JBool (match m with AnyOf => true | OneOf => false end));
            ("options", JArr options)] /\
    List.length options = List.length l /\
    List.length branches = List.length l /\
    (forall i o, nth_error options i = Some o ->
                 own "value" o = Some (JNum (Z.of_nat i))) /\
    (forall i b, nth_error branches i = Some b ->
                 hideExpression b = Some (HideUnlessSelected m i)).
Proof.
  unfold resolveMultiSchema. intro H. bind_ok H options Ho.
  bind_ok H bl Hb. destruct bl as [branches l1]. injection H as <- _.
  split; [reflexivity|].
  destruct (union_options l O options Ho) as [Hlen Hval].
  destruct (union_branches compile m propKey l O [] log branches l1 Hb)
    as (new & -> & Hlb & Hnew).
  eexists. exists options, new. split; [reflexivity|]. split; [reflexivity|].
  split; [reflexivity|]. split; [exact Hlen|]. split; [exact Hlb|].
  split; [exact Hval|exact Hnew].
Qed.

Lemma union_has_a_selector_and_its_branches_witness :
  exists u log',
    resolveMultiSchema (_toFieldConfig 3 (plain_env JNull)) OneOf
      (Some (JArr [JObj [("type", JStr "string"); ("title", JStr "text")];
                   JObj [("type", JStr "null")]])) ["value"] []
    = Ok (u, log') /\ type u = Some (JStr "union").
Proof.
  eexists. eexists. split; [reflexivity|].
  eapply (union_has_a_selector_and_its_branches
            (_toFieldConfig 3 (plain_env JNull)) OneOf
            [JObj [("type", JStr "string"); ("title", JStr "text")];
             JObj [("type", JStr "null")]] ["value"] []).
  reflexivity.
Defined.

(* --------------------------------------------------------------------- *)
(** *** Array indices                                                      *)

Lemma read_index_digits fuel : forall n acc,
  (n < fuel)%nat ->
  exists L, forall v,
    read_decimal v (index_digits fuel n acc) = read_decimal (v * 10 ^ L + n) acc.
Proof.
  induction fuel as [|fuel IH]; intros n acc Hn; [lia|].
  cbn [index_digits].
  assert (Hd : (nat_of_ascii (digit (n mod 10)) - 48 = n mod 10)%nat).
  { unfold digit. rewrite nat_ascii_embedding.
    - lia.
    - pose proof (Nat.mod_upper_bound n 10). lia. }
  destruct (n / 10 =? 0)%nat eqn:E.
  - apply Nat.eqb_eq in E. exists 1%nat. intro v. cbn [read_decimal]. rewrite Hd.
    f_equal. pose proof (Nat.div_mod_eq n 10). cbn [Nat.pow]. lia.
  - apply Nat.eqb_neq in E.
    destruct (IH (n / 10)%nat (String (digit (n mod 10)) acc)) as [L HL].
    { pose proof (Nat.div_mod_eq n 10). pose proof (Nat.mod_upper_bound n 10). lia. }
    exists (S L). intro v. rewrite HL. cbn [read_decimal]. rewrite Hd. f_equal.
    pose proof (Nat.div_mod_eq n 10). cbn [Nat.pow]. lia.
Qed.

Lemma read_index_key n : read_decimal 0 (index_key n) = n.
Proof.
  destruct (read_index_digits (S n) n EmptyString) as [L HL]; [lia|].
  unfold index_key. rewrite HL. reflexivity.
Qed.

Lemma index_key_injective i j : index_key i = index_key j -> i = j.
Proof. intro H. rewrite <- (read_index_key i), H. apply read_index_key. Qed.

Lemma index_digits_head fuel : forall n acc,
  acc = EmptyString \/ (exists d s, acc = String (digit d) s /\ (d < 10)%nat) ->
  index_digits fuel n acc = EmptyString \/
  exists d s, index_digits fuel n acc = String (digit d) s /\ (d < 10)%nat.
Proof.
  induction fuel as [|fuel IH]; intros n acc Hacc; cbn [index_digits]; [exact Hacc|].
  assert (H : exists d s, String (digit (n mod 10)) acc = String (digit d) s /\ (d < 10)%nat).
  { exists (n mod 10)%nat, acc. split; [reflexivity|]. apply Nat.mod_upper_bound. lia. }
  destruct (n / 10 =? 0)%nat; [right; exact H|]. apply IH. right. exact H.
Qed.

Lemma index_key_not_length n : String.eqb (index_key n) "length" = false.
Proof.
  apply String.eqb_neq. intro E. unfold index_key in E.
  destruct (index_digits_head (S n) n EmptyString (or_introl eq_refl))
    as [H|(d & s & H & Hd)]; rewrite H in E; [discriminate|].
  injection E as E _. unfold digit in E.
  apply (f_equal nat_of_ascii) in E. rewrite nat_ascii_embedding in E by lia.
  cbn in E. lia.
Qed.

Lemma assoc_indexed {V} (l : list V) : forall i n,
  assoc (index_key n) (indexed i l)
  = if (n <? i)%nat then None else nth_error l (n - i).
Proof.
  induction l as [|x l IH]; intros i n; cbn [indexed assoc].
  - destruct (n <? i)%nat; [reflexivity|]. destruct (n - i)%nat; reflexivity.
  - destruct (String.eqb_spec (index_key n) (index_key i)) as [E|Hne].
    + apply index_key_injective in E. subst i. rewrite Nat.ltb_irrefl, Nat.sub_diag.
      reflexivity.
    + rewrite IH. destruct (n <? i)%nat eqn:E1.
      * apply Nat.ltb_lt in E1. destruct (n <? S i)%nat eqn:E2; [reflexivity|].
        apply Nat.ltb_ge in E2. lia.
      * apply Nat.ltb_ge in E1. assert (n <> i) by (intros ->; apply Hne; reflexivity).
        destruct (n <? S i)%nat eqn:E2; [apply Nat.ltb_lt in E2; lia|].
        replace (n - i)%nat with (S (n - S i)) by lia. reflexivity.
Qed.

(** Reading an array at an index: [a[n]] is the [n]-th element, and
    [undefined] from the length on. *)
Lemma own_index l n : own (index_key n) (JArr l) = nth_error l n.
Proof.
  cbn [own]. rewrite index_key_not_length. cbn [own_members].
  rewrite assoc_indexed. cbn. rewrite Nat.sub_0_r. reflexivity.
Qed.

Lemma last_segment_dash k : last_segment (k ++ ["-"]) = Some (JStr "-").
Proof. unfold last_segment. rewrite rev_app_distr. reflexivity. Qed.

(** X9. The [fieldArray] getter of an array descriptor.  For a tuple
    ([items] is an array) it compiles the item schema at the position equal
    to the number of fields already in the group, [additionalItems] when
    that position holds nothing truthy, and returns [{}] when neither is
    set.  For a single item schema it compiles that schema under the key
    path extended by ['-'], and the path is extended once only: reading the
    getter again compiles under the same path. *)
Theorem fieldArray_getter_by_position compile this schema a k log :
  (forall l, own "items" schema = Some (JArr l) ->
     fieldArray_get compile this schema a k log
     = let item := match nth_error l (List.length (children this)) with
                   | Some i => if truthy (Some i) then Some i
                               else own "additionalItems" schema
                   | None => own "additionalItems" schema
                   end in
       if truthy item
       then '(f, log) <- compile a item k log ;; Ok (f, k, log)
       else Ok (empty_field, k, log)) /\
  (is_array (own "items" schema) = false ->
     exists k', (k' = k \/ k' = (k ++ ["-"])%list) /\
       last_segment k' = Some (JStr "-") /\
       fieldArray_get compile this schema a k log
       = ('(f, log) <- compile a (own "items" schema) k' log ;; Ok (f, k', log)) /\
       forall this' log2,
         fieldArray_get compile this' schema a k' log2
         = ('(f, log) <- compile a (own "items" schema) k' log2 ;; Ok (f, k', log))).
Proof.
  split.
  - intros l Hl. unfold fieldArray_get, children. rewrite Hl. cbn [is_array negb].
    cbn [member_of]. rewrite own_index. cbn [bind].
    destruct (fieldGroup this) as [g|]; cbn [List.length];
      (match goal with
       | |- context [nth_error l ?n] => destruct (nth_error l n) as [i|]
       end; [destruct (truthy (Some i))|]; reflexivity).
  - intro Hi. unfold fieldArray_get. rewrite Hi. cbn [negb].
    destruct (is_str "-" (last_segment k)) eqn:Ek.
    + exists k. split; [left; reflexivity|].
      assert (E : last_segment k = Some (JStr "-")).
      { destruct (last_segment k) as [[| | |s| |]|]; try discriminate.
        cbn in Ek. apply String.eqb_eq in Ek. subst. reflexivity. }
      split; [exact E|]. split; [reflexivity|]. intros this' log2. rewrite Ek. reflexivity.
    + exists (k ++ ["-"])%list. split; [right; reflexivity|].
      split; [apply last_segment_dash|]. split; [reflexivity|].
      intros this' log2. rewrite last_segment_dash. reflexivity.
Qed.

Lemma fieldArray_getter_by_position_witness :
  fieldArray_get (_toFieldConfig 3 (plain_env tuple_schema))
                 (set_fieldGroup (Some [empty_field; empty_field]) empty_field)
                 tuple_schema None ["pair"] []
  = ('(f, log) <- _toFieldConfig 3 (plain_env tuple_schema) None
                     (Some (JObj [("type", JStr "boolean")])) ["pair"] [] ;;
     Ok (f, ["pair"], log)).
Proof.
  apply (proj1 (fieldArray_getter_by_position
                  (_toFieldConfig 3 (plain_env tuple_schema))
                  (set_fieldGroup (Some [empty_field; empty_field]) empty_field)
                  tuple_schema None ["pair"] [])
               [JObj [("type", JStr "string")]; JObj [("type", JStr "number")]]).
  reflexivity.
Defined.

(* --------------------------------------------------------------------- *)
(** *** The descriptor before the widget overlay                           *)

Lemma set_to_overlay k v f f' :
  set_to k v f = Ok f' -> overlay f' = overlay f.
Proof.
  unfold set_to. destruct (templateOptions f); [|discriminate].
  intros [= <-]. reflexivity.
Qed.

Lemma label_from_key_overlay propKey f f' :
  label_from_key propKey f = Ok f' -> overlay f' = overlay f.
Proof.
  unfold label_from_key. intro H. bind_ok H l Hl. apply (set_to_overlay _ _ _ _ H).
Qed.

Lemma copy_owned_overlay schema from to f f' :
  copy_owned schema from to f = Ok f' -> overlay f' = overlay f.
Proof.
  unfold copy_owned. destruct (own from schema); [apply set_to_overlay|].
  intros [= <-]. reflexivity.
Qed.

Lemma validate_owned_overlay schema from to v f f' :
  validate_owned schema from to v f = Ok f' -> overlay f' = overlay f.
Proof.
  unfold validate_owned. destruct (own from schema); [|intros [= <-]; reflexivity].
  intro H. bind_ok H f1 H1. injection H as <-. cbn.
  apply (set_to_overlay _ _ _ _ H1).
Qed.

Lemma number_case_overlay schema propKey f f' :
  number_case schema propKey f = Ok f' -> overlay f' = overlay f.
Proof.
  unfold number_case. intro H.
  bind_ok H f1 H1. bind_ok H f2 H2. bind_ok H f3 H3. bind_ok H f4 H4. bind_ok H f5 H5.
  rewrite (validate_owned_overlay _ _ _ _ _ _ H), (validate_owned_overlay _ _ _ _ _ _ H5),
    (validate_owned_overlay _ _ _ _ _ _ H4), (copy_owned_overlay _ _ _ _ _ H3),
    (copy_owned_overlay _ _ _ _ _ H2).
  cbn. apply (label_from_key_overlay _ _ _ H1).
Qed.

Lemma string_case_overlay schema propKey f f' :
  string_case schema propKey f = Ok f' -> overlay f' = overlay f.
Proof.
  unfold string_case. intro H.
  bind_ok H f1 H1. bind_ok H f2 H2. bind_ok H f3 H3.
  assert (E : overlay f' = overlay f3).
  { destruct (is_str "-" (last_segment propKey));
      [apply (set_to_overlay _ _ _ _ H)|apply (label_from_key_overlay _ _ _ H)]. }
  rewrite E, (copy_owned_overlay _ _ _ _ _ H3), (copy_owned_overlay _ _ _ _ _ H2),
    (copy_owned_overlay _ _ _ _ _ H1).
  destruct (own "type" schema) as [[| | | |types|]|]; try reflexivity.
  destruct (has_null types); reflexivity.
Qed.

Lemma array_case_overlay schema propKey f f' :
  array_case schema propKey f = Ok f' -> overlay f' = overlay f.
Proof.
  unfold array_case. intro H.
  bind_ok H f1 H1. bind_ok H f2 H2. bind_ok H f3 H3.
  rewrite (validate_owned_overlay _ _ _ _ _ _ H), (validate_owned_overlay _ _ _ _ _ _ H3),
    (validate_owned_overlay _ _ _ _ _ _ H2), (label_from_key_overlay _ _ _ H1).
  reflexivity.
Qed.

Lemma object_case_overlay compile e a schema propKey f log f' log' :
  testSpec e = None ->
  object_case compile e a schema propKey f log = Ok (f', log') ->
  overlay f' = overlay f.
Proof.
  unfold object_case. intros Ht H. bind_ok H deps Hd. destruct deps as [pd sd].
  rewrite Ht in H.
  destruct (own "properties" schema) as [ps|].
  - bind_ok H g1 H1. destruct g1 as [g1 l1].
    bind_ok H g2 H2. destruct g2 as [g2 l2].
    bind_ok H g3 H3. destruct g3 as [g3 l3].
    injection H as <- _. reflexivity.
  - destruct (own "oneOf" schema) as [o|].
    + bind_ok H g1 H1. destruct g1 as [g1 l1].
      bind_ok H g2 H2. destruct g2 as [g2 l2].
      bind_ok H g3 H3. destruct g3 as [g3 l3].
      injection H as <- _. reflexivity.
    + injection H as <- _. reflexivity.
Qed.

Lemma switch_type_overlay compile fuel e a schema propKey f log schema' f' log' :
  testSpec e = None ->
  switch_type compile fuel e a schema propKey f log = Ok (schema', f', log') ->
  overlay f' = overlay f.
Proof.
  intros Ht H. unfold switch_type in H.
  destruct (is_str "null" (type f)).
  { injection H as _ <- _. reflexivity. }
  destruct (is_str "boolean" (type f)).
  { bind_ok H f1 H1. bind_ok H f2 H2. injection H as _ <- _.
    rewrite (set_to_overlay _ _ _ _ H2). apply (label_from_key_overlay _ _ _ H1). }
  destruct (is_str "number" (type f) || is_str "integer" (type f)).
  { bind_ok H f1 H1. injection H as _ <- _. apply (number_case_overlay _ _ _ _ H1). }
  destruct (is_str "string" (type f)).
  { bind_ok H f1 H1. injection H as _ <- _. apply (string_case_overlay _ _ _ _ H1). }
  destruct (is_str "object" (type f)).
  { bind_ok H fl H1. destruct fl as [f1 l1]. injection H as _ <- _.
    apply (object_case_overlay _ _ _ _ _ _ _ _ _ Ht H1). }
  destruct (is_str "array" (type f)).
  { bind_ok H f1 H1. bind_ok H s1 H2. bind_ok H en H3. injection H as _ <- _.
    rewrite <- (array_case_overlay _ _ _ _ H1). destruct en; reflexivity. }
  injection H as _ <- _. reflexivity.
Qed.


Lemma const_part_overlay schema f f' :
  const_part schema f = Ok f' -> overlay f' = overlay f.
Proof.
  unfold const_part. destruct (own "const" schema) as [c|]; [|intros [= <-]; reflexivity].
  intro H. bind_ok H f1 H1. injection H as <-.
  rewrite <- (set_to_overlay _ _ _ _ H1).
  cbn [type addValidator set_validators].
  destruct (truthy (type f1)); reflexivity.
Qed.

Lemma x_schema_form_part_overlay e schema f log f' log' :
  x_schema_form_part e schema f log = Ok (f', log') -> overlay f' = overlay f.
Proof.
  unfold x_schema_form_part.
  destruct (own "x-schema-form" schema) as [x|]; [|intros [= <- _]; reflexivity].
  intro H. bind_ok H xtype Hx.
  destruct (own "condition" x) as [c|].
  - bind_ok H source Hs. bind_ok H fl Hfl. destruct fl as [f2 l2].
    injection H as <- _.
    assert (P2 : overlay f2 = overlay f).
    { destruct source as [[| | |src| |]|]; try discriminate.
      - destruct (parses e src); injection Hfl as <- _;
          destruct xtype, (own "wrappers" x);
          try (destruct (is_str "object" _)); reflexivity.
      - injection Hfl as <- _.
        destruct xtype, (own "wrappers" x);
          try (destruct (is_str "object" _)); reflexivity. }
    rewrite <- P2. destruct (own "disableAutoClear" c); reflexivity.
  - injection H as <- _.
    destruct xtype, (own "wrappers" x); try (destruct (is_str "object" _)); reflexivity.
Qed.

Lemma enum_part_overlay fuel schema f f' :
  enum_part fuel schema f = Ok f' -> overlay f' = overlay f.
Proof.
  unfold enum_part. intro H. bind_ok H b Hb.
  destruct b; [|injection H as <-; reflexivity].
  bind_ok H f1 H1. bind_ok H o Ho.
  rewrite (set_to_overlay _ _ _ _ H). cbn [overlay set_type].
  apply (set_to_overlay _ _ _ _ H1).
Qed.

Lemma finish_plain e schema f f' :
  map_hook e = None -> truthy (own "widget" schema) = false ->
  finish e schema f = Ok f' -> f' = f.
Proof.
  unfold finish. intros -> -> H. cbn [bind] in H. injection H as <-. reflexivity.
Qed.

Lemma after_switch_overlay fuel e schema f log f' log' :
  map_hook e = None -> truthy (own "widget" schema) = false ->
  after_switch fuel e schema f log = Ok (f', log') -> overlay f' = overlay f.
Proof.
  intros Hmap Hw H. unfold after_switch in H.
  bind_ok H f1 H1. bind_ok H fl H2. destruct fl as [f2 l2].
  bind_ok H f3 H3. bind_ok H f4 H4. injection H as <- _.
  rewrite (finish_plain _ _ _ _ Hmap Hw H4), (enum_part_overlay _ _ _ _ H3),
    (x_schema_form_part_overlay _ _ _ _ _ _ H2).
  apply (const_part_overlay _ _ _ H1).
Qed.

Lemma base_field_overlay a schema f : base_field a schema = Ok f -> overlay f = None.
Proof. unfold base_field. intro H. bind_ok H l Hl. injection H as <-. reflexivity. Qed.

(* --------------------------------------------------------------------- *)
(** *** The children of an object descriptor                               *)

Lemma same_parts_refl f : same_parts f f.
Proof. repeat split. Qed.

Lemma same_parts_trans f1 f2 f3 :
  same_parts f1 f2 -> same_parts f2 f3 -> same_parts f1 f3.
Proof.
  intros (A1 & A2 & A3 & A4) (B1 & B2 & B3 & B4).
  repeat split; congruence.
Qed.

Lemma set_to_parts k v f f' : set_to k v f = Ok f' -> same_parts f f'.
Proof.
  unfold set_to. destruct (templateOptions f); [|discriminate].
  intros [= <-]. repeat split.
Qed.

Lemma const_part_parts schema f f' : const_part schema f = Ok f' -> same_parts f f'.
Proof.
  unfold const_part. destruct (own "const" schema) as [c|];
    [|intros [= <-]; apply same_parts_refl].
  intro H. bind_ok H f1 H1. injection H as <-.
  apply (same_parts_trans _ _ _ (set_to_parts _ _ _ _ H1)).
  cbn [type addValidator set_validators]. destruct (truthy (type f1)); repeat split.
Qed.

Lemma x_schema_form_part_parts e schema f log f' log' :
  x_schema_form_part e schema f log = Ok (f', log') -> same_parts f f'.
Proof.
  unfold x_schema_form_part.
  destruct (own "x-schema-form" schema) as [x|]; [|intros [= <- _]; apply same_parts_refl].
  intro H. bind_ok H xtype Hx.
  destruct (own "condition" x) as [c|].
  - bind_ok H source Hs. bind_ok H fl Hfl. destruct fl as [f2 l2].
    injection H as <- _.
    assert (P2 : same_parts f f2).
    { destruct source as [[| | |src| |]|]; try discriminate.
      - destruct (parses e src); injection Hfl as <- _;
          destruct xtype, (own "wrappers" x);
          try (destruct (is_str "object" _)); repeat split.
      - injection Hfl as <- _.
        destruct xtype, (own "wrappers" x);
          try (destruct (is_str "object" _)); repeat split. }
    apply (same_parts_trans _ _ _ P2).
    destruct (own "disableAutoClear" c); repeat split.
  - injection H as <- _.
    destruct xtype, (own "wrappers" x); try (destruct (is_str "object" _)); repeat split.
Qed.

Lemma enum_part_parts fuel schema f f' : enum_part fuel schema f = Ok f' -> same_parts f f'.
Proof.
  unfold enum_part. intro H. bind_ok H b Hb.
  destruct b; [|injection H as <-; apply same_parts_refl].
  bind_ok H f1 H1. bind_ok H o Ho.
  apply (same_parts_trans _ _ _ (set_to_parts _ _ _ _ H1)).
  apply (same_parts_trans _ (set_type (Some (JStr "enum")) f1)); [repeat split|].
  apply (set_to_parts _ _ _ _ H).
Qed.

Lemma finish_parts e schema f f' :
  map_hook e = None -> finish e schema f = Ok f' -> same_parts f f'.
Proof.
  unfold finish. intros -> H. bind_ok H f1 H1. injection H as <-.
  destruct (truthy (own "widget" schema)); [|injection H1 as <-; apply same_parts_refl].
  bind_ok H1 c Hc. injection H1 as <-. destruct (truthy c); repeat split.
Qed.

Lemma after_switch_parts fuel e schema f log f' log' :
  map_hook e = None ->
  after_switch fuel e schema f log = Ok (f', log') -> same_parts f f'.
Proof.
  intros Hmap H. unfold after_switch in H.
  bind_ok H f1 H1. bind_ok H fl H2. destruct fl as [f2 l2].
  bind_ok H f3 H3. bind_ok H f4 H4. injection H as <- _.
  apply (same_parts_trans _ _ _ (const_part_parts _ _ _ H1)).
  apply (same_parts_trans _ _ _ (x_schema_form_part_parts _ _ _ _ _ _ H2)).
  apply (same_parts_trans _ _ _ (enum_part_parts _ _ _ _ H3)).
  apply (finish_parts _ _ _ _ Hmap H4).
Qed.

Lemma base_field_type a schema f : base_field a schema = Ok f -> type f = guessType schema.
Proof. unfold base_field. intro H. bind_ok H l Hl. injection H as <-. reflexivity. Qed.



Lemma resolveDependencies_none s :
  truthy (own "dependencies" s) = false -> resolveDependencies s = Ok ([], []).
Proof.
  intro H. unfold resolveDependencies. rewrite H.
  destruct (own "dependencies" s); reflexivity.
Qed.



(* --------------------------------------------------------------------- *)
(** *** Objects without properties, nullable strings, conditions           *)

Lemma set_to_only k v f f' :
  set_to k v f = Ok f' -> exists to, f' = set_templateOptions to f.
Proof.
  unfold set_to. destruct (templateOptions f); [|discriminate].
  intros [= <-]. eexists. reflexivity.
Qed.

Lemma set_to_type k v f f' : set_to k v f = Ok f' -> type f' = type f.
Proof. intro H. destruct (set_to_only _ _ _ _ H) as [to ->]. reflexivity. Qed.

Lemma set_to_autoClear k v f f' : set_to k v f = Ok f' -> autoClear f' = autoClear f.
Proof. intro H. destruct (set_to_only _ _ _ _ H) as [to ->]. reflexivity. Qed.

Lemma const_part_type schema f f' : const_part schema f = Ok f' -> type f' = type f.
Proof.
  unfold const_part. destruct (own "const" schema) as [c|]; [|intros [= <-]; reflexivity].
  intro H. bind_ok H f1 H1. injection H as <-. rewrite <- (set_to_type _ _ _ _ H1).
  cbn [type addValidator set_validators]. destruct (truthy (type f1)); reflexivity.
Qed.

Lemma enum_part_type fuel schema f f' :
  enum_part fuel schema f = Ok f' -> type f' = type f \/ type f' = Some (JStr "enum").
Proof.
  unfold enum_part. intro H. bind_ok H b Hb.
  destruct b; [|injection H as <-; left; reflexivity].
  bind_ok H f1 H1. bind_ok H o Ho. right. rewrite (set_to_type _ _ _ _ H). reflexivity.
Qed.

Lemma enum_part_autoClear fuel schema f f' :
  enum_part fuel schema f = Ok f' -> autoClear f' = autoClear f.
Proof.
  unfold enum_part. intro H. bind_ok H b Hb.
  destruct b; [|injection H as <-; reflexivity].
  bind_ok H f1 H1. bind_ok H o Ho. rewrite (set_to_autoClear _ _ _ _ H).
  cbn [autoClear set_type]. apply (set_to_autoClear _ _ _ _ H1).
Qed.

Lemma finish_type e schema f f' :
  map_hook e = None -> finish e schema f = Ok f' ->
  type f' = type f /\ autoClear f' = autoClear f.
Proof.
  unfold finish. intros -> H. bind_ok H f1 H1. injection H as <-.
  destruct (truthy (own "widget" schema)); [|injection H1 as <-; split; reflexivity].
  bind_ok H1 c Hc. injection H1 as <-. destruct (truthy c); split; reflexivity.
Qed.

Lemma x_schema_form_part_absent e schema f log :
  own "x-schema-form" schema = None -> x_schema_form_part e schema f log = Ok (f, log).
Proof. intro H. unfold x_schema_form_part. rewrite H. reflexivity. Qed.

Lemma after_switch_type fuel e schema f log f' log' :
  map_hook e = None -> own "x-schema-form" schema = None ->
  after_switch fuel e schema f log = Ok (f', log') ->
  type f' = type f \/ type f' = Some (JStr "enum").
Proof.
  intros Hmap Hx H. unfold after_switch in H.
  bind_ok H f1 H1. rewrite (x_schema_form_part_absent _ _ _ _ Hx) in H. cbn [bind] in H.
  bind_ok H f3 H3. bind_ok H f4 H4. injection H as <- _.
  rewrite (proj1 (finish_type _ _ _ _ Hmap H4)), <- (const_part_type _ _ _ H1).
  apply (enum_part_type _ _ _ _ H3).
Qed.

(** X11. An object schema that has neither [properties] nor [oneOf]
    compiles, without a test override, a map hook and a [widget], to a
    descriptor with no children, whatever its [anyOf] and [dependencies]
    hold: the case ends before they are looked at.  Its type is
    [rawobject] unless [x-schema-form] or the enum step replaces it. *)
Theorem object_without_properties_is_raw fuel e a schema propKey log s f log' :
  map_hook e = None -> testSpec e = None ->
  resolveSchema fuel (root e) schema = Ok s ->
  guessType s = Some (JStr "object") ->
  own "properties" s = None -> own "oneOf" s = None ->
  truthy (own "widget" s) = false ->
  _toFieldConfig (S fuel) e a (Some schema) propKey log = Ok (f, log') ->
  overlay f = None /\ fieldGroup f = Some [] /\
  (own "x-schema-form" s = None ->
   type f = Some (JStr "rawobject") \/ type f = Some (JStr "enum")).
Proof.
  intros Hmap Htest Hres Ht Hp Ho Hw H. cbn [_toFieldConfig] in H.
  rewrite Hres in H. cbn [bind] in H.
  bind_ok H f0 H0. bind_ok H sw Hsw. destruct sw as [[s1 f1] l1].
  unfold switch_type in Hsw. rewrite (base_field_type _ _ _ H0), Ht in Hsw.
  cbn [is_str String.eqb Ascii.eqb Bool.eqb orb] in Hsw.
  bind_ok Hsw fl Hobj. destruct fl as [f2 l2]. injection Hsw as <- <- _.
  unfold object_case in Hobj. bind_ok Hobj deps Hd. destruct deps as [pd sd].
  rewrite Hp, Ho, Htest in Hobj. injection Hobj as <- _.
  split; [|split].
  - rewrite (after_switch_overlay _ _ _ _ _ _ _ Hmap Hw H).
    cbn [overlay set_fieldGroup set_type]. apply (base_field_overlay _ _ _ H0).
  - rewrite (proj1 (after_switch_parts _ _ _ _ _ _ _ Hmap H)). reflexivity.
  - intro Hx. apply (after_switch_type _ _ _ _ _ _ _ Hmap Hx H).
Qed.

Lemma object_without_properties_is_raw_witness :
  exists f log',
    _toFieldConfig 3 (plain_env bare_object_schema) None (Some bare_object_schema)
                   ["rule"] []
    = Ok (f, log')
    /\ fieldGroup f = Some [].
Proof.
  eexists. eexists. split; [reflexivity|].
  eapply (object_without_properties_is_raw 2 (plain_env bare_object_schema) None
            bare_object_schema ["rule"] [] bare_object_schema);
    reflexivity.
Defined.

Lemma label_from_key_only propKey f f' :
  label_from_key propKey f = Ok f' -> exists to, f' = set_templateOptions to f.
Proof.
  unfold label_from_key. intro H. bind_ok H l Hl. apply (set_to_only _ _ _ _ H).
Qed.

Lemma copy_owned_only schema from to f f' :
  copy_owned schema from to f = Ok f' -> exists o, f' = set_templateOptions o f.
Proof.
  unfold copy_owned. destruct (own from schema).
  - apply set_to_only.
  - intros [= <-]. exists (templateOptions f). destruct f; reflexivity.
Qed.

Lemma string_case_nullable schema propKey f f' types :
  own "type" schema = Some (JArr types) -> has_null types = true ->
  string_case schema propKey f = Ok f' ->
  parsers f' = Some NullableParser /\ type f' = type f /\ overlay f' = overlay f.
Proof.
  intros Ht Hn H. unfold string_case in H. rewrite Ht, Hn in H.
  bind_ok H f1 H1. bind_ok H f2 H2. bind_ok H f3 H3.
  destruct (copy_owned_only _ _ _ _ _ H1) as [o1 ->].
  destruct (copy_owned_only _ _ _ _ _ H2) as [o2 ->].
  destruct (copy_owned_only _ _ _ _ _ H3) as [o3 ->].
  destruct (is_str "-" (last_segment propKey)).
  - destruct (set_to_only _ _ _ _ H) as [o4 ->]. repeat split.
  - destruct (label_from_key_only _ _ _ H) as [o4 ->]. repeat split.
Qed.

(** X12. A string that may be null: for [type: ['string', 'null']], in
    either order, and without a map hook and a [widget], the field is
    compiled as a string and gets the parser that turns an empty input into
    [null]; later steps keep the parser. *)
Theorem nullable_string_gets_the_null_parser
    fuel e a schema propKey log s t0 t1 f log' :
  map_hook e = None ->
  resolveSchema fuel (root e) schema = Ok s ->
  own "type" s = Some (JArr [t0; t1]) ->
  (t0 = JStr "string" /\ t1 = JStr "null") \/ (t0 = JStr "null" /\ t1 = JStr "string") ->
  truthy (own "widget" s) = false ->
  _toFieldConfig (S fuel) e a (Some schema) propKey log = Ok (f, log') ->
  overlay f = None /\ parsers f = Some NullableParser /\
  (own "x-schema-form" s = None ->
   type f = Some (JStr "string") \/ type f = Some (JStr "enum")).
Proof.
  intros Hmap Hres Ht Hpair Hw H. cbn [_toFieldConfig] in H.
  rewrite Hres in H. cbn [bind] in H.
  bind_ok H f0 H0. bind_ok H sw Hsw. destruct sw as [[s1 f1] l1].
  assert (Hg : guessType s = Some (JStr "string")).
  { unfold guessType. rewrite Ht. cbn [truthy negb andb].
    destruct Hpair as [[-> ->]|[-> ->]]; reflexivity. }
  assert (Hnull : has_null [t0; t1] = true)
    by (destruct Hpair as [[-> ->]|[-> ->]]; reflexivity).
  unfold switch_type in Hsw. rewrite (base_field_type _ _ _ H0), Hg in Hsw.
  cbn [is_str String.eqb Ascii.eqb Bool.eqb orb] in Hsw.
  bind_ok Hsw f2 Hstr. injection Hsw as <- <- _.
  destruct (string_case_nullable _ _ _ _ _ Ht Hnull Hstr) as (Hp & Hty & Hov).
  split; [|split].
  - rewrite (after_switch_overlay _ _ _ _ _ _ _ Hmap Hw H), Hov.
    apply (base_field_overlay _ _ _ H0).
  - rewrite (proj1 (proj2 (proj2 (after_switch_parts _ _ _ _ _ _ _ Hmap H)))). exact Hp.
  - intro Hx. destruct (after_switch_type _ _ _ _ _ _ _ Hmap Hx H) as [E|E]; [|right; exact E].
    left. rewrite E, Hty, (base_field_type _ _ _ H0). exact Hg.
Qed.

Lemma nullable_string_gets_the_null_parser_witness :
  exists f log',
    _toFieldConfig 3 (plain_env nullable_schema) None (Some nullable_schema) ["name"] []
    = Ok (f, log')
    /\ parsers f = Some NullableParser.
Proof.
  eexists. eexists. split; [reflexivity|].
  eapply (nullable_string_gets_the_null_parser 2 (plain_env nullable_schema) None
            nullable_schema ["name"] [] nullable_schema (JStr "null") (JStr "string"));
    try reflexivity.
  right. split; reflexivity.
Defined.

(* A condition that compiles. *)

Lemma x_schema_form_part_compiled e schema x c src f log :
  own "x-schema-form" schema = Some x ->
  own "condition" x = Some c ->
  own "hideExpression" c = Some (JStr src) ->
  parses e src = true ->
  exists f',
    x_schema_form_part e schema f log = Ok (f', log)
    /\ hideExpression f' = Some (HideByCondition src)
    /\ (own "disableAutoClear" c <> None -> autoClear f' = Some false)
    /\ (own "disableAutoClear" c = None -> autoClear f' = autoClear f).
Proof.
  intros Hx Hc Hs Hp. unfold x_schema_form_part. rewrite Hx.
  assert (Ex : member_of "type" (Some x) = Ok (own "type" x))
    by (destruct x; try reflexivity; discriminate).
  assert (Ec : member_of "hideExpression" (Some c) = Ok (Some (JStr src)))
    by (rewrite <- Hs; destruct c; try reflexivity; discriminate).
  rewrite Ex. cbn [bind]. rewrite Hc, Ec. cbn [bind]. rewrite Hp. cbn [bind].
  eexists. split; [reflexivity|].
  destruct (own "disableAutoClear" c), (own "type" x), (own "wrappers" x);
    try (destruct (is_str "object" _));
    (split; [reflexivity|split; [intro; try reflexivity; congruence
                                |intro; try reflexivity; discriminate]]).
Qed.

(** X13. A condition whose [hideExpression] source compiles is installed:
    without a map hook, a test override and a [widget], the descriptor of a
    schema whose [x-schema-form.condition.hideExpression] is accepted by
    [new Function] comes back hidden by that source, and with [autoClear]
    off when the condition has [disableAutoClear]. *)
Theorem compilable_condition_is_installed
    fuel e a schema propKey log s x c src f log' :
  map_hook e = None -> testSpec e = None ->
  resolveSchema fuel (root e) schema = Ok s ->
  own "x-schema-form" s = Some x ->
  own "condition" x = Some c ->
  own "hideExpression" c = Some (JStr src) ->
  parses e src = true ->
  truthy (own "widget" s) = false ->
  _toFieldConfig (S fuel) e a (Some schema) propKey log = Ok (f, log') ->
  overlay f = None /\
  hideExpression f = Some (HideByCondition src) /\
  (own "disableAutoClear" c <> None -> autoClear f = Some false).
Proof.
  intros Hmap Htest Hres Hx Hc Hs Hp Hw H. cbn [_toFieldConfig] in H.
  rewrite Hres in H. cbn [bind] in H.
  bind_ok H f0 H0. bind_ok H sw Hsw. destruct sw as [[s1 f1] l1].
  assert (Hw1 : truthy (own "widget" s1) = false).
  { rewrite (switch_type_own _ _ _ _ _ _ _ _ _ _ _ "widget" ltac:(discriminate) Hsw).
    exact Hw. }
  assert (Hov : overlay f = None).
  { rewrite (after_switch_overlay _ _ _ _ _ _ _ Hmap Hw1 H),
      (switch_type_overlay _ _ _ _ _ _ _ _ _ _ _ Htest Hsw).
    apply (base_field_overlay _ _ _ H0). }
  split; [exact Hov|].
  unfold after_switch in H.
  bind_ok H f2 H2. bind_ok H xs H3. destruct xs as [f3 l3].
  bind_ok H f4 H4. bind_ok H f5 H5. injection H as <- _.
  assert (Hx1 : own "x-schema-form" s1 = Some x).
  { rewrite (switch_type_own _ _ _ _ _ _ _ _ _ _ _ "x-schema-form" ltac:(discriminate) Hsw).
    exact Hx. }
  destruct (x_schema_form_part_compiled e s1 x c src f2 l1 Hx1 Hc Hs Hp)
    as (f3' & E & Hh & Hoff & _).
  rewrite E in H3. injection H3 as <- _. split.
  - rewrite (finish_hide _ _ _ _ Hmap H5), (enum_part_hide _ _ _ _ H4). exact Hh.
  - intro Hd. rewrite (proj2 (finish_type _ _ _ _ Hmap H5)),
      (enum_part_autoClear _ _ _ _ H4). apply Hoff, Hd.
Qed.

Lemma compilable_condition_is_installed_witness :
  exists f log',
    _toFieldConfig 3 (plain_env conditional_schema) None (Some conditional_schema)
                   ["field"] []
    = Ok (f, log')
    /\ hideExpression f = Some (HideByCondition "return !model.on")
    /\ autoClear f = Some false.
Proof.
  eexists. eexists. split; [reflexivity|].
  destruct (compilable_condition_is_installed 2 (plain_env conditional_schema) None
              conditional_schema ["field"] [] conditional_schema
              (JObj [("condition", JObj [("hideExpression", JStr "return !model.on");
                                         ("disableAutoClear", JBool true)])])
              (JObj [("hideExpression", JStr "return !model.on");
                     ("disableAutoClear", JBool true)])
              "return !model.on" _ _
              eq_refl eq_refl eq_refl eq_refl eq_refl eq_refl eq_refl eq_refl eq_refl)
    as (_ & Hh & Ha).
  split; [exact Hh|]. apply Ha. discriminate.
Defined.

(* --------------------------------------------------------------------- *)
(** *** The index of property dependencies                                 *)

Lemma add_dep_spec p dep deps d q :
  (exists ps, assoc d (add_dep p dep deps) = Some ps /\ In q ps) <->
  (exists ps, assoc d deps = Some ps /\ In q ps) \/ (d = dep /\ q = p).
Proof.
  unfold add_dep. destruct (String.eqb_spec d dep) as [->|Hne].
  - destruct (assoc dep deps) as [ps0|] eqn:E; rewrite assoc_assign, String.eqb_refl.
    + split.
      * intros (ps & [= <-] & Hin). apply in_app_or in Hin.
        destruct Hin as [Hin|[<-|[]]]; [left; eauto|right; auto].
      * intros [(ps & [= <-] & Hin)|[_ ->]]; eexists; split; try reflexivity;
          apply in_or_app; [left; exact Hin|right; left; reflexivity].
    + split.
      * intros (ps & [= <-] & [<-|[]]). right. auto.
      * intros [(ps & Hps & _)|[_ ->]]; [discriminate|].
        eexists. split; [reflexivity|left; reflexivity].
  - assert (E : forall x, assoc d (assign dep x deps) = assoc d deps).
    { intro x. rewrite assoc_assign. destruct (String.eqb_spec d dep); [contradiction|].
      reflexivity. }
    destruct (assoc dep deps); rewrite E; split; auto; intros [H|[H _]]; auto;
      contradiction.
Qed.

Lemma fold_add_dep_spec p ns : forall deps d q,
  (exists ps, assoc d (fold_left (fun deps dep => add_dep p dep deps) ns deps) = Some ps
              /\ In q ps) <->
  (exists ps, assoc d deps = Some ps /\ In q ps) \/ (In d ns /\ q = p).
Proof.
  induction ns as [|n ns IH]; intros deps d q; cbn [fold_left].
  - split; [auto|]. intros [H|[[] _]]. exact H.
  - rewrite IH, add_dep_spec. cbn [In]. split.
    + intros [[H|[-> ->]]|[H ->]]; auto.
    + intros [H|[[<-|H] ->]]; auto.
Qed.

Lemma resolveDependencies_entries entries : forall deps sdeps deps' sdeps',
  forEach (fun acc (entry : string * json) =>
             let '(deps, schemaDeps) := acc in
             let '(prop, dependency) := entry in
             match dependency with
             | JArr l =>
                 ns <- names l ;;
                 Ok (fold_left (fun deps dep => add_dep prop dep deps) ns deps, schemaDeps)
             | _ => Ok (deps, assign prop dependency schemaDeps)
             end)
          entries (deps, sdeps) = Ok (deps', sdeps') ->
  forall d q,
    (exists ps, assoc d deps' = Some ps /\ In q ps) <->
    (exists ps, assoc d deps = Some ps /\ In q ps) \/
    (exists l ns, In (q, JArr l) entries /\ names l = Ok ns /\ In d ns).
Proof.
  induction entries as [|[p dependency] entries IH]; intros deps sdeps deps' sdeps' H d q;
    cbn [forEach] in H.
  - injection H as <- _. split; [auto|]. intros [H|(l & ns & [] & _)]. exact H.
  - bind_ok H acc H1. destruct acc as [deps1 sdeps1].
    rewrite (IH _ _ _ _ H). cbn [In].
    destruct dependency as [| | | |l|];
      try (injection H1 as <- _; split;
           [intros [Hold|(l & ns & Hin & R)]; [left; exact Hold|right; eauto]
           |intros [Hold|(l & ns & [[=]|Hin] & R)]; [left; exact Hold|right; eauto]]).
    bind_ok H1 ns0 Hn. injection H1 as <- _. rewrite fold_add_dep_spec. split.
    + intros [[Hold|[Hd ->]]|(l' & ns & Hin & R)]; [left; exact Hold| |right; eauto].
      right. exists l, ns0. auto.
    + intros [Hold|(l' & ns & [[= -> ->]|Hin] & Hns & Hd)]; [left; left; exact Hold| |].
      * left. right. rewrite Hn in Hns. injection Hns as <-. auto.
      * right. eauto.
Qed.

(** X14. [resolveDependencies] inverts the property dependencies: in the
    first map it returns, a property [q] is listed under a name [d] exactly
    when [dependencies[q]] is an array that contains [d].  (The names are
    ordinary ones: for a name of [Object.prototype] the test [deps[dep]]
    finds the inherited member.) *)
Theorem property_dependencies_are_inverted s entries deps schemaDeps :
  own "dependencies" s = Some (JObj entries) ->
  (forall q l ns d, In (q, JArr l) entries -> names l = Ok ns -> In d ns ->
                    ordinary_name d = true) ->
  resolveDependencies s = Ok (deps, schemaDeps) ->
  forall d q,
    (exists ps, assoc d deps = Some ps /\ In q ps) <->
    (exists l ns, In (q, JArr l) entries /\ names l = Ok ns /\ In d ns).
Proof.
  intros Hd _ H d q. unfold resolveDependencies in H. rewrite Hd in H.
  cbn [truthy own_members] in H.
  rewrite (resolveDependencies_entries entries [] [] deps schemaDeps H d q).
  split; [|auto]. intros [(ps & [=] & _)|Hnew]. exact Hnew.
Qed.

Lemma payment_names_are_ordinary q l ns d :
  In (q, JArr l) payment_dependencies -> names l = Ok ns -> In d ns ->
  ordinary_name d = true.
Proof.
  intros [[= <- <-]|[[= <- <-]|[[=]|[]]]] [= <-] Hin;
    cbn in Hin; intuition (subst; reflexivity).
Qed.

Lemma property_dependencies_are_inverted_witness :
  resolveDependencies payment_schema
  = Ok ([("billing", ["card"; "gift"]); ("cvc", ["card"])],
        [("ship", JObj [("properties",
                         JObj [("address", JObj [("type", JStr "string")])])])])
  /\ exists l ns, In ("gift", JArr l) payment_dependencies
                  /\ names l = Ok ns /\ In "billing" ns.
Proof.
  split; [reflexivity|].
  apply (property_dependencies_are_inverted payment_schema payment_dependencies
           [("billing", ["card"; "gift"]); ("cvc", ["card"])]
           [("ship", JObj [("properties",
                            JObj [("address", JObj [("type", JStr "string")])])])]
           eq_refl payment_names_are_ordinary eq_refl "billing" "gift").
  exists ["card"; "gift"]. split; [reflexivity|right; left; reflexivity].
Defined.

(* --------------------------------------------------------------------- *)
(** *** The variable under the cursor                                      *)

Lemma in_class_plain c :
  TextArea.in_class c = true -> Ascii.eqb c "}" = false /\ Ascii.eqb c " " = false.
Proof.
  intro H. split.
  - destruct (Ascii.eqb_spec c "}") as [->|_]; [discriminate H|reflexivity].
  - destruct (Ascii.eqb_spec c " ") as [->|_]; [discriminate H|reflexivity].
Qed.

Lemma closes_class c t :
  TextArea.in_class c = true -> TextArea.closes (String c t) = TextArea.closes t.
Proof.
  intro H. destruct (in_class_plain c H) as [E1 E2]. cbn [TextArea.closes].
  rewrite E1, E2. reflexivity.
Qed.

Lemma group_match_greedy rest :
  TextArea.group_match rest
  = if TextArea.closes rest then None else Some (TextArea.run_length rest).
Proof.
  induction rest as [|c rest IH]; [reflexivity|].
  cbn [TextArea.group_match TextArea.run_length].
  destruct (TextArea.in_class c) eqn:Ec.
  - rewrite IH, (closes_class c rest Ec).
    destruct (TextArea.closes rest); reflexivity.
  - destruct (TextArea.closes (String c rest)); reflexivity.
Qed.

Lemma match_here_spec s group :
  TextArea.match_here s = Some group <->
  exists rest, s = String "$" (String "{" rest) /\ TextArea.closes rest = false /\
               group = TextArea.string_take (TextArea.run_length rest) rest.
Proof.
  unfold TextArea.match_here. split.
  - destruct s as [|c0 [|c1 rest]]; try discriminate;
      try (destruct (Ascii.eqb_spec c0 "$") as [->|Hne];
           [discriminate|
            destruct c0 as [[] [] [] [] [] [] [] []]; try discriminate;
            exfalso; apply Hne; reflexivity]).
    destruct (Ascii.eqb_spec c0 "$") as [->|Hne].
    + destruct (Ascii.eqb_spec c1 "{") as [->|Hne1].
      * rewrite group_match_greedy. destruct (TextArea.closes rest) eqn:E; [discriminate|].
        intros [= <-]. exists rest. auto.
      * destruct c1 as [[] [] [] [] [] [] [] []]; try discriminate.
        exfalso. apply Hne1. reflexivity.
    + destruct c0 as [[] [] [] [] [] [] [] []]; try discriminate.
      exfalso. apply Hne. reflexivity.
  - intros (rest & -> & Hc & ->). rewrite group_match_greedy, Hc. reflexivity.
Qed.

Lemma match_here_none s :
  TextArea.match_here s = None <->
  forall rest, s = String "$" (String "{" rest) -> TextArea.closes rest = true.
Proof.
  split.
  - intros H rest ->. destruct (TextArea.closes rest) eqn:E; [reflexivity|].
    assert (Hs : TextArea.match_here (String "$" (String "{" rest))
                 = Some (TextArea.string_take (TextArea.run_length rest) rest))
      by (apply match_here_spec; eauto).
    congruence.
  - intro H. destruct (TextArea.match_here s) as [g|] eqn:E; [|reflexivity].
    apply match_here_spec in E. destruct E as (rest & -> & Hc & _).
    rewrite (H rest eq_refl) in Hc. discriminate.
Qed.

Lemma exec_spec val : forall i group,
  TextArea.exec val = Some (i, group) <->
  TextArea.match_here (TextArea.string_drop i val) = Some group /\
  forall j, (j < i)%nat -> TextArea.match_here (TextArea.string_drop j val) = None.
Proof.
  induction val as [|c v IH]; intros i group.
  - cbn [TextArea.exec]. replace (TextArea.match_here "") with (@None string) by reflexivity.
    split; [discriminate|]. intros [H _]. destruct i; discriminate H.
  - cbn [TextArea.exec]. destruct (TextArea.match_here (String c v)) as [g|] eqn:Em.
    + split.
      * intros [= <- <-]. split; [exact Em|]. intros j Hj. lia.
      * intros [H Hlt]. destruct i as [|i].
        -- cbn [TextArea.string_drop] in H. congruence.
        -- specialize (Hlt O ltac:(lia)). cbn [TextArea.string_drop] in Hlt. congruence.
    + split.
      * intro H. destruct (TextArea.exec v) as [[i' g']|] eqn:Ev; [|discriminate].
        injection H as <- <-. destruct (proj1 (IH i' g') eq_refl) as [H1 H2].
        split; [exact H1|]. intros [|j] Hj; [exact Em|]. apply H2. lia.
      * intros [H Hlt]. destruct i as [|i].
        -- cbn [TextArea.string_drop] in H. congruence.
        -- cbn [TextArea.string_drop] in H.
           assert (Ev : TextArea.exec v = Some (i, group)).
           { apply IH. split; [exact H|]. intros j Hj.
             apply (Hlt (S j)). lia. }
           rewrite Ev. reflexivity.
Qed.

(** X15. What [variableRegex] finds: [exec] returns the leftmost position
    at which ['${'] is followed by a text in which no ['}'] comes before
    the next space (an open variable), and the group is the whole run of
    name characters after ['${']: giving characters back never produces a
    match that the longest run does not. *)
Theorem variableRegex_finds_the_leftmost_open_variable val i group :
  TextArea.exec val = Some (i, group) <->
  (exists rest,
      TextArea.string_drop i val = String "$" (String "{" rest) /\
      TextArea.closes rest = false /\
      group = TextArea.string_take (TextArea.run_length rest) rest) /\
  (forall j rest,
      (j < i)%nat -> TextArea.string_drop j val = String "$" (String "{" rest) ->
      TextArea.closes rest = true).
Proof.
  rewrite exec_spec, match_here_spec. split; intros [H1 H2]; (split; [exact H1|]).
  - intros j rest Hj. apply match_here_none, H2, Hj.
  - intros j Hj. apply match_here_none. intro rest. apply H2, Hj.
Qed.

Lemma variableRegex_finds_the_leftmost_open_variable_witness :
  TextArea.exec "a ${b} and ${src.ip" = Some (11%nat, "src.ip").
Proof.
  apply variableRegex_finds_the_leftmost_open_variable. split.
  - exists "src.ip". repeat split.
  - intros j rest Hj H.
    do 11 (destruct j as [|j];
           [cbn in H; try discriminate H; injection H as <-; reflexivity|]).
    lia.
Defined.

(* --------------------------------------------------------------------- *)
(** *** Opening the panel and taking a suggestion                          *)

Lemma string_drop_app a : forall j b,
  (j <= String.length a)%nat ->
  TextArea.string_drop j (a ++ b) = (TextArea.string_drop j a ++ b)%string.
Proof.
  induction a as [|c a IH]; intros j b Hj; cbn in Hj.
  - replace j with O by lia. destruct b; reflexivity.
  - destruct j as [|j]; [reflexivity|]. cbn. apply IH. lia.
Qed.

Lemma string_drop_all a : TextArea.string_drop (String.length a) a = EmptyString.
Proof. induction a as [|c a IH]; [reflexivity|exact IH]. Qed.

Lemma string_drop_nonempty a : forall j,
  (j < String.length a)%nat -> TextArea.string_drop j a <> EmptyString.
Proof.
  induction a as [|c a IH]; intros j Hj; cbn in Hj; [lia|].
  destruct j as [|j]; [discriminate|]. cbn. apply IH. lia.
Qed.

Lemma string_drop_within a : forall j,
  TextArea.string_drop j a <> EmptyString -> (j < String.length a)%nat.
Proof.
  induction a as [|c a IH]; intros j H.
  - destruct j; contradiction H; reflexivity.
  - destruct j as [|j]; cbn; [lia|]. cbn in H. apply IH in H. lia.
Qed.

Lemma string_take_app a : forall i b,
  (i <= String.length a)%nat ->
  TextArea.string_take i (TextArea.string_take i a ++ b) = TextArea.string_take i a /\
  TextArea.string_drop i (TextArea.string_take i a ++ b) = b.
Proof.
  induction a as [|c a IH]; intros i b Hi; cbn in Hi.
  - replace i with O by lia. split; [destruct b; reflexivity|]. destruct b; reflexivity.
  - destruct i as [|i]; [split; destruct b; reflexivity|].
    cbn. destruct (IH i b ltac:(lia)) as [E1 E2]. rewrite E1, E2. split; reflexivity.
Qed.

Lemma closes_app_true a b :
  TextArea.closes a = true -> TextArea.closes (a ++ b) = true.
Proof.
  induction a as [|c a IH]; cbn; [discriminate|].
  destruct (Ascii.eqb c "}"); [reflexivity|]. destruct (Ascii.eqb c " "); [discriminate|].
  exact IH.
Qed.

Lemma closes_closed name after :
  TextArea.has_char " " name = false ->
  TextArea.closes (name ++ String "}" after) = true.
Proof.
  induction name as [|c name IH]; cbn; [reflexivity|].
  intro H. apply orb_false_iff in H. destruct H as [Hc Hn].
  destruct (Ascii.eqb c "}"); [reflexivity|].
  destruct (Ascii.eqb_spec c " ") as [->|_]; [discriminate Hc|]. apply IH, Hn.
Qed.

Lemma exec_none val :
  TextArea.exec val = None <->
  forall j, TextArea.match_here (TextArea.string_drop j val) = None.
Proof.
  induction val as [|c v IH].
  - split; [|reflexivity]. intros _ j. destruct j; reflexivity.
  - cbn [TextArea.exec]. destruct (TextArea.match_here (String c v)) as [g|] eqn:Em.
    + split; [discriminate|]. intro H. specialize (H O).
      cbn [TextArea.string_drop] in H. congruence.
    + destruct (TextArea.exec v) as [[i g]|] eqn:Ev.
      * split; [discriminate|]. intro H.
        assert (Hv : @None (nat * string) = Some (i, g)); [|discriminate Hv].
        symmetry. apply IH. intro j. apply (H (S j)).
      * split; [|reflexivity]. intros _ [|j]; [exact Em|]. apply IH. reflexivity.
Qed.

Lemma match_here_app s :
  TextArea.match_here s = None -> s <> EmptyString ->
  TextArea.match_here (s ++ "${") = None.
Proof.
  intros H Hs. apply match_here_none. intros rest E.
  destruct s as [|c0 [|c1 s2]]; [contradiction| |].
  - cbn in E. discriminate E.
  - cbn in E. injection E as -> -> <-.
    apply closes_app_true. apply (proj1 (match_here_none _) H). reflexivity.
Qed.

Lemma includes_empty name : TextArea.includes "" name = true.
Proof. destruct name; reflexivity. Qed.

Lemma filter_all {A} (p : A -> bool) l : (forall x, p x = true) -> filter p l = l.
Proof.
  intro H. induction l as [|x l IH]; [reflexivity|]. cbn. rewrite H, IH. reflexivity.
Qed.

(** X16. Typing ['${'] at the end of a text that has no open variable
    opens the panel on every field: [exec] matches at the end with an empty
    group, and the list shown is the whole [sensorFields], since every name
    includes the empty string. *)
Theorem typing_a_variable_opens_all_fields sensorFields val :
  TextArea.exec val = None ->
  TextArea.exec (val ++ "${") = Some (String.length val, EmptyString) /\
  TextArea.valueChanged sensorFields (val ++ "${")
  = TextArea.mkCompletion sensorFields true.
Proof.
  intro H.
  assert (E : TextArea.exec (val ++ "${") = Some (String.length val, EmptyString)).
  { apply exec_spec. split.
    - rewrite string_drop_app by lia. rewrite string_drop_all. reflexivity.
    - intros j Hj. rewrite string_drop_app by lia.
      apply match_here_app; [apply exec_none, H|apply string_drop_nonempty, Hj]. }
  split; [exact E|]. unfold TextArea.valueChanged. rewrite E. f_equal.
  induction sensorFields as [|[n fs] l IH]; [reflexivity|]. cbn [map]. rewrite IH.
  cbn [TextArea.sensor_name TextArea.fields].
  rewrite (filter_all (fun name => TextArea.includes "" name) fs includes_empty).
  reflexivity.
Qed.

Lemma typing_a_variable_opens_all_fields_witness :
  TextArea.exec "src ${a} and ${" = Some (13%nat, EmptyString).
Proof.
  exact (proj1 (typing_a_variable_opens_all_fields [] "src ${a} and " eq_refl)).
Defined.

Lemma string_take_drop a : forall i,
  (TextArea.string_take i a ++ TextArea.string_drop i a)%string = a.
Proof.
  induction a as [|c a IH]; intro i; [destruct i; reflexivity|].
  destruct i as [|i]; [reflexivity|]. cbn. rewrite IH. reflexivity.
Qed.

Lemma string_take_length a : forall i,
  (i <= String.length a)%nat -> String.length (TextArea.string_take i a) = i.
Proof.
  induction a as [|c a IH]; intros i Hi; cbn in Hi.
  - replace i with O by lia. reflexivity.
  - destruct i as [|i]; [reflexivity|]. cbn. rewrite IH; lia.
Qed.

Lemma closes_decided a b b' :
  TextArea.closes (a ++ b) = true -> TextArea.closes b = false ->
  TextArea.closes (a ++ b') = true.
Proof.
  induction a as [|c a IH]; cbn; [congruence|].
  destruct (Ascii.eqb c "}"); [reflexivity|]. destruct (Ascii.eqb c " "); [discriminate|].
  exact IH.
Qed.

(** A position before an open variable that is not a match stays so when
    the variable is replaced by a text that starts with ['$']. *)
Lemma match_here_before q rest x :
  q <> EmptyString -> TextArea.closes rest = false ->
  TextArea.match_here (q ++ String "$" (String "{" rest)) = None ->
  TextArea.match_here (q ++ String "$" x) = None.
Proof.
  intros Hq Hrest H. apply match_here_none. intros r E.
  destruct q as [|c0 [|c1 q2]]; [contradiction| |].
  - cbn in E. discriminate E.
  - cbn in E. injection E as -> -> <-.
    apply (closes_decided q2 (String "$" (String "{" rest))); [|exact Hrest].
    apply (proj1 (match_here_none _) H). reflexivity.
Qed.

(** X17. Taking a suggestion closes the variable: for a name without a
    space and without ['$'], [autoCompleteSelected] puts ['${name}'] where
    the open variable was, keeps the text before it and the text after its
    name; what stands there is no longer an open variable, and an open
    variable that is left lies further to the right. *)
Theorem selected_suggestion_closes_the_variable val name i group :
  TextArea.has_char "$" name = false -> TextArea.has_char " " name = false ->
  TextArea.exec val = Some (i, group) ->
  exists result,
    TextArea.autoCompleteSelected val name = Some result /\
    TextArea.string_take i result = TextArea.string_take i val /\
    TextArea.string_drop i result
    = ("${" ++ name ++ "}"
       ++ TextArea.string_drop (i + 2 + String.length group) val)%string /\
    TextArea.match_here (TextArea.string_drop i result) = None /\
    forall k g, TextArea.exec result = Some (k, g) -> (i < k)%nat.
Proof.
  intros Hd Hs He. unfold TextArea.autoCompleteSelected. rewrite Hd, He.
  eexists. split; [reflexivity|].
  pose proof (proj1 (exec_spec val i group) He) as [Hm Hbefore].
  apply match_here_spec in Hm. destruct Hm as (rest & Hrest & Hc & _).
  assert (Hi : (i <= String.length val)%nat).
  { assert (TextArea.string_drop i val <> EmptyString)
      by (rewrite Hrest; discriminate).
    apply string_drop_within in H. lia. }
  set (after := TextArea.string_drop (i + 2 + String.length group) val).
  destruct (string_take_app val i ("${" ++ name ++ "}" ++ after)%string Hi) as [E1 E2].
  assert (Hhere : TextArea.match_here
                    (TextArea.string_drop i
                       (TextArea.string_take i val ++ "${" ++ name ++ "}" ++ after))
                  = None).
  { rewrite E2. apply match_here_none. intros r [= <-]. apply closes_closed, Hs. }
  split; [exact E1|]. split; [exact E2|]. split; [exact Hhere|].
  intros k g Hk. apply exec_spec in Hk. destruct Hk as [Hk _].
  destruct (Nat.lt_trichotomy k i) as [Hlt|[->|Hgt]]; [|congruence|exact Hgt].
  exfalso.
  assert (Hnone : TextArea.match_here
                    (TextArea.string_drop k
                       (TextArea.string_take i val ++ "${" ++ name ++ "}" ++ after))
                  = None); [|congruence].
  rewrite string_drop_app by (rewrite string_take_length; lia).
  apply (match_here_before _ rest).
  - apply string_drop_nonempty. rewrite string_take_length; lia.
  - exact Hc.
  - rewrite <- Hrest, <- string_drop_app by (rewrite string_take_length; lia).
    rewrite string_take_drop. apply Hbefore, Hlt.
Qed.

Lemma selected_suggestion_closes_the_variable_witness :
  TextArea.autoCompleteSelected "a ${b} and ${src.ip tail" "source.address"
  = Some "a ${b} and ${source.address} tail".
Proof.
  destruct (selected_suggestion_closes_the_variable
              "a ${b} and ${src.ip tail" "source.address" 11 "src.ip"
              eq_refl eq_refl eq_refl) as (result & E & _).
  rewrite E. f_equal. cbn in E. injection E as <-. reflexivity.
Defined.

(* --------------------------------------------------------------------- *)
(** *** Looking a config up by its name                                    *)

Lemma find_none h name entries :
  Store.find h name entries = Store.Returns None <->
  Forall (fun x => Store.named h name x = Store.Returns false) entries.
Proof.
  induction entries as [|x entries IH]; cbn [Store.find].
  - split; [constructor|reflexivity].
  - destruct (Store.named h name x) as [[|]| |] eqn:E.
    + split; [discriminate|]. intro H. inversion H; subst. congruence.
    + rewrite IH. split; [intro H; constructor; assumption|].
      intro H. inversion H; assumption.
    + split; [discriminate|]. intro H. inversion H; subst. congruence.
    + split; [discriminate|]. intro H. inversion H; subst. congruence.
Qed.

Lemma find_first h name entries config :
  Store.find h name entries = Store.Returns (Some config) ->
  exists before after,
    entries = (before ++ config :: after)%list /\
    Forall (fun x => Store.named h name x = Store.Returns false) before /\
    Store.named h name config = Store.Returns true.
Proof.
  induction entries as [|x entries IH]; cbn [Store.find]; [discriminate|].
  destruct (Store.named h name x) as [[|]| |] eqn:E; try discriminate.
  - intros [= <-]. exists [], entries. split; [reflexivity|]. split; [constructor|exact E].
  - intro H. destruct (IH H) as (before & after & -> & Hb & Hc).
    exists (x :: before), after. split; [reflexivity|]. split; [|exact Hc].
    constructor; assumption.
Qed.

Lemma find_raises h name entries e :
  Store.find h name entries = Store.Raises e -> e = Store.TypeError.
Proof.
  induction entries as [|x entries IH]; cbn [Store.find]; [discriminate|].
  destruct (Store.named h name x) as [[|]| |] eqn:E; try discriminate.
  - exact IH.
  - intros [= <-]. unfold Store.named in E.
    destruct x as [| |?|?|?|a]; try discriminate; try (injection E as <-; reflexivity).
    destruct (nth_error h a) as [[ms|vs]|]; discriminate.
Qed.

(** X18. [getConfigByName] takes the first stored config of that name: it
    raises "no config with such name" exactly when no entry of [configs]
    has the name, and what it returns is a copy of the entry before which
    no entry has the name, also when a later entry has it too. *)
Theorem getConfigByName_takes_the_first depth name st h entries :
  Store.entries_of h st = Some entries ->
  (Store.getConfigByName depth name st h = Store.Raises Store.NoConfigWithSuchName
   <-> Forall (fun x => Store.named h name x = Store.Returns false) entries) /\
  (forall c' h',
      Store.getConfigByName depth name st h = Store.Returns (c', h') ->
      exists before config after,
        entries = (before ++ config :: after)%list /\
        Forall (fun x => Store.named h name x = Store.Returns false) before /\
        Store.named h name config = Store.Returns true /\
        cloneDeep depth h config = Some (c', h')).
Proof.
  intro He. unfold Store.getConfigByName. rewrite He. split.
  - rewrite <- find_none.
    destruct (Store.find h name entries) as [[config|]| |] eqn:Ef.
    + destruct (cloneDeep depth h config); split; discriminate.
    + split; reflexivity.
    + split; [|discriminate]. intros [= ->].
      pose proof (find_raises _ _ _ _ Ef). discriminate.
    + split; discriminate.
  - intros c' h' H.
    destruct (Store.find h name entries) as [[config|]| |] eqn:Ef; try discriminate.
    destruct (cloneDeep depth h config) as [r|] eqn:Ec; [|discriminate].
    injection H as ->. destruct (find_first _ _ _ _ Ef) as (before & after & E & Hb & Hc).
    exists before, config, after. auto.
Qed.

Lemma getConfigByName_takes_the_first_witness :
  exists c' h' before config after,
    Store.getConfigByName 3 "alert" twin_state twin_heap = Store.Returns (c', h') /\
    [Ref 0%nat; Ref 1%nat; Ref 2%nat] = (before ++ config :: after)%list /\
    Forall (fun x => Store.named twin_heap "alert" x = Store.Returns false) before /\
    Store.named twin_heap "alert" config = Store.Returns true /\
    cloneDeep 3 twin_heap config = Some (c', h').
Proof.
  eexists. eexists.
  destruct (proj2 (getConfigByName_takes_the_first 3 "alert" twin_state twin_heap
                     [Ref 0%nat; Ref 1%nat; Ref 2%nat] eq_refl) _ _ eq_refl)
    as (before & config & after & H).
  exists before, config, after. split; [reflexivity|exact H].
Defined.

(* --------------------------------------------------------------------- *)
(** *** The data of a cloned config                                        *)

Lemma reify_members_lookup d h k : forall ms js,
  reify_members d h ms = Some js ->
  assoc k js = match assoc k ms with
               | Some x => reify d h x
               | None => None
               end.
Proof.
  induction ms as [|[k0 v0] ms IH]; intros js H.
  - injection H as <-. reflexivity.
  - rewrite reify_members_cons in H. cbn [fst snd] in H.
    destruct (reify d h v0) as [j0|] eqn:E0; [|discriminate].
    destruct (reify_members d h ms) as [js0|] eqn:Ems; [|discriminate].
    injection H as <-. cbn [assoc]. destruct (String.eqb k k0); [auto|].
    apply IH. reflexivity.
Qed.

Lemma reify_get d h k v js :
  reify (S d) h v = Some (JObj js) -> reify d h (Store.get h k v) = assoc k js.
Proof.
  intro H. destruct v as [| |?|?|?|a]; try discriminate. rewrite reify_ref in H.
  unfold Store.get. destruct (nth_error h a) as [[ms|vs]|]; try discriminate.
  - destruct (reify_members d h ms) as [js0|] eqn:Ems; [|discriminate].
    injection H as <-. rewrite (reify_members_lookup d h k ms js0 Ems).
    destruct (assoc k ms); [reflexivity|destruct d; reflexivity].
  - destruct (reify_all d h vs); discriminate.
Qed.

Lemma reify_members_assign d h k x j : forall ms js,
  reify_members d h ms = Some js -> reify d h x = Some j ->
  reify_members d h (assign k x ms) = Some (assign k j js).
Proof.
  induction ms as [|[k0 v0] ms IH]; intros js H Hx.
  - injection H as <-. cbn [assign]. rewrite reify_members_cons. cbn [fst snd].
    rewrite Hx. reflexivity.
  - rewrite reify_members_cons in H. cbn [fst snd] in H.
    destruct (reify d h v0) as [j0|] eqn:E0; [|discriminate].
    destruct (reify_members d h ms) as [js0|] eqn:Ems; [|discriminate].
    injection H as <-. cbn [assign]. destruct (String.eqb k k0).
    + rewrite reify_members_cons. cbn [fst snd]. rewrite Hx, Ems. reflexivity.
    + rewrite reify_members_cons. cbn [fst snd]. rewrite E0, (IH js0 eq_refl Hx).
      reflexivity.
Qed.

Lemma reify_members_extends d h h' ms js :
  extends h h' -> reify_members d h ms = Some js -> reify_members d h' ms = Some js.
Proof.
  intros He H. rewrite reify_members_all in *.
  destruct (reify_all d h (map snd ms)) as [vs|] eqn:E; [|discriminate].
  rewrite (reify_all_extends d h h' (reify_extends h h' He d) _ _ E). exact H.
Qed.

Lemma reify_primitive d h v j :
  match v with Ref _ | Undefined => False | _ => True end ->
  reify 0 h v = Some j -> reify d h v = Some j.
Proof. destruct v; try contradiction; destruct d; auto. Qed.

(** X19. The data of a cloned config is the original's with the name and
    version replaced: when the stored config of that name reads as a
    document whose [configData] is an object, the [configData] of the
    edited config after [setEditedClonedConfigByName] reads as that object
    with [name_clone] under the service's name key and [0] under its
    version key (the version last, so it wins when both keys are the same),
    every other member being as in the original. *)
Theorem cloned_config_data_is_renamed svc depth name st h st' h' entries config d J ms :
  Store.setEditedClonedConfigByName svc depth name st h = Store.Returns (st', h') ->
  Store.entries_of h st = Some entries ->
  Store.find h name entries = Store.Returns (Some config) ->
  reify (S (S d)) h config = Some J -> own "configData" J = Some (JObj ms) ->
  reify (S d) h' (Store.get h' "configData" (Store.editedConfig st'))
  = Some (JObj (assign (Store.metaData_version svc) (JNum 0)
                  (assign (Store.metaData_name svc) (JStr (name ++ "_clone")) ms))).
Proof.
  intros H He Hf HJ Hdata.
  unfold Store.setEditedClonedConfigByName, Store.getConfigByName in H.
  rewrite He, Hf in H.
  destruct (cloneDeep depth h config) as [[c1 h1]|] eqn:Ec1; [|discriminate].
  destruct (find_some _ _ _ _ Hf) as [_ Hnamed].
  rewrite (clone_keeps_name _ _ _ _ _ _ Hnamed Ec1) in H.
  destruct (cloneDeep depth h1 (Store.get h1 "configData" c1)) as [[data h2]|] eqn:Ec2;
    [|discriminate].
  unfold alloc in H. injection H as <- <-.
  (* the original and its copy read alike *)
  destruct (cloneDeep_copies O _ _ _ _ _ (Nat.le_0_l _) Ec1) as (_ & _ & _ & R1).
  pose proof (R1 _ _ HJ) as HJ1.
  assert (Hobj : exists js, J = JObj js).
  { destruct config as [| |?|?|?|a]; try discriminate. rewrite reify_ref in HJ.
    unfold Store.named in Hnamed.
    destruct (nth_error h a) as [[ms0|vs]|]; try discriminate.
    destruct (reify_members (S d) h ms0) as [js|]; [|discriminate].
    injection HJ as <-. eauto. }
  destruct Hobj as [js ->]. cbn [own] in Hdata.
  pose proof (reify_get (S d) h1 "configData" c1 js HJ1) as Hcd. rewrite Hdata in Hcd.
  destruct (cloneDeep_copies O _ _ _ _ _ (Nat.le_0_l _) Ec2) as (_ & _ & _ & R2).
  pose proof (R2 _ _ Hcd) as Hd2.
  destruct data as [| |?|?|?|a2]; try discriminate. rewrite reify_ref in Hd2.
  destruct (nth_error h2 a2) as [[dm|vs]|] eqn:Ea2; try discriminate;
    [|destruct (reify_all d h2 vs); discriminate].
  destruct (reify_members d h2 dm) as [ms'|] eqn:Edm; [|discriminate].
  injection Hd2 as ->.
  cbn [Store.editedConfig Store.updateEditedConfig Store.assignable cell_members].
  rewrite Ea2. cbn [cell_members].
  set (cell := Obj (assign (Store.metaData_version svc) (Num 0)
                      (assign (Store.metaData_name svc) (Str (name ++ "_clone")) dm))).
  set (h3 := (h2 ++ [cell])%list).
  set (h4 := (h3 ++ [Arr []])%list).
  match goal with
  | |- context [(h4 ++ [?w])%list] => set (wrapper := w); set (h5 := (h4 ++ [wrapper])%list)
  end.
  assert (E5 : nth_error h5 (List.length h4) = Some wrapper) by apply nth_error_alloc.
  assert (E3 : nth_error h5 (List.length h2) = Some cell).
  { apply (extends_alloc h4), (extends_alloc h3), nth_error_alloc. }
  assert (X25 : extends h2 h5).
  { apply (extends_trans _ h3); [apply extends_alloc|].
    apply (extends_trans _ h4); apply extends_alloc. }
  unfold Store.get at 1. rewrite E5. subst wrapper. cbn [assoc String.eqb Ascii.eqb Bool.eqb].
  rewrite reify_ref, E3. subst cell. cbv iota.
  rewrite (reify_members_assign d h5 _ (Num 0) (JNum 0) _
             (assign (Store.metaData_name svc) (JStr (name ++ "_clone")) ms)).
  - reflexivity.
  - apply reify_members_assign; [|destruct d; reflexivity].
    apply (reify_members_extends d h2 h5 dm ms X25 Edm).
  - destruct d; reflexivity.
Qed.

Lemma cloned_config_data_is_renamed_witness :
  exists st' h',
    Store.setEditedClonedConfigByName editor_service 3 "alert_b" stored_state stored_heap
    = Store.Returns (st', h') /\
    reify 1 h' (Store.get h' "configData" (Store.editedConfig st'))
    = Some (JObj [("rule_name", JStr "alert_b_clone"); ("rule_version", JNum 0)]).
Proof.
  eexists. eexists. split; [reflexivity|].
  eapply (cloned_config_data_is_renamed editor_service 3 "alert_b" stored_state stored_heap
            _ _ [Ref 2%nat; Ref 4%nat] (Ref 4%nat) 0
            (JObj [("name", JStr "alert_b"); ("version", JNum 1); ("isNew", JBool false);
                   ("configData", JObj [("rule_name", JStr "alert_b");
                                        ("rule_version", JNum 1)])])
            [("rule_name", JStr "alert_b"); ("rule_version", JNum 1)]);
    reflexivity.
Defined.

(* --------------------------------------------------------------------- *)
(** *** The root of a form                                                 *)

Lemma label_from_key_root f : label_from_key [] f = Throw TypeError.
Proof. reflexivity. Qed.

Lemma copy_owned_outcome schema from to f :
  copy_owned schema from to f = Throw TypeError \/
  exists f', copy_owned schema from to f = Ok f'.
Proof.
  unfold copy_owned, set_to. destruct (own from schema); [|eauto].
  destruct (templateOptions f); eauto.
Qed.

Lemma string_case_root schema f : string_case schema [] f = Throw TypeError.
Proof.
  unfold string_case.
  match goal with
  | |- context [copy_owned schema "minLength" "minLength" ?g] =>
      destruct (copy_owned_outcome schema "minLength" "minLength" g) as [E|[f1 E]]
  end; rewrite E; cbn [bind]; [reflexivity|].
  destruct (copy_owned_outcome schema "maxLength" "maxLength" f1) as [E2|[f2 E2]];
    rewrite E2; cbn [bind]; [reflexivity|].
  destruct (copy_owned_outcome schema "pattern" "pattern" f2) as [E3|[f3 E3]];
    rewrite E3; cbn [bind]; reflexivity.
Qed.

Lemma base_field_outcome a schema :
  base_field a schema = Throw TypeError \/ exists f, base_field a schema = Ok f.
Proof.
  unfold base_field. destruct (truthy (own "title" schema)); [|cbn [bind]; eauto].
  destruct (own "title" schema) as [[| | |t| |]|]; cbn [label_of bind]; eauto.
Qed.

(** X20. The root of a form has to be an object (or of no or null type):
    [toFieldConfig] calls [_toFieldConfig] with an empty key path, and the
    cases for boolean, number, integer, string and array schemas read the
    last segment of the key path for the label, so for a root schema that
    resolves to one of these types it raises a [TypeError]. *)
Theorem root_schema_of_primitive_type_raises fuel svc s r t :
  resolveSchema fuel s s = Ok r ->
  guessType r = Some (JStr t) ->
  In t ["boolean"; "number"; "integer"; "string"; "array"] ->
  toFieldConfig (S fuel) svc s = Throw TypeError.
Proof.
  intros Hres Ht Hin. unfold toFieldConfig. cbn [_toFieldConfig root].
  rewrite Hres. cbn [bind].
  destruct (base_field_outcome None r) as [E|[f0 E]]; rewrite E; cbn [bind];
    [reflexivity|].
  unfold switch_type. rewrite (base_field_type _ _ _ E), Ht.
  cbn [In] in Hin.
  destruct Hin as [<-|[<-|[<-|[<-|[<-|[]]]]]];
    cbn [is_str String.eqb Ascii.eqb Bool.eqb orb];
    rewrite ?string_case_root; reflexivity.
Qed.

Lemma root_schema_of_primitive_type_raises_witness :
  toFieldConfig 2 plain_service (JObj [("type", JStr "string"); ("title", JStr "name")])
  = Throw TypeError.
Proof.
  apply (root_schema_of_primitive_type_raises 1 plain_service
           (JObj [("type", JStr "string"); ("title", JStr "name")])
           (JObj [("type", JStr "string"); ("title", JStr "name")]) "string");
    [reflexivity|reflexivity|].
  right. right. right. left. reflexivity.
Defined.

(* --------------------------------------------------------------------- *)
(** *** The fields of a schema dependency                                  *)

Lemma dependency_branches compile key newPropKey l : forall acc log fs log',
  forEach (fun acc item =>
             let '(fields, log) := acc in
             properties <- prop "properties" item ;;
             constSchema <- member_of key properties ;;
             match properties, constSchema with
             | Some ps, Some constSchema =>
                 let rest := JObj (remove_key key (own_members ps)) in
                 '(f, log) <- compile (Some true)
                                (Some (JObj (assign "properties" rest (own_members item))))
                                newPropKey log ;;
                 '(f, log) <- spread_hidden compile f (HideUnlessConst key constSchema) log ;;
                 Ok ((fields ++ [f])%list, log)
             | _, _ => Throw TypeError
             end)
          l (acc, log) = Ok (fs, log') ->
  exists new, fs = (acc ++ new)%list /\ List.length new = List.length l /\
    forall i b, nth_error new i = Some b ->
      exists item ps cs,
        nth_error l i = Some item /\ own "properties" item = Some ps /\
        own key ps = Some cs /\ hideExpression b = Some (HideUnlessConst key cs).
Proof.
  induction l as [|item l IH]; intros acc log fs log' H; cbn [forEach] in H.
  - injection H as <- _. exists []. rewrite app_nil_r. split; [reflexivity|].
    split; [reflexivity|]. intros [|i] b Hb; discriminate.
  - bind_ok H acc1 H1. destruct acc1 as [fields1 log1].
    bind_ok H1 properties Hp. bind_ok H1 constSchema Hc.
    destruct properties as [ps|]; [|discriminate].
    destruct constSchema as [cs|]; [|discriminate].
    bind_ok H1 fl Hf. destruct fl as [f0 l0].
    bind_ok H1 fl2 Hs. destruct fl2 as [f1 l1]. injection H1 as <- <-.
    destruct (IH _ _ _ _ H) as (new & -> & Hlen & Hnew).
    exists (f1 :: new). rewrite <- app_assoc. split; [reflexivity|].
    split; [cbn; rewrite Hlen; reflexivity|].
    intros [|i] b Hb; cbn in Hb.
    + injection Hb as <-. exists item, ps, cs. split; [reflexivity|].
      split; [destruct item; try discriminate; injection Hp as <-; reflexivity|].
      split; [destruct ps; try discriminate; injection Hc as <-; reflexivity|].
      apply (spread_hidden_sets _ _ _ _ _ _ Hs).
    + apply (Hnew i b Hb).
Qed.

(** X21. The fields that a schema dependency of a property adds.  When the
    dependency has a [oneOf] each of whose alternatives fixes the property
    to a constant, there is one field per alternative, in order, hidden
    unless the property has that alternative's constant; otherwise there is
    one field, hidden while the property is empty. *)
Theorem dependency_fields_are_guarded compile a key dependency newPropKey log fs log' :
  dependency_fields compile a key dependency newPropKey log = Ok (fs, log') ->
  (forall l,
      own "oneOf" dependency = Some (JArr l) ->
      every (discriminated_by key) l = Ok true ->
      List.length fs = List.length l /\
      forall i b, nth_error fs i = Some b ->
        exists item ps cs,
          nth_error l i = Some item /\ own "properties" item = Some ps /\
          own key ps = Some cs /\ hideExpression b = Some (HideUnlessConst key cs)) /\
  (truthy (own "oneOf" dependency) = false \/
   (exists l, own "oneOf" dependency = Some (JArr l) /\
              every (discriminated_by key) l = Ok false) ->
   exists f, fs = [f] /\ hideExpression f = Some (HideWhileEmpty key)).
Proof.
  intro H. unfold dependency_fields in H. split.
  - intros l Ho He. rewrite Ho in H. cbn [truthy] in H. rewrite He in H. cbn [bind] in H.
    destruct (dependency_branches compile key newPropKey l [] log fs log' H)
      as (new & -> & Hlen & Hnew).
    split; [exact Hlen|exact Hnew].
  - intro Hcase.
    assert (E : (if truthy (own "oneOf" dependency)
                 then match own "oneOf" dependency with
                      | Some (JArr l) => every (discriminated_by key) l
                      | _ => Throw TypeError
                      end
                 else Ok false) = Ok false).
    { destruct Hcase as [Hf|(l & Ho & He)]; [rewrite Hf; reflexivity|].
      rewrite Ho. cbn [truthy]. exact He. }
    rewrite E in H. cbn [bind] in H.
    bind_ok H fl Hf. destruct fl as [f0 l0].
    bind_ok H fl2 Hs. destruct fl2 as [f1 l1]. injection H as <- _.
    exists f1. split; [reflexivity|]. apply (spread_hidden_sets _ _ _ _ _ _ Hs).
Qed.

Lemma dependency_fields_are_guarded_witness :
  exists fs log',
    dependency_fields (_toFieldConfig 4 (plain_env JNull)) None "kind"
                      transport_dependency ["kind"] []
    = Ok (fs, log') /\ List.length fs = 2%nat.
Proof.
  eexists. eexists. split; [reflexivity|].
  eapply (proj1 (dependency_fields_are_guarded
                   (_toFieldConfig 4 (plain_env JNull)) None "kind"
                   transport_dependency ["kind"] [] _ _ eq_refl)
                [JObj [("properties", JObj [("kind", JObj [("const", JStr "tcp")]);
                                            ("port", JObj [("type", JStr "integer")])])];
                 JObj [("properties", JObj [("kind", JObj [("enum", JArr [JStr "file"])]);
                                            ("path", JObj [("type", JStr "string")])])]]);
    reflexivity.
Defined.

(* --------------------------------------------------------------------- *)
(** *** Plain schemas compile                                              *)

Lemma only_keys_absent allowed ms k :
  only_keys allowed ms = true -> mem k allowed = false -> assoc k ms = None.
Proof.
  unfold only_keys. intros H Hk. induction ms as [|[k0 v0] ms IH]; [reflexivity|].
  cbn [forallb fst] in H. apply andb_prop in H. destruct H as [H0 H].
  cbn [assoc]. destruct (String.eqb_spec k k0) as [->|_]; [congruence|]. apply IH, H.
Qed.

Lemma set_to_total k v f :
  has_options f -> exists f', set_to k v f = Ok f' /\ has_options f'.
Proof.
  unfold has_options, set_to. intro H. destruct (templateOptions f) as [to|] eqn:E;
    [|contradiction].
  eexists. split; [reflexivity|]. cbn. discriminate.
Qed.

Lemma last_segment_some propKey :
  propKey <> [] -> exists k, last_segment propKey = Some (JStr k).
Proof.
  intro H. unfold last_segment. destruct (rev propKey) as [|k l] eqn:E; [|eauto].
  exfalso. apply H. rewrite <- (rev_involutive propKey), E. reflexivity.
Qed.

Lemma label_from_key_total propKey f :
  propKey <> [] -> has_options f ->
  exists f', label_from_key propKey f = Ok f' /\ has_options f'.
Proof.
  intros Hk Hf. unfold label_from_key. destruct (last_segment_some propKey Hk) as [k ->].
  cbn [label_of bind]. apply set_to_total, Hf.
Qed.

Lemma copy_owned_total schema from to f :
  has_options f -> exists f', copy_owned schema from to f = Ok f' /\ has_options f'.
Proof.
  intro Hf. unfold copy_owned. destruct (own from schema); [apply set_to_total, Hf|eauto].
Qed.

Lemma validate_owned_total schema from to v f :
  has_options f -> exists f', validate_owned schema from to v f = Ok f' /\ has_options f'.
Proof.
  intro Hf. unfold validate_owned. destruct (own from schema) as [x|]; [|eauto].
  destruct (set_to_total to (Some x) f Hf) as (f1 & E & H1). rewrite E. cbn [bind].
  eexists. split; [reflexivity|]. exact H1.
Qed.

Ltac step_total L :=
  match goal with
  | |- exists f', bind ?m _ = Ok f' /\ _ =>
      let f1 := fresh "f" in let E := fresh "E" in let H1 := fresh "H" in
      destruct L as (f1 & E & H1); [try assumption..|]; rewrite E; cbn [bind]
  end.

Lemma number_case_total schema propKey f :
  propKey <> [] -> has_options f ->
  exists f', number_case schema propKey f = Ok f' /\ has_options f'.
Proof.
  intros Hk Hf. unfold number_case.
  step_total (label_from_key_total propKey f Hk Hf).
  match goal with
  | |- context [copy_owned schema "minimum" "min" ?g] =>
      step_total (copy_owned_total schema "minimum" "min" g H)
  end.
  step_total (copy_owned_total schema "maximum" "max" f1 H0).
  step_total (validate_owned_total schema "exclusiveMinimum" "exclusiveMinimum"
                (ExclusiveMinimumValidator schema) f2 H1).
  step_total (validate_owned_total schema "exclusiveMaximum" "exclusiveMaximum"
                (ExclusiveMaximumValidator schema) f3 H2).
  apply validate_owned_total, H3.
Qed.

Lemma string_case_total schema propKey f t :
  own "type" schema = Some (JStr t) -> propKey <> [] -> has_options f ->
  exists f', string_case schema propKey f = Ok f' /\ has_options f'.
Proof.
  intros Ht Hk Hf. unfold string_case. rewrite Ht.
  step_total (copy_owned_total schema "minLength" "minLength" f Hf).
  step_total (copy_owned_total schema "maxLength" "maxLength" f0 H).
  step_total (copy_owned_total schema "pattern" "pattern" f1 H0).
  destruct (is_str "-" (last_segment propKey));
    [apply set_to_total, H1|apply label_from_key_total; assumption].
Qed.

Lemma base_field_total a ms :
  title_ok ms = true ->
  exists f, base_field a (JObj ms) = Ok f /\ has_options f /\
            type f = guessType (JObj ms).
Proof.
  unfold title_ok, base_field. cbn [own]. intro H.
  destruct (assoc "title" ms) as [[| | |t| |]|]; try discriminate;
    [destruct (truthy (Some (JStr t)))|cbn [truthy]]; cbn [label_of bind];
    eexists; (split; [reflexivity|]); (split; [cbn; discriminate|reflexivity]).
Qed.

Lemma resolveSchema_nothing fuel root ms :
  assoc "$ref" ms = None -> assoc "allOf" ms = None ->
  resolveSchema (S fuel) root (JObj ms) = Ok (JObj ms).
Proof.
  intros Hr Ha. cbn [resolveSchema prop own bind]. rewrite Hr. cbn [truthy bind prop own].
  rewrite Ha. reflexivity.
Qed.

Lemma after_switch_nothing fuel e ms f log :
  map_hook e = None ->
  assoc "const" ms = None -> assoc "x-schema-form" ms = None ->
  assoc "enum" ms = None -> assoc "anyOf" ms = None -> assoc "oneOf" ms = None ->
  assoc "uniqueItems" ms = None -> assoc "widget" ms = None ->
  after_switch (S fuel) e (JObj ms) f log = Ok (f, log).
Proof.
  intros Hmap Hc Hx He Ha Ho Hu Hw. unfold after_switch, const_part, x_schema_form_part,
    enum_part, finish. cbn [own isEnum]. rewrite Hc, Hx, He, Ha, Ho, Hu, Hw, Hmap.
  reflexivity.
Qed.

Lemma switch_type_leaf compile fuel e a ms propKey f t log :
  In t leaf_types -> assoc "type" ms = Some (JStr t) -> type f = Some (JStr t) ->
  propKey <> [] -> has_options f ->
  exists f', switch_type compile fuel e a (JObj ms) propKey f log = Ok (JObj ms, f', log)
             /\ has_options f'.
Proof.
  intros Ht Hty Hf Hk Ho. unfold switch_type. rewrite Hf.
  destruct Ht as [<-|[<-|[<-|[<-|[]]]]]; cbn [is_str String.eqb Ascii.eqb Bool.eqb orb].
  - destruct (string_case_total (JObj ms) propKey f "string" Hty Hk Ho) as (f1 & E & H1).
    rewrite E. cbn [bind]. eauto.
  - destruct (number_case_total (JObj ms) propKey f Hk Ho) as (f1 & E & H1).
    rewrite E. cbn [bind]. eauto.
  - destruct (number_case_total (JObj ms) propKey f Hk Ho) as (f1 & E & H1).
    rewrite E. cbn [bind]. eauto.
  - destruct (label_from_key_total propKey f Hk Ho) as (f1 & E & H1).
    rewrite E. cbn [bind].
    destruct (set_to_total "description" (own "description" (JObj ms)) f1 H1)
      as (f2 & E2 & H2).
    rewrite E2. cbn [bind]. eauto.
Qed.

Lemma forEach_property_fields_total compile a schema propKey ps :
  (forall k sub log, In (k, sub) ps ->
     exists f, compile a (Some sub) (propKey ++ [k])%list log = Ok (f, log)
               /\ has_options f) ->
  forall group log,
  exists group',
    forEach (property_fields compile a schema propKey [] []) ps (group, log)
    = Ok (group', log).
Proof.
  induction ps as [|[k sub] ps IH]; intros Hc group log; cbn [forEach]; [eauto|].
  destruct (Hc k sub log (or_introl eq_refl)) as (f & E & Hf).
  unfold property_fields at 1. rewrite E. cbn [bind assoc].
  assert (Hr : exists f',
             (match own "required" schema with
              | Some (JArr l) =>
                  if index_of_key k l
                  then set_to "required" (Some (JBool true)) (set_key (Some k) f)
                  else Ok (set_key (Some k) f)
              | _ => Ok (set_key (Some k) f)
              end) = Ok f').
  { destruct (own "required" schema) as [[| | | |l|]|]; eauto.
    destruct (index_of_key k l); eauto.
    destruct (set_to_total "required" (Some (JBool true)) (set_key (Some k) f))
      as (f' & E' & _); [exact Hf|eauto]. }
  destruct Hr as (f' & ->). cbn [bind].
  destruct (templateOptions f'); apply IH; intros; apply Hc; right; assumption.
Qed.

Lemma _toFieldConfig_unfold fuel e a schema propKey log :
  _toFieldConfig (S fuel) e a (Some schema) propKey log =
  (schema <- resolveSchema fuel (root e) schema ;;
   f <- base_field a schema ;;
   ' (schema, f, log) <-
      switch_type (_toFieldConfig fuel e) fuel e a schema propKey f log ;;
   after_switch fuel e schema f log).
Proof. reflexivity. Qed.

(** X22.  A schema built only from objects with [properties] of ordinary
    names and from strings, numbers, integers and booleans, with the plain
    keywords of each and nested below depth [n], compiles: with no [map]
    hook, [_toFieldConfig] returns a field that has [templateOptions] and
    leaves the console log as it was.  A leaf needs a property path, since
    its label is read from the last segment. *)
Theorem plain_schemas_compile (n : nat) (e : env) (a : option bool) (s : json)
    (propKey : list string) (log : list string) :
  map_hook e = None ->
  plain n s = true ->
  propKey <> [] \/ is_object_schema s = true ->
  exists f, _toFieldConfig (S n) e a (Some s) propKey log = Ok (f, log)
            /\ has_options f.
Proof.
  intro Hmap. revert s propKey log.
  induction n as [|n IH]; intros s propKey log Hp Hk; [discriminate Hp|].
  destruct s as [| | | | |ms]; try discriminate Hp.
  cbn [plain] in Hp. apply andb_prop in Hp. destruct Hp as [Htitle Hp].
  destruct (assoc "type" ms) as [[| | |t| |]|] eqn:Hty; try discriminate Hp.
  assert (Hkeys : exists allowed, only_keys allowed ms = true /\
                    forall k, mem k object_keywords = false ->
                              mem k leaf_keywords = false -> mem k allowed = false).
  { destruct (mem t leaf_types).
    - exists leaf_keywords. split; [exact Hp|]. intros k _ H. exact H.
    - destruct (String.eqb t "object"); [|discriminate Hp].
      apply andb_prop in Hp. exists object_keywords. split; [apply Hp|].
      intros k H _. exact H. }
  destruct Hkeys as (allowed & Hkeys & Hall).
  assert (Habs : forall k, mem k object_keywords = false ->
                           mem k leaf_keywords = false -> assoc k ms = None).
  { intros k H1 H2. apply (only_keys_absent allowed); [exact Hkeys|]. apply Hall; assumption. }
  rewrite _toFieldConfig_unfold.
  rewrite resolveSchema_nothing by (apply Habs; reflexivity). cbn [bind].
  destruct (base_field_total a ms Htitle) as (f0 & E0 & H0 & T0).
  rewrite E0. cbn [bind].
  assert (Tg : type f0 = Some (JStr t)).
  { rewrite T0. unfold guessType. cbn [own]. rewrite Hty.
    destruct (mem t leaf_types) eqn:Hl.
    - apply (proj1 (mem_In _ _)) in Hl. destruct Hl as [<-|[<-|[<-|[<-|[]]]]]; reflexivity.
    - destruct (String.eqb_spec t "object") as [->|_]; [reflexivity|discriminate Hp]. }
  assert (Hsw : exists f1,
             switch_type (_toFieldConfig (S n) e) (S n) e a (JObj ms) propKey f0 log
             = Ok (JObj ms, f1, log) /\ has_options f1).
  { destruct (mem t leaf_types) eqn:Hl.
    - apply (proj1 (mem_In _ _)) in Hl. apply switch_type_leaf with (t := t); try assumption.
      destruct Hk as [Hk|Hk]; [exact Hk|]. exfalso.
      unfold is_object_schema in Hk. cbn [own] in Hk. rewrite Hty in Hk. cbn [is_str] in Hk.
      apply String.eqb_eq in Hk. subst t.
      destruct Hl as [E|[E|[E|[E|[]]]]]; discriminate E.
    - destruct (String.eqb_spec t "object") as [->|_]; [|discriminate Hp].
      apply andb_prop in Hp. destruct Hp as [_ Hp].
      destruct (assoc "properties" ms) as [[| | | | |ps]|] eqn:Hps; try discriminate Hp.
      unfold switch_type. rewrite Tg.
      cbn [is_str String.eqb Ascii.eqb Bool.eqb orb].
      unfold object_case.
      rewrite resolveDependencies_none
        by (cbn [own]; rewrite Habs by reflexivity; reflexivity).
      cbn [bind own]. rewrite Hps. cbn [truthy own_members].
      rewrite (Habs "oneOf") by reflexivity. rewrite (Habs "anyOf") by reflexivity.
      destruct (forEach_property_fields_total (_toFieldConfig (S n) e) a (JObj ms)
                  propKey ps) with (group := @nil field) (log := log) as (group & Eg).
      { intros k sub log0 Hin. rewrite forallb_forall in Hp.
        specialize (Hp (k, sub) Hin). apply andb_prop in Hp. destruct Hp as [_ Hp].
        apply IH; [exact Hp|]. left. destruct propKey; discriminate. }
      cbn [own] in Eg. rewrite Eg. cbn [bind truthy]. eexists. split; [reflexivity|].
      unfold has_options in *. cbn. exact H0. }
  destruct Hsw as (f1 & E1 & H1). rewrite E1. cbn [bind].
  rewrite after_switch_nothing by (try exact Hmap; apply Habs; reflexivity).
  eauto.
Qed.

Lemma plain_schemas_compile_witness :
  exists f,
    toFieldConfig 4 (mkService None None (fun _ => true)) listener_schema = Ok (f, [])
    /\ has_options f.
Proof.
  exact (plain_schemas_compile 3
           (mkEnv listener_schema None None (fun _ => true)) None listener_schema [] []
           eq_refl eq_refl (or_intror eq_refl)).
Defined.
